(** * Track-selection engine: library, compatibility rules, energy curves
      and the greedy journey planner.

    Shallow embedding of [track_selector/models.py], [track_selector/library.py]
    and [track_selector/journey_planner.py].

    Conventions of the embedding.
    - Python [int] is [Z]; [//] is [Z.div] and [%] is [Z.modulo] (both floor
      with the sign of the divisor, as in Python).
    - Python [float] is modelled by exact rationals [Q]: the literals used by
      the code ([0.5], [1.0], [2.0], [0.65], [100.0], [0.94], ...) are the
      corresponding fractions and [+ - * /] are exact.  [/] on a zero divisor
      raises [ZeroDivisionError].  The tempo test of the store is also given
      with every operation rounded to binary64 ([Binary64]); the two readings
      differ on ratios at the edge of a band.
    - A [Path] is kept by its normalized string ([Path]).
    - Exceptions are an explicit [result]; the planner, which reads the
      library and draws from the random source, runs in a state-and-exception
      monad over [PlannerState].  There tracks and lists are values.  The
      store and the planner are given a second time over a heap of objects
      held by reference ([Heap], [OnHeap]), where lists are changed in place.
    - [print] output is not modelled. *)

From Stdlib Require Import ZArith QArith Qabs Qround List String Ascii Bool Lia Lqa.
From Stdlib Require Import DecimalString Permutation Sorted Eqdep_dec SpecFloat.
Import ListNotations.

Local Open Scope string_scope.
Local Open Scope list_scope.
Local Open Scope Z_scope.

(* ------------------------------------------------------------------ *)
(** ** Python primitives *)

Module Py.

Inductive exn : Type :=
| ZeroDivisionError
| IndexError
| ValueError (msg : string).

Inductive result (A : Type) : Type :=
| Ok (a : A)
| Raise (e : exn).
Arguments Ok {A} a.
Arguments Raise {A} e.

Definition rbind {A B} (r : result A) (k : A -> result B) : result B :=
  match r with
  | Ok a => k a
  | Raise e => Raise e
  end.

(** [a / b] on numbers. *)
Definition truediv (a b : Q) : result Q :=
  if Qeq_bool b 0 then Raise ZeroDivisionError else Ok (a / b)%Q.

(** [int(x)]: truncation towards zero. *)
Definition int (q : Q) : Z := Z.quot (Qnum q) (Zpos (Qden q)).

(** [len(l)]. *)
Definition len {A} (l : list A) : Z := Z.of_nat (List.length l).

(** The integers [a, a+1, ...], [k] of them. *)
Fixpoint range_from (a : Z) (k : nat) : list Z :=
  match k with
  | O => []
  | S k' => a :: range_from (a + 1) k'
  end.

(** [range(a, b)] and [range(b)]. *)
Definition range2 (a b : Z) : list Z := range_from a (Z.to_nat (b - a)).
Definition range (b : Z) : list Z := range2 0 b.

(** [l[:n]], negative [n] counting from the end. *)
Definition slice_to {A} (l : list A) (n : Z) : list A :=
  if 0 <=? n then firstn (Z.to_nat n) l
  else firstn (List.length l - Z.to_nat (- n)) l.

(** [[x] * n]. *)
Definition replicate {A} (x : A) (n : Z) : list A := repeat x (Z.to_nat n).

(** [for x in xs: s = body(x, s)], where the body may raise. *)
Fixpoint for_each {X S} (xs : list X) (body : X -> S -> result S) (s : S)
  : result S :=
  match xs with
  | [] => Ok s
  | i :: xs' => rbind (body i s) (for_each xs' body)
  end.

(** [str(n)] for an integer, also what an f-string prints for it. *)
Definition str (n : Z) : string := NilZero.string_of_int (Z.to_int n).

(** [sub in s] on strings. *)
Fixpoint contains (sub s : string) : bool :=
  String.prefix sub s ||
  match s with
  | EmptyString => false
  | String _ s' => contains sub s'
  end.

End Py.
Import Py.

Notation "x <- c ;; k" := (rbind c (fun x => k))
  (at level 61, c at next level, right associativity).

(* ------------------------------------------------------------------ *)
(** ** Paths ([pathlib.Path], POSIX flavour)

    A [Path] is kept in the normal form that [str] prints: the root (["/"],
    or ["//"] for exactly two leading slashes), then the components joined
    by single slashes, empty components and ["."] components dropped, and
    ["."] for the empty path.  Two paths are [==] when these strings are
    equal. *)

Module Path.

(** [s.split("/")] *)
Fixpoint split (s : string) : list string :=
  match s with
  | EmptyString => [EmptyString]
  | String c s' =>
      if Ascii.eqb c "/" then EmptyString :: split s'
      else
        match split s' with
        | x :: xs => String c x :: xs
        | [] => [String c EmptyString]
        end
  end.

(** ["/".join(parts)] *)
Fixpoint join (parts : list string) : string :=
  match parts with
  | [] => EmptyString
  | x :: parts' =>
      match parts' with
      | [] => x
      | _ :: _ => (x ++ String "/" (join parts'))%string
      end
  end.

(** The root of a path string. *)
Definition root (s : string) : string :=
  match s with
  | String c1 s1 =>
      if Ascii.eqb c1 "/" then
        match s1 with
        | String c2 s2 =>
            if Ascii.eqb c2 "/" then
              match s2 with
              | String c3 _ => if Ascii.eqb c3 "/" then "/" else "//"
              | EmptyString => "//"
              end
            else "/"
        | EmptyString => "/"
        end
      else EmptyString
  | EmptyString => EmptyString
  end.

(** [x and x != "."]: the components that are kept. *)
Definition is_part (x : string) : bool :=
  negb (String.eqb x "") && negb (String.eqb x ".").

Definition parts (s : string) : list string := filter is_part (split s).

(** [str(Path(s))] *)
Definition normalize (s : string) : string :=
  match root s, parts s with
  | EmptyString, [] => "."
  | r, ps => (r ++ join ps)%string
  end.

(** A path object: its string, which is in normal form. *)
Record t : Type := mk {
  str : string;
  normal : String.eqb (normalize str) str = true
}.

(** [Path(".")], also [Path("")]. *)
Definition dot : t := mk "." eq_refl.

(** [Path(s)].  Normalizing twice changes nothing ([normalize_idempotent]),
    so the second branch is never taken ([str_of_string]). *)
Definition of_string (s : string) : t :=
  let n := normalize s in
  match Sumbool.sumbool_of_bool (String.eqb (normalize n) n) with
  | left H => mk n H
  | right _ => dot
  end.

(** [p == q] *)
Definition eqb (a b : t) : bool := String.eqb (str a) (str b).

(** Used in the statements below: a string without a slash. *)
Definition slash_free (x : string) : bool :=
  forallb (fun c => negb (Ascii.eqb c "/")) (list_ascii_of_string x).

End Path.

(* ------------------------------------------------------------------ *)
(** ** Energy curve generator ([JourneyPlanner._generate_energy_curve]) *)

Module EnergyCurve.

(** Build phase of [gradual_build]: [energy = 4 + int((i / third) * 3)]. *)
Definition build_step (third : Z) (i : Z) (curve : list Z) : result (list Z) :=
  r <- truediv (inject_Z i) (inject_Z third) ;;
  let energy := 4 + int (r * 3) in
  Ok (curve ++ [energy]).

(** Descent phase of [gradual_build].  [len(curve)] is read again at every
    iteration, after the previous append:
    [energy = 7 - int((i / (num_tracks - len(curve))) * 2)]. *)
Definition descent_step (num_tracks : Z) (i : Z) (curve : list Z)
  : result (list Z) :=
  r <- truediv (inject_Z i) (inject_Z (num_tracks - len curve)) ;;
  let energy := 7 - int (r * 2) in
  Ok (curve ++ [Z.max energy 5]).

Definition gradual_build (num_tracks : Z) : result (list Z) :=
  let third := num_tracks / 3 in
  let curve := map (fun i => 2 + i mod 3) (range third) in
  curve <- for_each (range third) (build_step third) curve ;;
  curve <- for_each (range (num_tracks - len curve))
                    (descent_step num_tracks) curve ;;
  Ok (slice_to curve num_tracks).

(** Ramp of [peak_and_descent]: [energy = 2 + int((i / peak_at) * 6)]. *)
Definition ramp_step (peak_at : Z) (i : Z) (curve : list Z) : result (list Z) :=
  r <- truediv (inject_Z i) (inject_Z peak_at) ;;
  let energy := 2 + int (r * 6) in
  Ok (curve ++ [energy]).

(** Descent of [peak_and_descent]:
    [energy = 8 - int((i / (num_tracks - peak_at)) * 5)]. *)
Definition fall_step (num_tracks peak_at : Z) (i : Z) (curve : list Z)
  : result (list Z) :=
  r <- truediv (inject_Z i) (inject_Z (num_tracks - peak_at)) ;;
  let energy := 8 - int (r * 5) in
  Ok (curve ++ [Z.max energy 3]).

Definition peak_at_of (num_tracks : Z) : Z :=
  int (inject_Z num_tracks * (65 # 100)).

Definition peak_and_descent (num_tracks : Z) : result (list Z) :=
  let peak_at := peak_at_of num_tracks in
  let curve := [] in
  curve <- for_each (range peak_at) (ramp_step peak_at) curve ;;
  curve <- for_each (range (num_tracks - peak_at))
                    (fall_step num_tracks peak_at) curve ;;
  Ok (slice_to curve num_tracks).

Definition steady (num_tracks : Z) : list Z :=
  map (fun i => 5 + i mod 2) (range num_tracks).

Definition _generate_energy_curve (num_tracks : Z) (progression : string)
  : result (list Z) :=
  if String.eqb progression "gradual_build" then gradual_build num_tracks
  else if String.eqb progression "peak_and_descent" then
    peak_and_descent num_tracks
  else if String.eqb progression "steady" then Ok (steady num_tracks)
  else Ok (replicate 5 num_tracks).

End EnergyCurve.

(* ------------------------------------------------------------------ *)
(** ** Data model ([models.py]) *)

Inductive TextureType : Type :=
| ATMOSPHERIC | PERCUSSIVE | VOCAL | MELODIC | MINIMAL
| LAYERED | DUB | TRIBAL | HYPNOTIC | ORGANIC.

Inductive JourneyPosition : Type :=
| OPENER | WARM_UP | BUILDER | CORE | PEAK | BRIDGE | WIND_DOWN | CLOSER.

Inductive MusicalKey : Type :=
| A_MINOR | E_MINOR | B_MINOR | F_SHARP_MINOR | D_FLAT_MINOR | A_FLAT_MINOR
| E_FLAT_MINOR | B_FLAT_MINOR | F_MINOR | C_MINOR | G_MINOR | D_MINOR
| C_MAJOR | G_MAJOR | D_MAJOR | A_MAJOR | E_MAJOR | B_MAJOR
| F_SHARP_MAJOR | D_FLAT_MAJOR | A_FLAT_MAJOR | E_FLAT_MAJOR | B_FLAT_MAJOR
| F_MAJOR.

(** [MusicalKey.value]: the Camelot notation. *)
Definition value (k : MusicalKey) : string :=
  match k with
  | A_MINOR => "1A" | E_MINOR => "2A" | B_MINOR => "3A"
  | F_SHARP_MINOR => "4A" | D_FLAT_MINOR => "5A" | A_FLAT_MINOR => "6A"
  | E_FLAT_MINOR => "7A" | B_FLAT_MINOR => "8A" | F_MINOR => "9A"
  | C_MINOR => "10A" | G_MINOR => "11A" | D_MINOR => "12A"
  | C_MAJOR => "1B" | G_MAJOR => "2B" | D_MAJOR => "3B"
  | A_MAJOR => "4B" | E_MAJOR => "5B" | B_MAJOR => "6B"
  | F_SHARP_MAJOR => "7B" | D_FLAT_MAJOR => "8B" | A_FLAT_MAJOR => "9B"
  | E_FLAT_MAJOR => "10B" | B_FLAT_MAJOR => "11B" | F_MAJOR => "12B"
  end.

Definition TextureType_eq_dec (a b : TextureType) : {a = b} + {a <> b}.
Proof. decide equality. Defined.

Definition JourneyPosition_eq_dec (a b : JourneyPosition) : {a = b} + {a <> b}.
Proof. decide equality. Defined.

Definition MusicalKey_eq_dec (a b : MusicalKey) : {a = b} + {a <> b}.
Proof. decide equality. Defined.

Definition texture_eqb (a b : TextureType) : bool :=
  if TextureType_eq_dec a b then true else false.
Definition position_eqb (a b : JourneyPosition) : bool :=
  if JourneyPosition_eq_dec a b then true else false.
Definition key_eqb (a b : MusicalKey) : bool :=
  if MusicalKey_eq_dec a b then true else false.

(** [==] on optional values and on lists, given [==] on the elements. *)
Definition option_eqb {A} (eqb : A -> A -> bool) (a b : option A) : bool :=
  match a, b with
  | None, None => true
  | Some x, Some y => eqb x y
  | _, _ => false
  end.

Fixpoint list_eqb {A} (eqb : A -> A -> bool) (a b : list A) : bool :=
  match a, b with
  | [], [] => true
  | x :: a', y :: b' => eqb x y && list_eqb eqb a' b'
  | _, _ => false
  end.

(** Truthiness of an optional number: [None] and [0.0] are both false. *)
Definition truthy_num (x : option Q) : bool :=
  match x with
  | None => false
  | Some v => negb (Qeq_bool v 0)
  end.

(** Truthiness of an optional string: [None] and the empty string are false. *)
Definition truthy_str (x : option string) : bool :=
  match x with
  | None => false
  | Some EmptyString => false
  | Some _ => true
  end.

Definition nonempty {A} (l : list A) : bool :=
  match l with [] => false | _ :: _ => true end.

Module CuePoint.
Record t : Type := mk {
  time : Q;
  label : string;
  color : option string;
  confidence : Q
}.

Definition eqb (a b : t) : bool :=
  Qeq_bool (time a) (time b) && String.eqb (label a) (label b)
  && option_eqb String.eqb (color a) (color b)
  && Qeq_bool (confidence a) (confidence b).
End CuePoint.

Module TrackMetadata.
Record t : Type := mk {
  file_path : Path.t;
  title : string;
  artist : string;
  bpm : Q;
  key : option MusicalKey;
  duration : Q;
  energy_level : Z;
  textures : list TextureType;
  journey_position : option JourneyPosition;
  label : option string;
  genre : list string;
  intro_start : option Q;
  intro_end : option Q;
  outro_start : option Q;
  outro_end : option Q;
  cue_points : list CuePoint.t;
  num_beats : option Z;
  downbeats : list Q;
  year : option Z;
  tags : list string;
  notes : string
}.

(** The dataclass [__eq__]: field-wise comparison. *)
Definition eqb (a b : t) : bool :=
  Path.eqb (file_path a) (file_path b)
  && String.eqb (title a) (title b)
  && String.eqb (artist a) (artist b)
  && Qeq_bool (bpm a) (bpm b)
  && option_eqb key_eqb (key a) (key b)
  && Qeq_bool (duration a) (duration b)
  && Z.eqb (energy_level a) (energy_level b)
  && list_eqb texture_eqb (textures a) (textures b)
  && option_eqb position_eqb (journey_position a) (journey_position b)
  && option_eqb String.eqb (label a) (label b)
  && list_eqb String.eqb (genre a) (genre b)
  && option_eqb Qeq_bool (intro_start a) (intro_start b)
  && option_eqb Qeq_bool (intro_end a) (intro_end b)
  && option_eqb Qeq_bool (outro_start a) (outro_start b)
  && option_eqb Qeq_bool (outro_end a) (outro_end b)
  && list_eqb CuePoint.eqb (cue_points a) (cue_points b)
  && option_eqb Z.eqb (num_beats a) (num_beats b)
  && list_eqb Qeq_bool (downbeats a) (downbeats b)
  && option_eqb Z.eqb (year a) (year b)
  && list_eqb String.eqb (tags a) (tags b)
  && String.eqb (notes a) (notes b).
End TrackMetadata.
Abbreviation Track := TrackMetadata.t.

Module JourneyArc.
Record t : Type := mk {
  name : string;
  description : string;
  duration_minutes : Z;
  key_center : option MusicalKey;
  bpm_range : Q * Q;
  energy_curve : list Z;
  num_tracks : Z;
  required_textures : list TextureType;
  preferred_labels : list string;
  blend_duration : Z
}.
End JourneyArc.

Module Transition.
Record t : Type := mk {
  track_a : Track;
  track_b : Track;
  start_time_a : Q;
  start_time_b : Q;
  blend_duration : Z;
  bpm_compatible : bool;
  key_compatible : bool;
  energy_compatible : bool;
  texture_compatible : bool;
  strategy : string;
  notes : string
}.
End Transition.

Module Playlist.
Record t : Type := mk {
  name : string;
  journey_arc : JourneyArc.t;
  tracks : list Track;
  transitions : list Transition.t;
  total_duration : Q;
  created_at : option string
}.

(** [calculate_duration]: stores the total in the playlist. *)
Definition calculate_duration (self : t) : t :=
  match tracks self with
  | [] => self
  | first :: _ =>
      let total :=
        fold_left
          (fun total transition =>
             (total + (TrackMetadata.duration (Transition.track_b transition)
                       - inject_Z (Transition.blend_duration transition)))%Q)
          (transitions self) (TrackMetadata.duration first) in
      mk (name self) (journey_arc self) (tracks self) (transitions self)
         total (created_at self)
  end.
End Playlist.

(* ------------------------------------------------------------------ *)
(** ** Track library ([library.py]) *)

Module TrackLibrary.
Import TrackMetadata.

(** The library object: the primary list and the two dict indexes.  A dict
    is an association list in insertion order. *)
Record t : Type := mk {
  library_path : option string;
  tracks : list Track;
  tracks_by_key : list (MusicalKey * list Track);
  tracks_by_bpm : list (Z * list Track)
}.

Definition empty : t := mk None [] [] [].

(** [if k not in d: d[k] = []] followed by [d[k].append(v)]. *)
Fixpoint dict_append {K V} (eqb : K -> K -> bool) (k : K) (v : V)
  (d : list (K * list V)) : list (K * list V) :=
  match d with
  | [] => [(k, [v])]
  | (k', vs) :: d' =>
      if eqb k' k then (k', vs ++ [v]) :: d'
      else (k', vs) :: dict_append eqb k v d'
  end.

Definition add_track (self : t) (track : Track) : t :=
  let tracks' := tracks self ++ [track] in
  let by_key' :=
    match key track with
    | Some k => dict_append key_eqb k track (tracks_by_key self)
    | None => tracks_by_key self
    end in
  let bpm_int := int (bpm track) in
  let by_bpm' := dict_append Z.eqb bpm_int track (tracks_by_bpm self) in
  mk (library_path self) tracks' by_key' by_bpm'.

Definition of_tracks (l : list Track) : t := fold_left add_track l empty.

Definition find_tracks_by_bpm_range (self : t) (min_bpm max_bpm : Q)
  : list Track :=
  filter (fun t => Qle_bool min_bpm (bpm t) && Qle_bool (bpm t) max_bpm)
         (tracks self).

Definition find_tracks_by_energy (self : t) (energy : Z) (tolerance : Z)
  : list Track :=
  filter (fun t => Z.abs (energy_level t - energy) <=? tolerance)
         (tracks self).

(** [int(key.value[:-1])] and [key.value[-1]]. *)
Fixpoint split_last (s : string) : string * option ascii :=
  match s with
  | EmptyString => (EmptyString, None)
  | String c EmptyString => (EmptyString, Some c)
  | String c s' => let (h, l) := split_last s' in (String c h, l)
  end.

Definition digit_of (c : ascii) : Z := Z.of_nat (nat_of_ascii c) - 48.

Fixpoint int_of_digits (acc : Z) (s : string) : Z :=
  match s with
  | EmptyString => acc
  | String c s' => int_of_digits (10 * acc + digit_of c) s'
  end.

Definition camelot_number (k : MusicalKey) : Z :=
  int_of_digits 0 (fst (split_last (value k))).

Definition camelot_letter (k : MusicalKey) : option ascii :=
  snd (split_last (value k)).

Definition are_keys_compatible (key1 key2 : MusicalKey) : bool :=
  if key_eqb key1 key2 then true
  else
    let num1 := camelot_number key1 in
    let letter1 := camelot_letter key1 in
    let num2 := camelot_number key2 in
    let letter2 := camelot_letter key2 in
    if num1 =? num2 then true
    else if option_eqb Ascii.eqb letter1 letter2 then
      let diff := Z.abs (num1 - num2) in
      (diff =? 1) || (diff =? 11)
    else false.

(** The three tempo bands of [get_compatible_tracks], each
    [abs(bpm_ratio - c) <= bpm_tolerance / 100.0]. *)
Definition in_band (center : Q) (bpm_ratio bpm_tolerance : Q) : bool :=
  Qle_bool (Qabs (bpm_ratio - center)) (bpm_tolerance / 100).

Definition band_1_1 := in_band 1.
Definition band_2_1 := in_band 2.
Definition band_1_2 := in_band (1 # 2).

Definition bpm_ok (bpm_ratio bpm_tolerance : Q) : bool :=
  band_1_1 bpm_ratio bpm_tolerance
  || band_2_1 bpm_ratio bpm_tolerance
  || band_1_2 bpm_ratio bpm_tolerance.

(** One iteration of the loop of [get_compatible_tracks]. *)
Definition compatible_step (reference_track : Track) (bpm_tolerance : Q)
  (key_compatible_only : bool) (track : Track) (compatible : list Track)
  : result (list Track) :=
  if eqb track reference_track then Ok compatible
  else
    bpm_ratio <- truediv (bpm track) (bpm reference_track) ;;
    if negb (bpm_ok bpm_ratio bpm_tolerance) then Ok compatible
    else
      match key_compatible_only, key reference_track, key track with
      | true, Some kr, Some kt =>
          if negb (are_keys_compatible kr kt) then Ok compatible
          else Ok (compatible ++ [track])
      | _, _, _ => Ok (compatible ++ [track])
      end.

Definition get_compatible_tracks (self : t) (reference_track : Track)
  (bpm_tolerance : Q) (key_compatible_only : bool) : result (list Track) :=
  for_each (tracks self)
           (compatible_step reference_track bpm_tolerance key_compatible_only)
           [].

(** Used in the statements below: the test that the loop above applies to
    one track when the division succeeds. *)
Definition compatible_with (reference_track : Track) (bpm_tolerance : Q)
  (key_compatible_only : bool) (track : Track) : bool :=
  negb (eqb track reference_track)
  && bpm_ok (bpm track / bpm reference_track) bpm_tolerance
  && match key_compatible_only, key reference_track, key track with
     | true, Some kr, Some kt => are_keys_compatible kr kt
     | _, _, _ => true
     end.

End TrackLibrary.

(* ------------------------------------------------------------------ *)
(** ** The tempo test in binary64 ([library.py])

    Python computes [track.bpm / reference_track.bpm], the three differences
    and [bpm_tolerance / 100.0] in binary64, rounding each result to the
    nearest double, ties to even.  [TrackLibrary.in_band] above reads the
    test in exact arithmetic; here every operation is rounded, with the
    operations of the Standard Library's [SpecFloat].  A tempo kept as a
    fraction stands for the double of that value, the nearest one when the
    fraction is a decimal literal such as 127.2. *)

Module Binary64.
Import TrackMetadata.

Definition prec : Z := 53.
Definition emax : Z := 1024.

Definition float : Type := spec_float.

(** An integer as a float with that mantissa, before any rounding. *)
Definition raw (z : Z) : float :=
  match z with
  | Z0 => S754_zero false
  | Zpos m => S754_finite false m 0
  | Zneg m => S754_finite true m 0
  end.

(** The double nearest to a fraction, ties to even. *)
Definition of_Q (q : Q) : float :=
  SFdiv prec emax (raw (Qnum q)) (raw (Zpos (Qden q))).


Definition is_zero (x : float) : bool :=
  match x with S754_zero _ => true | _ => false end.

Definition truediv (a b : float) : result float :=
  if is_zero b then Raise ZeroDivisionError else Ok (SFdiv prec emax a b).

Definition in_band (center : Q) (bpm_ratio bpm_tolerance : float) : bool :=
  SFleb (SFabs (SFsub prec emax bpm_ratio (of_Q center)))
        (SFdiv prec emax bpm_tolerance (of_Q 100)).

Definition bpm_ok (bpm_ratio bpm_tolerance : float) : bool :=
  in_band 1 bpm_ratio bpm_tolerance
  || in_band 2 bpm_ratio bpm_tolerance
  || in_band (1 # 2) bpm_ratio bpm_tolerance.

(** One iteration of the loop of [get_compatible_tracks]. *)
Definition compatible_step (reference_track : Track) (bpm_tolerance : Q)
  (key_compatible_only : bool) (track : Track) (compatible : list Track)
  : result (list Track) :=
  if eqb track reference_track then Ok compatible
  else
    bpm_ratio <- truediv (of_Q (bpm track)) (of_Q (bpm reference_track)) ;;
    if negb (bpm_ok bpm_ratio (of_Q bpm_tolerance)) then Ok compatible
    else
      match key_compatible_only, key reference_track, key track with
      | true, Some kr, Some kt =>
          if negb (TrackLibrary.are_keys_compatible kr kt) then Ok compatible
          else Ok (compatible ++ [track])
      | _, _, _ => Ok (compatible ++ [track])
      end.

Definition get_compatible_tracks (self : TrackLibrary.t)
  (reference_track : Track) (bpm_tolerance : Q) (key_compatible_only : bool)
  : result (list Track) :=
  for_each (TrackLibrary.tracks self)
           (compatible_step reference_track bpm_tolerance key_compatible_only)
           [].


(** [int(x)] for a float: truncation towards zero; an infinity or a NaN
    has no integer. *)
Definition to_int (x : float) : option Z :=
  match x with
  | S754_zero _ => Some 0
  | S754_finite s m e =>
      let v := if 0 <=? e then Zpos m * 2 ^ e else Zpos m / 2 ^ (- e) in
      Some (if s then - v else v)
  | _ => None
  end.

(** The number of tracks computed by [create_journey_arc]:
    [int(duration_minutes / (6 - blend_duration / 60)) + 1], where the
    quotient of the two integers is rounded once. *)
Definition num_tracks (duration_minutes blend_duration : Z)
  : result (option Z) :=
  let overlap_minutes := of_Q (inject_Z blend_duration / 60) in
  per_track <- truediv (of_Q (inject_Z duration_minutes))
                       (SFsub prec emax (of_Q 6) overlap_minutes) ;;
  Ok (option_map (fun z => z + 1) (to_int per_track)).

(** Used in the statements below: the rounded track count for a blend of
    60 seconds is [duration // 5 + 1]. *)
Definition default_blend_count (duration_minutes : Z) : bool :=
  match num_tracks duration_minutes 60 with
  | Ok (Some k) => k =? duration_minutes / 5 + 1
  | _ => false
  end.

End Binary64.

(* ------------------------------------------------------------------ *)
(** ** Journey planner ([journey_planner.py]) *)

Module PlanM.
Import TrackMetadata.

(** What a planning call can read or change: the library object held by
    the planner, the state of the [random] module (the draws still to come)
    and the clock read by [datetime.now()]. *)
Record PlannerState : Type := mkState {
  library : TrackLibrary.t;
  rng : list nat;
  clock : string
}.

(** State-and-exception monad: a raised exception keeps the state reached. *)
Definition M (A : Type) : Type := PlannerState -> result A * PlannerState.

Definition mret {A} (a : A) : M A := fun s => (Ok a, s).

Definition mraise {A} (e : exn) : M A := fun s => (Raise e, s).

Definition mbind {A B} (c : M A) (k : A -> M B) : M B :=
  fun s =>
    match c s with
    | (Ok a, s') => k a s'
    | (Raise e, s') => (Raise e, s')
    end.

Definition lift {A} (r : result A) : M A := fun s => (r, s).

Definition get_library : M TrackLibrary.t := fun s => (Ok (library s), s).

(** [random.choice(seq)]: consumes one draw; [IndexError] on an empty list. *)
Definition choice {A} (seq : list A) : M A :=
  fun s =>
    match seq with
    | [] => (Raise IndexError, s)
    | x :: _ =>
        let r := hd O (rng s) in
        (Ok (nth (Nat.modulo r (List.length seq)) seq x),
         mkState (library s) (tl (rng s)) (clock s))
    end.

(** [datetime.now().isoformat()]. *)
Definition now_isoformat : M string := fun s => (Ok (clock s), s).

(** [self.library.add_track(track)]: the one operation on the state that
    writes the library.  No method of the planner calls it. *)
Definition add_track (track : Track) : M unit :=
  fun s =>
    (Ok tt, mkState (TrackLibrary.add_track (library s) track) (rng s)
              (clock s)).

(** Used in the statements below: a computation that leaves the library
    object as it found it, whether it returns or raises. *)
Definition frames_library {A} (c : M A) : Prop :=
  forall s, library (snd (c s)) = library s.

(** Used in the statements below: the exceptions other than the opener's
    [ValueError]. *)
Definition arithmetic_or_index (e : exn) : Prop :=
  e = ZeroDivisionError \/ e = IndexError.

(** Used in the statements below: a computation that raises nothing but
    exceptions satisfying [P]. *)
Definition raises_only {A} (P : exn -> Prop) (c : M A) : Prop :=
  forall s e s', c s = (Raise e, s') -> P e.

End PlanM.

Notation "x <~ c ;; k" := (PlanM.mbind c (fun x => k))
  (at level 61, c at next level, right associativity).

Module JourneyPlanner.
Import TrackMetadata PlanM.

Definition create_journey_arc (duration_minutes : Z)
  (key_center : option MusicalKey) (bpm_range : Q * Q)
  (energy_progression : string) (blend_duration : Z) : result JourneyArc.t :=
  let avg_track_minutes := 6%Q in
  overlap_minutes <- truediv (inject_Z blend_duration) 60 ;;
  per_track <- truediv (inject_Z duration_minutes)
                       (avg_track_minutes - overlap_minutes) ;;
  let num_tracks := int per_track + 1 in
  energy_curve <-
    EnergyCurve._generate_energy_curve num_tracks energy_progression ;;
  let required_textures := [ATMOSPHERIC; HYPNOTIC; DUB; MINIMAL] in
  let preferred_labels :=
    ["Lucidflow"; "Echocord"; "Styrax"; "MCDE"; "Ostgut Ton"; "Moodmusic"] in
  Ok (JourneyArc.mk
        ("Deep Space Journey - " ++ str duration_minutes ++ "min")%string
        ("A " ++ energy_progression
              ++ " journey through deep space house")%string
        duration_minutes key_center bpm_range energy_curve num_tracks
        required_textures preferred_labels blend_duration).

(** The pattern [xs = [t for t in candidates if p(t)]; if xs: candidates = xs]:
    a preference that is dropped when nothing matches. *)
Definition prefer (p : Track -> bool) (candidates : list Track) : list Track :=
  let matches := filter p candidates in
  if nonempty matches then matches else candidates.

Definition energy_near (target_energy : Z) (t : Track) : bool :=
  Z.abs (energy_level t - target_energy) <=? 1.

(** [t.key and are_keys_compatible(t.key, k)] *)
Definition key_matches (k : MusicalKey) (t : Track) : bool :=
  match key t with
  | Some kt => TrackLibrary.are_keys_compatible kt k
  | None => false
  end.

(** [t.label and any(lbl in t.label for lbl in preferred_labels)] *)
Definition label_matches (preferred_labels : list string) (t : Track) : bool :=
  match label t with
  | Some l =>
      truthy_str (Some l) && existsb (fun lbl => contains lbl l) preferred_labels
  | None => false
  end.

Definition has_texture (x : TextureType) (t : Track) : bool :=
  existsb (texture_eqb x) (textures t).

(** The candidates of [_select_opener] before the final random choice. *)
Definition opener_candidates (lib : TrackLibrary.t) (journey_arc : JourneyArc.t)
  (strict_key prefer_labels : bool) : list Track :=
  let target_energy :=
    match JourneyArc.energy_curve journey_arc with
    | e :: _ => e
    | [] => 2
    end in
  let candidates :=
    TrackLibrary.find_tracks_by_bpm_range lib
      (fst (JourneyArc.bpm_range journey_arc))
      (snd (JourneyArc.bpm_range journey_arc)) in
  let candidates := filter (energy_near target_energy) candidates in
  let candidates :=
    match strict_key, JourneyArc.key_center journey_arc with
    | true, Some kc =>
        filter (key_matches kc) candidates
    | _, _ => candidates
    end in
  let candidates :=
    prefer (fun t => option_eqb position_eqb (journey_position t) (Some OPENER))
           candidates in
  let candidates :=
    prefer (fun t => has_texture ATMOSPHERIC t || has_texture MINIMAL t)
           candidates in
  let candidates :=
    if prefer_labels && nonempty (JourneyArc.preferred_labels journey_arc)
    then prefer (label_matches (JourneyArc.preferred_labels journey_arc))
                candidates
    else candidates in
  candidates.

Definition _select_opener (journey_arc : JourneyArc.t)
  (strict_key prefer_labels : bool) : M (option Track) :=
  lib <~ get_library ;;
  let candidates := opener_candidates lib journey_arc strict_key prefer_labels in
  if nonempty candidates then
    t <~ choice candidates ;; mret (Some t)
  else mret None.

(** [len(set(a) & set(b))]: the number of distinct common elements. *)
Definition overlap (a b : list TextureType) : list TextureType :=
  nodup TextureType_eq_dec
        (filter (fun x => existsb (texture_eqb x) b) a).

(** The texture term of the score. *)
Definition texture_variety (current candidate : Track) : Z :=
  if nonempty (textures current) && nonempty (textures candidate) then
    if len (overlap (textures current) (textures candidate))
       <? len (textures current)
    then 10 else 0
  else 0.

Definition Qlt_bool (a b : Q) : bool := negb (Qle_bool b a).

(** All terms are whole numbers, so the float score is kept as an
    integer. *)
Definition _score_track_compatibility (current candidate : Track)
  (target_energy : Z) : Z :=
  let score := 50 in
  let energy_diff := Z.abs (energy_level candidate - target_energy) in
  let score :=
    if energy_diff =? 0 then score + 20 else score - energy_diff * 5 in
  let bpm_diff := Qabs (bpm current - bpm candidate) in
  let score :=
    if Qlt_bool bpm_diff 2 then score + 15
    else if Qlt_bool bpm_diff 4 then score + 10
    else if Qlt_bool bpm_diff 6 then score + 5
    else score in
  let score :=
    match key current, key candidate with
    | Some kc, Some kd =>
        if TrackLibrary.are_keys_compatible kc kd then score + 25 else score
    | _, _ => score
    end in
  let score := score + texture_variety current candidate in
  let score :=
    if String.eqb (artist current) (artist candidate) then score - 15
    else score in
  Z.max 0 score.

(** [scored.sort(key=lambda x: x[1], reverse=True)]: stable, descending. *)
Fixpoint insert_desc (x : Track * Z) (l : list (Track * Z)) : list (Track * Z) :=
  match l with
  | [] => [x]
  | y :: l' =>
      if snd x <? snd y then y :: insert_desc x l' else x :: y :: l'
  end.

Fixpoint sort_desc (l : list (Track * Z)) : list (Track * Z) :=
  match l with
  | [] => []
  | x :: l' => insert_desc x (sort_desc l')
  end.

(** The candidates of [_select_next_track] after the three hard filters
    (already used, energy, tempo range). *)
Definition successor_filter (journey_arc : JourneyArc.t) (target_energy : Z)
  (already_used : list Path.t) (t : Track) : bool :=
  negb (existsb (Path.eqb (file_path t)) already_used)
  && energy_near target_energy t
  && (Qle_bool (fst (JourneyArc.bpm_range journey_arc)) (bpm t)
      && Qle_bool (bpm t) (snd (JourneyArc.bpm_range journey_arc))).

Definition _select_next_track (current_track : Track) (target_energy : Z)
  (journey_arc : JourneyArc.t) (strict_key prefer_labels : bool)
  (already_used : list Path.t) : M (option Track) :=
  lib <~ get_library ;;
  candidates <~ lift (TrackLibrary.get_compatible_tracks
                        lib current_track 6 strict_key) ;;
  let candidates :=
    filter (fun t => negb (existsb (Path.eqb (file_path t)) already_used))
           candidates in
  let candidates := filter (energy_near target_energy) candidates in
  let candidates :=
    filter (fun t =>
              Qle_bool (fst (JourneyArc.bpm_range journey_arc)) (bpm t)
              && Qle_bool (bpm t) (snd (JourneyArc.bpm_range journey_arc)))
           candidates in
  if negb (nonempty candidates) then mret None
  else
    let candidates :=
      match key current_track with
      | Some kc =>
          prefer (fun t => match key t with
                           | Some kt => TrackLibrary.are_keys_compatible kc kt
                           | None => false
                           end) candidates
      | None => candidates
      end in
    let candidates :=
      if prefer_labels && nonempty (JourneyArc.preferred_labels journey_arc)
      then prefer (label_matches (JourneyArc.preferred_labels journey_arc))
                  candidates
      else candidates in
    let scored_candidates :=
      map (fun track =>
             (track,
              _score_track_compatibility current_track track target_energy))
          candidates in
    let scored_candidates := sort_desc scored_candidates in
    if len scored_candidates <=? 3 then
      match scored_candidates with
      | [] => mraise IndexError
      | (t, _) :: _ => mret (Some t)
      end
    else
      t <~ choice (map fst (firstn 3 scored_candidates)) ;; mret (Some t).

(** [max(0, x)]. *)
Definition max0 (x : Q) : Q := if Qlt_bool 0 x then x else 0%Q.

Definition _create_transition (track_a track_b : Track) (blend_duration : Z)
  : result Transition.t :=
  let start_time_a :=
    match outro_start track_a with
    | Some v =>
        if truthy_num (Some v) then v
        else max0 (duration track_a - inject_Z blend_duration)
    | None => max0 (duration track_a - inject_Z blend_duration)
    end in
  let start_time_b :=
    match intro_start track_b with
    | Some v => if truthy_num (Some v) then v else 0%Q
    | None => 0%Q
    end in
  bpm_ratio <- truediv (bpm track_a) (bpm track_b) ;;
  let bpm_compatible :=
    (Qle_bool (94 # 100) bpm_ratio && Qle_bool bpm_ratio (106 # 100))
    || (Qle_bool (188 # 100) bpm_ratio && Qle_bool bpm_ratio (212 # 100)) in
  let key_compatible :=
    match key track_a, key track_b with
    | Some ka, Some kb => TrackLibrary.are_keys_compatible ka kb
    | _, _ => true
    end in
  let energy_compatible :=
    Z.abs (energy_level track_a - energy_level track_b) <=? 2 in
  let texture_compatible :=
    if nonempty (textures track_a) && nonempty (textures track_b) then
      0 <? len (overlap (textures track_a) (textures track_b))
    else true in
  let strategy := "extended_blend" in
  let notes :=
    ("Blend from " ++ title track_a ++ " to " ++ title track_b ++ " over "
     ++ str blend_duration ++ "s")%string in
  let notes :=
    if negb bpm_compatible then (notes ++ " | BPM adjustment needed")%string
    else notes in
  let notes :=
    if key_compatible then (notes ++ " | Harmonic mix")%string else notes in
  Ok (Transition.mk track_a track_b start_time_a start_time_b blend_duration
        bpm_compatible key_compatible energy_compatible texture_compatible
        strategy notes).

(** The mutable locals of the loop of [generate_playlist]. *)
Record LoopState : Type := mkLoop {
  selected_tracks : list Track;
  transitions : list Transition.t;
  current_track : Track
}.

Definition target_energy_at (journey_arc : JourneyArc.t) (i : Z) : Z :=
  if i <? len (JourneyArc.energy_curve journey_arc)
  then nth (Z.to_nat i) (JourneyArc.energy_curve journey_arc) 5
  else 5.

(** One iteration of the loop; [None] is [break]. *)
Definition loop_body (journey_arc : JourneyArc.t)
  (strict_key prefer_labels : bool) (i : Z) (st : LoopState)
  : M (option LoopState) :=
  let target_energy := target_energy_at journey_arc i in
  next_track <~ _select_next_track (current_track st) target_energy
                  journey_arc strict_key prefer_labels
                  (map file_path (selected_tracks st)) ;;
  match next_track with
  | None => mret None
  | Some next_track =>
      transition <~ lift (_create_transition (current_track st) next_track
                            (JourneyArc.blend_duration journey_arc)) ;;
      mret (Some (mkLoop (selected_tracks st ++ [next_track])
                         (transitions st ++ [transition])
                         next_track))
  end.

Fixpoint select_loop (journey_arc : JourneyArc.t)
  (strict_key prefer_labels : bool) (indices : list Z) (st : LoopState)
  : M LoopState :=
  match indices with
  | [] => mret st
  | i :: indices' =>
      r <~ loop_body journey_arc strict_key prefer_labels i st ;;
      match r with
      | None => mret st
      | Some st' =>
          select_loop journey_arc strict_key prefer_labels indices' st'
      end
  end.

Definition no_opener : exn := ValueError "No suitable opener found in library".

Definition generate_playlist (journey_arc : JourneyArc.t)
  (strict_key prefer_labels : bool) : M Playlist.t :=
  first_track <~ _select_opener journey_arc strict_key prefer_labels ;;
  match first_track with
  | None => mraise no_opener
  | Some first_track =>
      st <~ select_loop journey_arc strict_key prefer_labels
              (range2 1 (JourneyArc.num_tracks journey_arc))
              (mkLoop [first_track] [] first_track) ;;
      created_at <~ now_isoformat ;;
      let playlist :=
        Playlist.mk (JourneyArc.name journey_arc) journey_arc
                    (selected_tracks st) (transitions st) 0 (Some created_at) in
      mret (Playlist.calculate_duration playlist)
  end.

End JourneyPlanner.

(* ------------------------------------------------------------------ *)
(** ** Definitions used by the statements *)

Module Run.
Import TrackMetadata PlanM JourneyPlanner.

(** The candidates of [_select_opener] after its two unconditional filters
    (tempo range, energy) and, under [strict_key] with a key centre, the key
    filter: the filters that are never reverted. *)
Definition mandatory_opener_candidates (lib : TrackLibrary.t)
  (journey_arc : JourneyArc.t) (strict_key : bool) : list Track :=
  let target_energy :=
    match JourneyArc.energy_curve journey_arc with
    | e :: _ => e
    | [] => 2
    end in
  let candidates :=
    filter (energy_near target_energy)
      (TrackLibrary.find_tracks_by_bpm_range lib
         (fst (JourneyArc.bpm_range journey_arc))
         (snd (JourneyArc.bpm_range journey_arc))) in
  match strict_key, JourneyArc.key_center journey_arc with
  | true, Some kc => filter (key_matches kc) candidates
  | _, _ => candidates
  end.

(** The tracks in the tempo range with energy within one level of the
    target: the first two filters of [_select_opener] alone. *)
Definition tempo_energy_candidates (lib : TrackLibrary.t)
  (journey_arc : JourneyArc.t) : list Track :=
  mandatory_opener_candidates lib journey_arc false.



End Run.

(* ------------------------------------------------------------------ *)
(** ** Sample tracks, arcs and libraries *)

Module Samples.

(** A track of six minutes with the fields the planner reads; every other
    field has its dataclass default. *)
Definition track (file_path artist : string) (bpm : Q)
  (key : option MusicalKey) (energy_level : Z) (textures : list TextureType)
  (outro_start : option Q) : Track :=
  TrackMetadata.mk (Path.of_string file_path) file_path artist bpm key 360
    energy_level
    textures None None [] None None outro_start None [] None [] None [] "".

Definition t120 : Track := track "a.wav" "A" 120 None 5 [] None.
Definition t240 : Track := track "b.wav" "B" 240 None 5 [] None.
Definition t128 : Track := track "c.wav" "C" 128 None 5 [] None.

Definition first : Track := track "1.wav" "X" 120 None 2 [ATMOSPHERIC] None.
Definition second : Track := track "2.wav" "Y" 121 None 3 [DUB] None.
Definition small_library : TrackLibrary.t :=
  TrackLibrary.of_tracks [first; second].

Definition in_3A : Track :=
  track "o.wav" "O" 120 (Some B_MINOR) 2 [ATMOSPHERIC] None.
Definition library_3A : TrackLibrary.t := TrackLibrary.of_tracks [in_3A].

Definition outro_at_zero : Track :=
  track "z.wav" "Z" 120 None 5 [] (Some 0%Q).

(** The arc built by [create_journey_arc(30, key_center)] with the default
    tempo range, progression and blend. *)
Definition arc (key_center : option MusicalKey) : JourneyArc.t :=
  JourneyArc.mk "Deep Space Journey - 30min"
    "A gradual_build journey through deep space house" 30 key_center
    (118%Q, 124%Q) [2; 3; 4; 5; 7; 6; 5] 7
    [ATMOSPHERIC; HYPNOTIC; DUB; MINIMAL]
    ["Lucidflow"; "Echocord"; "Styrax"; "MCDE"; "Ostgut Ton"; "Moodmusic"]
    60.

Definition state (lib : TrackLibrary.t) : PlanM.PlannerState :=
  PlanM.mkState lib [2%nat; 0%nat; 1%nat] "2024-01-01T00:00:00".

(** The planning call of the small library, and the playlist it returns. *)
Definition small_run : result Playlist.t * PlanM.PlannerState :=
  JourneyPlanner.generate_playlist (arc None) false true (state small_library).

Definition small_playlist : Playlist.t :=
  match fst small_run with
  | Ok p => p
  | Raise _ => Playlist.mk "" (arc None) [] [] 0 None
  end.

End Samples.

(* ------------------------------------------------------------------ *)
(** ** Track library: queries and enumerations ([library.py], [models.py]) *)

Module Queries.
Import TrackMetadata.

(** The members of [MusicalKey], in definition order ([for k in MusicalKey]). *)
Definition all_keys : list MusicalKey :=
  [A_MINOR; E_MINOR; B_MINOR; F_SHARP_MINOR; D_FLAT_MINOR; A_FLAT_MINOR;
   E_FLAT_MINOR; B_FLAT_MINOR; F_MINOR; C_MINOR; G_MINOR; D_MINOR;
   C_MAJOR; G_MAJOR; D_MAJOR; A_MAJOR; E_MAJOR; B_MAJOR;
   F_SHARP_MAJOR; D_FLAT_MAJOR; A_FLAT_MAJOR; E_FLAT_MAJOR; B_FLAT_MAJOR;
   F_MAJOR].

Definition all_textures : list TextureType :=
  [ATMOSPHERIC; PERCUSSIVE; VOCAL; MELODIC; MINIMAL;
   LAYERED; DUB; TRIBAL; HYPNOTIC; ORGANIC].

Definition all_positions : list JourneyPosition :=
  [OPENER; WARM_UP; BUILDER; CORE; PEAK; BRIDGE; WIND_DOWN; CLOSER].

(** [TextureType.value] and [JourneyPosition.value]. *)
Definition texture_value (x : TextureType) : string :=
  match x with
  | ATMOSPHERIC => "atmospheric" | PERCUSSIVE => "percussive"
  | VOCAL => "vocal" | MELODIC => "melodic" | MINIMAL => "minimal"
  | LAYERED => "layered" | DUB => "dub" | TRIBAL => "tribal"
  | HYPNOTIC => "hypnotic" | ORGANIC => "organic"
  end.

Definition position_value (x : JourneyPosition) : string :=
  match x with
  | OPENER => "opener" | WARM_UP => "warm_up" | BUILDER => "builder"
  | CORE => "core" | PEAK => "peak" | BRIDGE => "bridge"
  | WIND_DOWN => "wind_down" | CLOSER => "closer"
  end.

(** [d.get(k, default)] on a dict kept as an association list. *)
Fixpoint dict_get {K V} (eqb : K -> K -> bool) (k : K) (d : list (K * V))
  (default : V) : V :=
  match d with
  | [] => default
  | (k', v) :: d' => if eqb k' k then v else dict_get eqb k d' default
  end.

(** [k in d]. *)
Definition dict_mem {K V} (eqb : K -> K -> bool) (k : K) (d : list (K * V))
  : bool :=
  existsb (fun kv => eqb (fst kv) k) d.

Definition find_tracks_by_key (self : TrackLibrary.t) (k : MusicalKey)
  : list Track :=
  dict_get key_eqb k (TrackLibrary.tracks_by_key self) [].

Definition find_tracks_by_texture (self : TrackLibrary.t) (texture : TextureType)
  : list Track :=
  filter (fun t => existsb (texture_eqb texture) (textures t))
         (TrackLibrary.tracks self).

Definition find_tracks_by_journey_position (self : TrackLibrary.t)
  (position : JourneyPosition) : list Track :=
  filter (fun t => option_eqb position_eqb (journey_position t) (Some position))
         (TrackLibrary.tracks self).

(** The distance between two Camelot numbers around the wheel of twelve. *)
Definition wheel_distance (n1 n2 : Z) : Z :=
  Z.min ((n1 - n2) mod 12) ((n2 - n1) mod 12).

(** Used in the statements below: both indexes answer like a scan of the
    primary list. *)
Definition agrees (lib : TrackLibrary.t) : Prop :=
  (forall k, find_tracks_by_key lib k
             = filter (fun t => option_eqb key_eqb (key t) (Some k))
                      (TrackLibrary.tracks lib))
  /\ (forall b, dict_get Z.eqb b (TrackLibrary.tracks_by_bpm lib) []
                = filter (fun t => int (bpm t) =? b) (TrackLibrary.tracks lib)).

End Queries.

(* ------------------------------------------------------------------ *)
(** ** Serialization and persistence ([models.py], [library.py])

    [to_dict] and [from_dict] work on parsed JSON values.  The text layer
    ([json.dump], [json.load]) is taken as the identity on such values, and
    the file system as a map from paths to the parsed content of each
    file. *)

Module Persist.
Import TrackMetadata Queries.

(** What [json.load] returns and [json.dump] accepts.  A dict is an
    association list without repeated keys; a lookup takes the first
    entry. *)
#[warnings="-register-all"] Inductive json : Type :=
| JNull
| JBool (b : bool)
| JInt (z : Z)
| JFloat (q : Q)
| JStr (s : string)
| JList (l : list json)
| JDict (d : list (string * json)).

(** The outcomes other than a value.  [ValueError] carries the message,
    or for a failed enum lookup the name of the enum.  [Untyped] is not a
    Python exception: it marks a value that Python would store unchecked in
    a field although it is outside the field's annotated type, which the
    typed records here cannot hold. *)
Inductive error : Type :=
| KeyError (key : string)
| TypeError
| ValueError (what : string)
| Untyped (field : string).

Inductive outcome (A : Type) : Type :=
| Done (a : A)
| Fail (e : error).
Arguments Done {A} a.
Arguments Fail {A} e.

Definition obind {A B} (r : outcome A) (k : A -> outcome B) : outcome B :=
  match r with
  | Done a => k a
  | Fail e => Fail e
  end.

Fixpoint omap {A B} (f : A -> outcome B) (l : list A) : outcome (list B) :=
  match l with
  | [] => Done []
  | x :: l' =>
      obind (f x) (fun y => obind (omap f l') (fun ys => Done (y :: ys)))
  end.

(** [d.get(k)] *)
Fixpoint lookup (k : string) (d : list (string * json)) : option json :=
  match d with
  | [] => None
  | (k', v) :: d' => if String.eqb k' k then Some v else lookup k d'
  end.

(** [data[k]] on a parsed value: [TypeError] unless [data] is a dict,
    [KeyError] when the key is missing. *)
Definition item (data : json) (k : string) : outcome json :=
  match data with
  | JDict d =>
      match lookup k d with
      | Some v => Done v
      | None => Fail (KeyError k)
      end
  | _ => Fail TypeError
  end.

(** [data.get(k)] and [data.get(k, default)], for a dict [data]. *)
Definition get (d : list (string * json)) (k : string) : json :=
  match lookup k d with
  | Some v => v
  | None => JNull
  end.

Definition get_default (d : list (string * json)) (k : string) (default : json)
  : json :=
  match lookup k d with
  | Some v => v
  | None => default
  end.

(** Truthiness. *)
Definition truthy (j : json) : bool :=
  match j with
  | JNull => false
  | JBool b => b
  | JInt z => negb (z =? 0)
  | JFloat q => negb (Qeq_bool q 0)
  | JStr s => negb (String.eqb s "")
  | JList l => nonempty l
  | JDict d => nonempty d
  end.

(** [for x in j]: the items of a list, the characters of a string, the
    keys of a dict; anything else is not iterable. *)
Definition iter (j : json) : outcome (list json) :=
  match j with
  | JList l => Done l
  | JStr s => Done (map (fun c => JStr (String c "")) (list_ascii_of_string s))
  | JDict d => Done (map (fun kv => JStr (fst kv)) d)
  | _ => Fail TypeError
  end.

(** Typed views of a stored value. *)
Definition as_str (field : string) (j : json) : outcome string :=
  match j with JStr s => Done s | _ => Fail (Untyped field) end.

Definition as_num (field : string) (j : json) : outcome Q :=
  match j with
  | JFloat q => Done q
  | JInt z => Done (inject_Z z)
  | _ => Fail (Untyped field)
  end.

Definition as_int (field : string) (j : json) : outcome Z :=
  match j with JInt z => Done z | _ => Fail (Untyped field) end.

Definition as_opt {A} (view : string -> json -> outcome A) (field : string)
  (j : json) : outcome (option A) :=
  match j with
  | JNull => Done None
  | _ => obind (view field j) (fun v => Done (Some v))
  end.

Definition as_list {A} (view : string -> json -> outcome A) (field : string)
  (j : json) : outcome (list A) :=
  match j with
  | JList l => omap (view field) l
  | _ => Fail (Untyped field)
  end.

(** [MusicalKey(v)], [TextureType(v)], [JourneyPosition(v)]: the member
    with that value. *)
Definition enum_of_value {E} (name : string) (value : E -> string)
  (members : list E) (v : json) : outcome E :=
  match v with
  | JStr s =>
      match find (fun m => String.eqb (value m) s) members with
      | Some m => Done m
      | None => Fail (ValueError name)
      end
  | _ => Fail (ValueError name)
  end.

Definition MusicalKey_of := enum_of_value "MusicalKey" value all_keys.
Definition TextureType_of :=
  enum_of_value "TextureType" texture_value all_textures.
Definition JourneyPosition_of :=
  enum_of_value "JourneyPosition" position_value all_positions.

Definition json_opt {A} (f : A -> json) (x : option A) : json :=
  match x with Some v => f v | None => JNull end.

(** The dict written for one cue point by [TrackMetadata.to_dict]. *)
Definition cue_to_dict (cp : CuePoint.t) : json :=
  JDict [("time", JFloat (CuePoint.time cp));
         ("label", JStr (CuePoint.label cp));
         ("color", json_opt JStr (CuePoint.color cp));
         ("confidence", JFloat (CuePoint.confidence cp))].

Definition to_dict (self : Track) : json :=
  JDict
    [("file_path", JStr (Path.str (file_path self)));
     ("title", JStr (title self));
     ("artist", JStr (artist self));
     ("bpm", JFloat (bpm self));
     ("key", json_opt (fun k => JStr (value k)) (key self));
     ("duration", JFloat (duration self));
     ("energy_level", JInt (energy_level self));
     ("textures", JList (map (fun t => JStr (texture_value t)) (textures self)));
     ("journey_position",
      json_opt (fun p => JStr (position_value p)) (journey_position self));
     ("label", json_opt JStr (label self));
     ("genre", JList (map JStr (genre self)));
     ("intro_start", json_opt JFloat (intro_start self));
     ("intro_end", json_opt JFloat (intro_end self));
     ("outro_start", json_opt JFloat (outro_start self));
     ("outro_end", json_opt JFloat (outro_end self));
     ("cue_points", JList (map cue_to_dict (cue_points self)));
     ("num_beats", json_opt JInt (num_beats self));
     ("downbeats", JList (map JFloat (downbeats self)));
     ("year", json_opt JInt (year self));
     ("tags", JList (map JStr (tags self)));
     ("notes", JStr (notes self))].

(** [CuePoint] called with the dict [cp] unpacked as keyword arguments:
    [cp] must be a mapping whose keys are field names and which gives the
    two fields without default. *)
Definition cue_of_dict (cp : json) : outcome CuePoint.t :=
  match cp with
  | JDict d =>
      if forallb (fun kv =>
                    existsb (String.eqb (fst kv))
                            ["time"; "label"; "color"; "confidence"]) d
      then
        match lookup "time" d, lookup "label" d with
        | Some time, Some label =>
            obind (as_num "time" time) (fun time =>
            obind (as_str "label" label) (fun label =>
            obind (as_opt as_str "color" (get d "color")) (fun color =>
            obind (as_num "confidence"
                     (get_default d "confidence" (JFloat 1))) (fun confidence =>
            Done (CuePoint.mk time label color confidence)))))
        | _, _ => Fail TypeError
        end
      else Fail TypeError
  | _ => Fail TypeError
  end.

(** [X(data[k]) if data.get(k) else None] for an enum [X]. *)
Definition enum_if_truthy {E} (of_value : json -> outcome E)
  (d : list (string * json)) (k : string) : outcome (option E) :=
  if truthy (get d k)
  then obind (of_value (get d k)) (fun m => Done (Some m))
  else Done None.

Definition from_dict (data : json) : outcome Track :=
  obind (item data "file_path") (fun fp =>
  match fp, data with
  | JStr file_path, JDict d =>
      obind (item data "title") (fun v =>
      obind (as_str "title" v) (fun title =>
      obind (item data "artist") (fun v =>
      obind (as_str "artist" v) (fun artist =>
      obind (item data "bpm") (fun v =>
      obind (as_num "bpm" v) (fun bpm =>
      obind (enum_if_truthy MusicalKey_of d "key") (fun key =>
      obind (as_num "duration" (get_default d "duration" (JFloat 0)))
            (fun duration =>
      obind (as_int "energy_level" (get_default d "energy_level" (JInt 5)))
            (fun energy_level =>
      obind (iter (get_default d "textures" (JList []))) (fun ts =>
      obind (omap TextureType_of ts) (fun textures =>
      obind (enum_if_truthy JourneyPosition_of d "journey_position")
            (fun journey_position =>
      obind (as_opt as_str "label" (get d "label")) (fun label =>
      obind (as_list as_str "genre" (get_default d "genre" (JList [])))
            (fun genre =>
      obind (as_opt as_num "intro_start" (get d "intro_start"))
            (fun intro_start =>
      obind (as_opt as_num "intro_end" (get d "intro_end")) (fun intro_end =>
      obind (as_opt as_num "outro_start" (get d "outro_start"))
            (fun outro_start =>
      obind (as_opt as_num "outro_end" (get d "outro_end")) (fun outro_end =>
      obind (iter (get_default d "cue_points" (JList []))) (fun cps =>
      obind (omap cue_of_dict cps) (fun cue_points =>
      obind (as_opt as_int "num_beats" (get d "num_beats")) (fun num_beats =>
      obind (as_list as_num "downbeats"
               (get_default d "downbeats" (JList []))) (fun downbeats =>
      obind (as_opt as_int "year" (get d "year")) (fun year =>
      obind (as_list as_str "tags" (get_default d "tags" (JList [])))
            (fun tags =>
      obind (as_str "notes" (get_default d "notes" (JStr ""))) (fun notes =>
      Done (TrackMetadata.mk (Path.of_string file_path) title artist bpm key
              duration energy_level textures journey_position label genre
              intro_start intro_end outro_start outro_end cue_points num_beats
              downbeats year tags notes))))))))))))))))))))))))))
  | _, _ => Fail TypeError
  end).

(** The files of JSON documents, by path, each with its parsed content. *)
Definition files : Type := list (string * json).

Definition read (path : string) (fs : files) : option json := lookup path fs.

Definition write (path : string) (data : json) (fs : files) : files :=
  (path, data) :: fs.

(** [file_path or self.library_path] *)
Definition path_or (file_path : option string) (self : TrackLibrary.t)
  : option string :=
  match file_path with
  | Some p => Some p
  | None => TrackLibrary.library_path self
  end.

Definition save (self : TrackLibrary.t) (file_path : option string)
  (fs : files) : outcome files :=
  match path_or file_path self with
  | None => Fail (ValueError "No library path specified")
  | Some path =>
      let data :=
        JDict [("tracks", JList (map to_dict (TrackLibrary.tracks self)));
               ("version", JStr "0.1.0")] in
      Done (write path data fs)
  end.

(** The loop of [load] that rebuilds both indexes. *)
Definition index_track (indices : list (MusicalKey * list Track)
                                  * list (Z * list Track)) (track : Track)
  : list (MusicalKey * list Track) * list (Z * list Track) :=
  let by_key :=
    match key track with
    | Some k => TrackLibrary.dict_append key_eqb k track (fst indices)
    | None => fst indices
    end in
  let bpm_int := int (bpm track) in
  (by_key, TrackLibrary.dict_append Z.eqb bpm_int track (snd indices)).

Definition load (self : TrackLibrary.t) (file_path : option string)
  (fs : files) : outcome TrackLibrary.t :=
  match path_or file_path self with
  | None => Fail (ValueError "Library file not found: None")
  | Some path =>
      match read path fs with
      | None => Fail (ValueError ("Library file not found: " ++ path))
      | Some data =>
          obind (item data "tracks") (fun ts =>
          obind (iter ts) (fun ts =>
          obind (omap from_dict ts) (fun tracks =>
          let indices := fold_left index_track tracks ([], []) in
          Done (TrackLibrary.mk (TrackLibrary.library_path self) tracks
                  (fst indices) (snd indices)))))
      end
  end.

(** [TrackLibrary(library_path)] *)
Definition init (library_path : option string) (fs : files)
  : outcome TrackLibrary.t :=
  let self := TrackLibrary.mk library_path [] [] [] in
  match library_path with
  | Some path =>
      match read path fs with
      | Some _ => load self None fs
      | None => Done self
      end
  | None => Done self
  end.

End Persist.

(* ------------------------------------------------------------------ *)
(** ** Further sample tracks *)

Module MoreSamples.

(** Two tracks in the same key and at the same tempo, by different
    artists, with different textures. *)
Definition deep_a : Track :=
  Samples.track "da.wav" "P" 122 (Some B_FLAT_MINOR) 5 [ATMOSPHERIC; DUB] None.
Definition deep_b : Track :=
  Samples.track "db.wav" "Q" 122 (Some B_FLAT_MINOR) 5 [DUB] None.

(** A dub track tagged as an opener, next to the untagged atmospheric
    [Samples.first]. *)
Definition tagged_opener : Track :=
  TrackMetadata.mk (Path.of_string "t.wav") "t.wav" "T" 121 None 360 2 [DUB]
    (Some OPENER) None [] None None None None [] None [] None [] "".

Definition opener_library : TrackLibrary.t :=
  TrackLibrary.of_tracks [Samples.first; tagged_opener].






End MoreSamples.

(* ------------------------------------------------------------------ *)
(** ** Definitions used by the statements on returned playlists *)

Module Journey.
Import TrackMetadata PlanM JourneyPlanner.

(** The pairs of neighbours of a list, in order. *)
Fixpoint adjacent {A} (l : list A) : list (A * A) :=
  match l with
  | a :: (b :: _) as l' => (a, b) :: adjacent l'
  | _ => []
  end.

(** The target energy of the opener: the first value of the curve, or 2. *)
Definition opener_target (journey_arc : JourneyArc.t) : Z :=
  match JourneyArc.energy_curve journey_arc with
  | e :: _ => e
  | [] => 2
  end.

Definition in_tempo_range (journey_arc : JourneyArc.t) (t : Track) : bool :=
  Qle_bool (fst (JourneyArc.bpm_range journey_arc)) (bpm t)
  && Qle_bool (bpm t) (snd (JourneyArc.bpm_range journey_arc)).

(** A track fit for position [i >= 1] of the arc: energy within one level
    of the target of that position, tempo inside the arc's range. *)
Definition on_curve (journey_arc : JourneyArc.t) (i : Z) (t : Track) : bool :=
  energy_near (target_energy_at journey_arc i) t
  && in_tempo_range journey_arc t.

(** The store's test between a track and its successor. *)
Definition linked (strict_key : bool) (ab : Track * Track) : Prop :=
  ~ (bpm (fst ab) == 0)%Q
  /\ TrackLibrary.compatible_with (fst ab) 6 strict_key (snd ab) = true.

(** The sum of the durations of a list of tracks. *)
Definition total_length (l : list Track) : Q :=
  fold_right Qplus 0%Q (map duration l).

(** The candidates of a successor search after the hard filters and the
    two preferences (compatible key, preferred label), given the tracks
    returned by the store. *)
Definition narrowed (journey_arc : JourneyArc.t) (prefer_labels : bool)
  (current_track : Track) (target_energy : Z) (already_used : list Path.t)
  (compatible : list Track) : list Track :=
  let candidates :=
    filter (successor_filter journey_arc target_energy already_used)
           compatible in
  let candidates :=
    match key current_track with
    | Some kc =>
        prefer (fun t => match key t with
                         | Some kt => TrackLibrary.are_keys_compatible kc kt
                         | None => false
                         end) candidates
    | None => candidates
    end in
  if prefer_labels && nonempty (JourneyArc.preferred_labels journey_arc)
  then prefer (label_matches (JourneyArc.preferred_labels journey_arc))
              candidates
  else candidates.


(** What holds of the locals of the loop of [generate_playlist] before each
    iteration, [indices] being the indices still to visit. *)
Definition invariant (lib : TrackLibrary.t) (journey_arc : JourneyArc.t)
  (strict_key : bool) (first : Track) (indices : list Z) (st : LoopState)
  : Prop :=
  indices = range_from (len (selected_tracks st)) (List.length indices)
  /\ (List.length (selected_tracks st) + List.length indices
      = Z.to_nat (Z.max 1 (JourneyArc.num_tracks journey_arc)))%nat
  /\ (exists rest, selected_tracks st = first :: rest)
  /\ current_track st = last (selected_tracks st) first
  /\ Forall (fun t => In t (TrackLibrary.tracks lib)) (selected_tracks st)
  /\ NoDup (map file_path (selected_tracks st))
  /\ (forall j t, (0 < j)%nat -> nth_error (selected_tracks st) j = Some t ->
                  on_curve journey_arc (Z.of_nat j) t = true)
  /\ Forall (linked strict_key) (adjacent (selected_tracks st))
  /\ map (fun ab => _create_transition (fst ab) (snd ab)
                      (JourneyArc.blend_duration journey_arc))
         (adjacent (selected_tracks st))
     = map Ok (transitions st).

End Journey.

(* ------------------------------------------------------------------ *)
(** ** Objects held by reference

    The definitions above pass tracks and lists as values.  Python passes
    references: the tracks of the library, of a candidate list, of a
    transition and of a playlist are the same objects, and [append], [sort]
    and attribute assignment change an object for everyone who holds it.
    Here objects live in a heap, a reference is an address, and the methods
    of the store and of the planner are written again over references, each
    list built by the code being an object of its own.  A [TrackMetadata]
    object is kept with the current value of all its fields, its list-valued
    fields included. *)

Module Heap.

Definition ref : Type := nat.

(** What the lists of this program hold. *)
Inductive item : Type :=
| Obj (r : ref)
| Scored (track : ref) (score : Z)
| PathItem (p : Path.t).

(** A [Transition] object; its two tracks are references. *)
Record transition : Type := mkTransition {
  track_a : ref;
  track_b : ref;
  start_time_a : Q;
  start_time_b : Q;
  blend_duration : Z;
  bpm_compatible : bool;
  key_compatible : bool;
  energy_compatible : bool;
  texture_compatible : bool;
  strategy : string;
  notes : string
}.

(** A [Playlist] object; [tracks] and [transitions] are list objects. *)
Record playlist : Type := mkPlaylist {
  name : string;
  journey_arc : JourneyArc.t;
  tracks : ref;
  transitions : ref;
  total_duration : Q;
  created_at : option string
}.

Inductive cell : Type :=
| TrackCell (t : Track)
| ListCell (items : list item)
| KeyDictCell (d : list (MusicalKey * ref))
| BpmDictCell (d : list (Z * ref))
| LibraryCell (library_path : option string)
    (tracks tracks_by_key tracks_by_bpm : ref)
| TransitionCell (t : transition)
| PlaylistCell (p : playlist).

(** The objects, the address of an object being its position; the draws
    still to come from [random]; the clock. *)
Record State : Type := mkState {
  heap : list cell;
  rng : list nat;
  clock : string
}.

(** [Wrong] is no Python outcome: it marks a reference that is dangling or
    leads to an object of another class than the code expects there. *)
Inductive outcome (A : Type) : Type :=
| Return (a : A)
| Raised (e : exn)
| Wrong.
Arguments Return {A} a.
Arguments Raised {A} e.
Arguments Wrong {A}.

Definition M (A : Type) : Type := State -> outcome A * State.

Definition ret {A} (a : A) : M A := fun s => (Return a, s).
Definition raise {A} (e : exn) : M A := fun s => (Raised e, s).
Definition wrong {A} : M A := fun s => (Wrong, s).

Definition bind {A B} (c : M A) (k : A -> M B) : M B :=
  fun s =>
    match c s with
    | (Return a, s') => k a s'
    | (Raised e, s') => (Raised e, s')
    | (Wrong, s') => (Wrong, s')
    end.

Definition lift {A} (r : result A) : M A :=
  match r with
  | Ok a => ret a
  | Raise e => raise e
  end.

(** A new object, at the first free address. *)
Definition alloc (c : cell) : M ref :=
  fun s =>
    (Return (List.length (heap s)),
     mkState (heap s ++ [c]) (rng s) (clock s)).

Definition read (r : ref) : M cell :=
  fun s =>
    match nth_error (heap s) r with
    | Some c => (Return c, s)
    | None => (Wrong, s)
    end.

(** The heap with the object at [r] replaced. *)
Definition update (r : ref) (c : cell) (h : list cell) : list cell :=
  firstn r h ++ c :: skipn (S r) h.

Definition write (r : ref) (c : cell) : M unit :=
  fun s =>
    if (r <? List.length (heap s))%nat
    then (Return tt, mkState (update r c (heap s)) (rng s) (clock s))
    else (Wrong, s).

(** [datetime.now().isoformat()] *)
Definition now_isoformat : M string := fun s => (Return (clock s), s).

(** [for x in xs: body(x)] *)
Fixpoint for_each {X} (xs : list X) (body : X -> M unit) : M unit :=
  match xs with
  | [] => ret tt
  | x :: xs' => bind (body x) (fun _ => for_each xs' body)
  end.

End Heap.

Notation "x <~~ c ;; k" := (Heap.bind c (fun x => k))
  (at level 61, c at next level, right associativity).

Module OnHeap.
Import TrackMetadata Heap.

(** The fields of the track object at [r]. *)
Definition get_track (r : ref) : M Track :=
  c <~~ read r ;;
  match c with
  | TrackCell t => ret t
  | _ => wrong
  end.

(** The items of the list object at [r]. *)
Definition get_list (r : ref) : M (list item) :=
  c <~~ read r ;;
  match c with
  | ListCell items => ret items
  | _ => wrong
  end.

Definition as_ref (x : item) : M ref :=
  match x with
  | Obj r => ret r
  | _ => wrong
  end.

(** [lst.append(x)] *)
Definition append (lst : ref) (x : item) : M unit :=
  items <~~ get_list lst ;;
  write lst (ListCell (items ++ [x])).

(** [[emit(x) for x in src if keep(x)]]: a new list, filled by appending.
    No loop of this program changes the list it runs over, so the items of
    [src] are read once. *)
Definition comprehension (src : ref) (keep : item -> M bool)
  (emit : item -> M item) : M ref :=
  result <~~ alloc (ListCell []) ;;
  items <~~ get_list src ;;
  _ <~~ for_each items (fun x =>
          b <~~ keep x ;;
          if b then y <~~ emit x ;; append result y else ret tt) ;;
  ret result.

(** [[t for t in src if p(t)]] for a test that reads the fields of [t]. *)
Definition filtered (src : ref) (p : Track -> bool) : M ref :=
  comprehension src (fun x => r <~~ as_ref x ;; t <~~ get_track r ;; ret (p t))
                ret.

(** [xs = [t for t in candidates if p(t)]; if xs: candidates = xs] *)
Definition prefer (p : Track -> bool) (candidates : ref) : M ref :=
  matches <~~ filtered candidates p ;;
  items <~~ get_list matches ;;
  ret (if nonempty items then matches else candidates).

(** [random.choice(seq)] *)
Definition choice (seq : ref) : M item :=
  items <~~ get_list seq ;;
  fun s =>
    match items with
    | [] => (Raised IndexError, s)
    | x :: _ =>
        let r := hd O (rng s) in
        (Return (nth (Nat.modulo r (List.length items)) items x),
         mkState (heap s) (tl (rng s)) (clock s))
    end.

(** *** [TrackLibrary] *)

(** [TrackLibrary()] *)
Definition init : M ref :=
  tracks <~~ alloc (ListCell []) ;;
  tracks_by_key <~~ alloc (KeyDictCell []) ;;
  tracks_by_bpm <~~ alloc (BpmDictCell []) ;;
  alloc (LibraryCell None tracks tracks_by_key tracks_by_bpm).

(** [self.tracks], [self.tracks_by_key], [self.tracks_by_bpm] *)
Definition self_tracks (self : ref) : M ref :=
  c <~~ read self ;;
  match c with
  | LibraryCell _ tracks _ _ => ret tracks
  | _ => wrong
  end.

Definition self_tracks_by_key (self : ref) : M ref :=
  c <~~ read self ;;
  match c with
  | LibraryCell _ _ by_key _ => ret by_key
  | _ => wrong
  end.

Definition self_tracks_by_bpm (self : ref) : M ref :=
  c <~~ read self ;;
  match c with
  | LibraryCell _ _ _ by_bpm => ret by_bpm
  | _ => wrong
  end.

(** [if k not in d: d[k] = []] followed by [d[k].append(track)], for the
    by-key index. *)
Definition index_by_key (by_key : ref) (k : MusicalKey) (track : ref)
  : M unit :=
  c <~~ read by_key ;;
  match c with
  | KeyDictCell d =>
      match find (fun kv => key_eqb (fst kv) k) d with
      | Some (_, lst) => append lst (Obj track)
      | None =>
          lst <~~ alloc (ListCell []) ;;
          _ <~~ write by_key (KeyDictCell (d ++ [(k, lst)])) ;;
          append lst (Obj track)
      end
  | _ => wrong
  end.

(** The same for the by-BPM index. *)
Definition index_by_bpm (by_bpm : ref) (k : Z) (track : ref) : M unit :=
  c <~~ read by_bpm ;;
  match c with
  | BpmDictCell d =>
      match find (fun kv => Z.eqb (fst kv) k) d with
      | Some (_, lst) => append lst (Obj track)
      | None =>
          lst <~~ alloc (ListCell []) ;;
          _ <~~ write by_bpm (BpmDictCell (d ++ [(k, lst)])) ;;
          append lst (Obj track)
      end
  | _ => wrong
  end.

Definition add_track (self : ref) (track : ref) : M unit :=
  tracks <~~ self_tracks self ;;
  _ <~~ append tracks (Obj track) ;;
  t <~~ get_track track ;;
  _ <~~ match key t with
        | Some k =>
            by_key <~~ self_tracks_by_key self ;;
            index_by_key by_key k track
        | None => ret tt
        end ;;
  let bpm_int := int (bpm t) in
  by_bpm <~~ self_tracks_by_bpm self ;;
  index_by_bpm by_bpm bpm_int track.

Definition find_tracks_by_bpm_range (self : ref) (min_bpm max_bpm : Q)
  : M ref :=
  tracks <~~ self_tracks self ;;
  filtered tracks
    (fun t => Qle_bool min_bpm (bpm t) && Qle_bool (bpm t) max_bpm).

(** One iteration of the loop of [get_compatible_tracks]. *)
Definition compatible_step (reference_track : ref) (bpm_tolerance : Q)
  (key_compatible_only : bool) (compatible : ref) (x : item) : M unit :=
  r <~~ as_ref x ;;
  track <~~ get_track r ;;
  reference <~~ get_track reference_track ;;
  if eqb track reference then ret tt
  else
    bpm_ratio <~~ lift (truediv (bpm track) (bpm reference)) ;;
    if negb (TrackLibrary.bpm_ok bpm_ratio bpm_tolerance) then ret tt
    else
      match key_compatible_only, key reference, key track with
      | true, Some kr, Some kt =>
          if negb (TrackLibrary.are_keys_compatible kr kt) then ret tt
          else append compatible x
      | _, _, _ => append compatible x
      end.

Definition get_compatible_tracks (self : ref) (reference_track : ref)
  (bpm_tolerance : Q) (key_compatible_only : bool) : M ref :=
  compatible <~~ alloc (ListCell []) ;;
  tracks <~~ self_tracks self ;;
  items <~~ get_list tracks ;;
  _ <~~ for_each items
          (compatible_step reference_track bpm_tolerance key_compatible_only
             compatible) ;;
  ret compatible.

(** *** [JourneyPlanner], holding the library object [library] *)

Definition _select_opener (library : ref) (journey_arc : JourneyArc.t)
  (strict_key prefer_labels : bool) : M (option ref) :=
  let target_energy :=
    match JourneyArc.energy_curve journey_arc with
    | e :: _ => e
    | [] => 2
    end in
  candidates <~~ find_tracks_by_bpm_range library
                   (fst (JourneyArc.bpm_range journey_arc))
                   (snd (JourneyArc.bpm_range journey_arc)) ;;
  candidates <~~ filtered candidates
                   (JourneyPlanner.energy_near target_energy) ;;
  candidates <~~ match strict_key, JourneyArc.key_center journey_arc with
                 | true, Some kc =>
                     filtered candidates (JourneyPlanner.key_matches kc)
                 | _, _ => ret candidates
                 end ;;
  candidates <~~ prefer
                   (fun t => option_eqb position_eqb (journey_position t)
                                        (Some OPENER))
                   candidates ;;
  candidates <~~ prefer
                   (fun t => JourneyPlanner.has_texture ATMOSPHERIC t
                             || JourneyPlanner.has_texture MINIMAL t)
                   candidates ;;
  candidates <~~ (if prefer_labels
                     && nonempty (JourneyArc.preferred_labels journey_arc)
                  then prefer (JourneyPlanner.label_matches
                                 (JourneyArc.preferred_labels journey_arc))
                              candidates
                  else ret candidates) ;;
  items <~~ get_list candidates ;;
  if nonempty items then
    x <~~ choice candidates ;; r <~~ as_ref x ;; ret (Some r)
  else ret None.

(** [t.file_path not in already_used] *)
Definition unused (already_used : ref) (x : item) : M bool :=
  r <~~ as_ref x ;;
  t <~~ get_track r ;;
  used <~~ get_list already_used ;;
  ret (negb (existsb (fun y => match y with
                               | PathItem p => Path.eqb (file_path t) p
                               | _ => false
                               end) used)).

(** [scored.sort(key=lambda x: x[1], reverse=True)] on the items. *)
Definition score_of (x : item) : Z :=
  match x with
  | Scored _ score => score
  | _ => 0
  end.

Fixpoint insert_desc (x : item) (l : list item) : list item :=
  match l with
  | [] => [x]
  | y :: l' =>
      if score_of x <? score_of y then y :: insert_desc x l' else x :: y :: l'
  end.

Fixpoint sort_desc (l : list item) : list item :=
  match l with
  | [] => []
  | x :: l' => insert_desc x (sort_desc l')
  end.

(** [lst.sort(...)]: the list object is sorted in place. *)
Definition sort (lst : ref) : M unit :=
  items <~~ get_list lst ;;
  write lst (ListCell (sort_desc items)).

(** [t] of a tuple [(t, s)] *)
Definition scored_track (x : item) : M ref :=
  match x with
  | Scored t _ => ret t
  | _ => wrong
  end.

Definition _select_next_track (library : ref) (current_track : ref)
  (target_energy : Z) (journey_arc : JourneyArc.t)
  (strict_key prefer_labels : bool) (already_used : ref) : M (option ref) :=
  candidates <~~ get_compatible_tracks library current_track 6 strict_key ;;
  candidates <~~ comprehension candidates (unused already_used) ret ;;
  candidates <~~ filtered candidates
                   (JourneyPlanner.energy_near target_energy) ;;
  candidates <~~ filtered candidates
                   (fun t =>
                      Qle_bool (fst (JourneyArc.bpm_range journey_arc)) (bpm t)
                      && Qle_bool (bpm t)
                           (snd (JourneyArc.bpm_range journey_arc))) ;;
  items <~~ get_list candidates ;;
  if negb (nonempty items) then ret None
  else
    current <~~ get_track current_track ;;
    candidates <~~ match key current with
                   | Some kc =>
                       prefer (fun t =>
                                 match key t with
                                 | Some kt =>
                                     TrackLibrary.are_keys_compatible kc kt
                                 | None => false
                                 end) candidates
                   | None => ret candidates
                   end ;;
    candidates <~~ (if prefer_labels
                       && nonempty (JourneyArc.preferred_labels journey_arc)
                    then prefer (JourneyPlanner.label_matches
                                   (JourneyArc.preferred_labels journey_arc))
                                candidates
                    else ret candidates) ;;
    scored_candidates <~~ alloc (ListCell []) ;;
    items <~~ get_list candidates ;;
    _ <~~ for_each items (fun x =>
            r <~~ as_ref x ;;
            current <~~ get_track current_track ;;
            track <~~ get_track r ;;
            let score :=
              JourneyPlanner._score_track_compatibility current track
                target_energy in
            append scored_candidates (Scored r score)) ;;
    _ <~~ sort scored_candidates ;;
    scored <~~ get_list scored_candidates ;;
    if len scored <=? 3 then
      match scored with
      | [] => raise IndexError
      | x :: _ => t <~~ scored_track x ;; ret (Some t)
      end
    else
      top <~~ alloc (ListCell (firstn 3 scored)) ;;
      picks <~~ comprehension top (fun _ => ret true)
                  (fun x => t <~~ scored_track x ;; ret (Obj t)) ;;
      x <~~ choice picks ;; t <~~ as_ref x ;; ret (Some t).

Definition _create_transition (track_a track_b : ref) (blend_duration : Z)
  : M ref :=
  a <~~ get_track track_a ;;
  b <~~ get_track track_b ;;
  tr <~~ lift (JourneyPlanner._create_transition a b blend_duration) ;;
  alloc (TransitionCell
           (mkTransition track_a track_b
              (Transition.start_time_a tr) (Transition.start_time_b tr)
              blend_duration
              (Transition.bpm_compatible tr) (Transition.key_compatible tr)
              (Transition.energy_compatible tr)
              (Transition.texture_compatible tr)
              (Transition.strategy tr) (Transition.notes tr))).

(** [Playlist.calculate_duration]: the sum is stored in the playlist
    object. *)
Definition calculate_duration (self : ref) : M unit :=
  c <~~ read self ;;
  match c with
  | PlaylistCell p =>
      tracks <~~ get_list (Heap.tracks p) ;;
      match tracks with
      | [] => ret tt
      | first :: _ =>
          r <~~ as_ref first ;;
          t <~~ get_track r ;;
          transitions <~~ get_list (Heap.transitions p) ;;
          total <~~ fold_left
                      (fun acc x =>
                         total <~~ acc ;;
                         r <~~ as_ref x ;;
                         c <~~ read r ;;
                         match c with
                         | TransitionCell tr =>
                             b <~~ get_track (Heap.track_b tr) ;;
                             ret (total
                                  + (duration b
                                     - inject_Z (Heap.blend_duration tr)))%Q
                         | _ => wrong
                         end)
                      transitions (ret (duration t)) ;;
          write self
            (PlaylistCell
               (mkPlaylist (Heap.name p) (Heap.journey_arc p) (Heap.tracks p)
                  (Heap.transitions p) total (Heap.created_at p)))
      end
  | _ => wrong
  end.

(** One iteration of the loop of [generate_playlist]; [None] is [break],
    otherwise the new [current_track]. *)
Definition loop_body (library : ref) (journey_arc : JourneyArc.t)
  (strict_key prefer_labels : bool) (selected_tracks transitions : ref)
  (i : Z) (current_track : ref) : M (option ref) :=
  let target_energy := JourneyPlanner.target_energy_at journey_arc i in
  already_used <~~ comprehension selected_tracks (fun _ => ret true)
                     (fun x => r <~~ as_ref x ;; t <~~ get_track r ;;
                               ret (PathItem (file_path t))) ;;
  next_track <~~ _select_next_track library current_track target_energy
                   journey_arc strict_key prefer_labels already_used ;;
  match next_track with
  | None => ret None
  | Some next_track =>
      transition <~~ _create_transition current_track next_track
                       (JourneyArc.blend_duration journey_arc) ;;
      _ <~~ append transitions (Obj transition) ;;
      _ <~~ append selected_tracks (Obj next_track) ;;
      ret (Some next_track)
  end.

Fixpoint select_loop (library : ref) (journey_arc : JourneyArc.t)
  (strict_key prefer_labels : bool) (selected_tracks transitions : ref)
  (indices : list Z) (current_track : ref) : M unit :=
  match indices with
  | [] => ret tt
  | i :: indices' =>
      r <~~ loop_body library journey_arc strict_key prefer_labels
              selected_tracks transitions i current_track ;;
      match r with
      | None => ret tt
      | Some next_track =>
          select_loop library journey_arc strict_key prefer_labels
            selected_tracks transitions indices' next_track
      end
  end.

Definition generate_playlist (library : ref) (journey_arc : JourneyArc.t)
  (strict_key prefer_labels : bool) : M ref :=
  selected_tracks <~~ alloc (ListCell []) ;;
  transitions <~~ alloc (ListCell []) ;;
  first_track <~~ _select_opener library journey_arc strict_key
                    prefer_labels ;;
  match first_track with
  | None => raise JourneyPlanner.no_opener
  | Some first_track =>
      _ <~~ append selected_tracks (Obj first_track) ;;
      _ <~~ select_loop library journey_arc strict_key prefer_labels
              selected_tracks transitions
              (range2 1 (JourneyArc.num_tracks journey_arc)) first_track ;;
      created_at <~~ now_isoformat ;;
      playlist <~~ alloc (PlaylistCell
                            (mkPlaylist (JourneyArc.name journey_arc)
                               journey_arc selected_tracks transitions 0
                               (Some created_at))) ;;
      _ <~~ calculate_duration playlist ;;
      ret playlist
  end.

(** *** Reading the library back as a value *)

Fixpoint all_some {A} (l : list (option A)) : option (list A) :=
  match l with
  | [] => Some []
  | Some a :: l' => option_map (cons a) (all_some l')
  | None :: _ => None
  end.

(** The tracks held by the list object at [lst], with their fields. *)
Definition view_tracks (h : list cell) (lst : ref) : option (list Track) :=
  match nth_error h lst with
  | Some (ListCell items) =>
      all_some
        (map (fun x =>
                match x with
                | Obj r =>
                    match nth_error h r with
                    | Some (TrackCell t) => Some t
                    | _ => None
                    end
                | _ => None
                end) items)
  | _ => None
  end.

Definition view_index {K} (h : list cell) (d : list (K * ref))
  : option (list (K * list Track)) :=
  all_some
    (map (fun kv => option_map (pair (fst kv)) (view_tracks h (snd kv))) d).

(** The library object at [self] as the value of the definitions above:
    the primary list and both indexes, every track with all its fields. *)
Definition view (h : list cell) (self : ref) : option TrackLibrary.t :=
  match nth_error h self with
  | Some (LibraryCell library_path tracks by_key by_bpm) =>
      match view_tracks h tracks, nth_error h by_key, nth_error h by_bpm with
      | Some ts, Some (KeyDictCell dk), Some (BpmDictCell db) =>
          match view_index h dk, view_index h db with
          | Some ik, Some ib => Some (TrackLibrary.mk library_path ts ik ib)
          | _, _ => None
          end
      | _, _, _ => None
      end
  | _ => None
  end.

(** Used in the statements below: every object of [h] is in [h'], at the
    same address and in the same state. *)
Definition preserved (h h' : list cell) : Prop :=
  forall r c, nth_error h r = Some c -> nth_error h' r = Some c.

(** Used in the statements below: run from a heap of at least [n] objects,
    [c] leaves the first [n] objects as they are, whatever its outcome, and
    a returned value satisfies [Q]. *)
Definition keeps {A} (n : nat) (c : M A) (Q : A -> Prop) : Prop :=
  forall s,
    (n <= List.length (heap s))%nat ->
    (n <= List.length (heap (snd (c s))))%nat
    /\ firstn n (heap (snd (c s))) = firstn n (heap s)
    /\ forall a, fst (c s) = Return a -> Q a.

End OnHeap.

(* ------------------------------------------------------------------ *)
(** ** A library laid out in the heap *)

Module HeapSamples.
Import Heap OnHeap.

(** [library = TrackLibrary()] followed by
    [library.add_track(TrackMetadata(...))] for each track of [l]. *)
Definition build (l : list Track) : M ref :=
  library <~~ init ;;
  _ <~~ for_each l (fun t =>
          track <~~ alloc (TrackCell t) ;; add_track library track) ;;
  ret library.

Definition start : State := mkState [] [2%nat; 0%nat; 1%nat] "2024-01-01T00:00:00".

(** The heap holding the library of [Samples.small_library], and the
    address of the library object. *)
Definition small : State := snd (build [Samples.first; Samples.second] start).
Definition small_library : ref := 3%nat.

(** The state after planning on that heap. *)
Definition planned : outcome ref * State :=
  generate_playlist small_library (Samples.arc None) false true small.

(** The state after one more [add_track]. *)
Definition grown : State :=
  snd ((track <~~ alloc (TrackCell Samples.t128) ;;
        add_track small_library track) small).

End HeapSamples.

(* ================================================================== *)
(** * Properties *)

(* ------------------------------------------------------------------ *)
(** ** Worked examples *)

Example curve_gradual_7 :
  EnergyCurve._generate_energy_curve 7 "gradual_build"
  = Ok [2; 3; 4; 5; 7; 6; 5].
Proof. vm_compute. reflexivity. Qed.

(** For five tracks the raw descent values are 7, 6 and 3: the last one is
    raised to the floor. *)
Example curve_gradual_5 :
  EnergyCurve._generate_energy_curve 5 "gradual_build" = Ok [2; 4; 7; 6; 5].
Proof. vm_compute. reflexivity. Qed.

Example curve_peak_10 :
  EnergyCurve._generate_energy_curve 10 "peak_and_descent"
  = Ok [2; 3; 4; 5; 6; 7; 8; 7; 6; 5].
Proof. vm_compute. reflexivity. Qed.

Example curve_steady_4 :
  EnergyCurve._generate_energy_curve 4 "steady" = Ok [5; 6; 5; 6].
Proof. vm_compute. reflexivity. Qed.

Example camelot_examples :
  TrackLibrary.are_keys_compatible B_FLAT_MINOR D_FLAT_MAJOR = true
  /\ TrackLibrary.are_keys_compatible B_FLAT_MINOR F_MINOR = true
  /\ TrackLibrary.are_keys_compatible B_FLAT_MINOR B_MINOR = false
  /\ TrackLibrary.are_keys_compatible D_MINOR A_MINOR = true.
Proof. repeat split; vm_compute; reflexivity. Qed.

Example sample_arc_is_created :
  JourneyPlanner.create_journey_arc 30 None (118%Q, 124%Q) "gradual_build" 60
  = Ok (Samples.arc None).
Proof. vm_compute. reflexivity. Qed.

Example small_playlist_tracks :
  map (fun t => Path.str (TrackMetadata.file_path t))
      (Playlist.tracks Samples.small_playlist)
  = ["1.wav"; "2.wav"]
  /\ map Transition.notes (Playlist.transitions Samples.small_playlist)
     = ["Blend from 1.wav to 2.wav over 60s | Harmonic mix"]
  /\ Playlist.total_duration Samples.small_playlist = 660%Q.
Proof. repeat split; vm_compute; reflexivity. Qed.

(* ------------------------------------------------------------------ *)
(** ** Paths *)

Section Paths.
Import Path.

(** A path is its string: the proof that the string is in normal form is
    unique. *)
Lemma path_eq (a b : Path.t) : Path.str a = Path.str b -> a = b.
Proof.
  destruct a as [x Hx], b as [y Hy]. simpl. intros <-.
  f_equal. apply UIP_dec, Bool.bool_dec.
Qed.

Lemma path_eqb_eq (a b : Path.t) : Path.eqb a b = true <-> a = b.
Proof.
  unfold Path.eqb. rewrite String.eqb_eq. split.
  - apply path_eq.
  - now intros ->.
Qed.

Lemma path_eqb_refl (a : Path.t) : Path.eqb a a = true.
Proof. now apply path_eqb_eq. Qed.

(** Reading back the string of a path gives the same path. *)
Lemma of_string_str (p : Path.t) : Path.of_string (Path.str p) = p.
Proof.
  destruct p as [x Hx]. unfold Path.of_string. simpl.
  pose proof Hx as E. apply String.eqb_eq in E.
  destruct (Sumbool.sumbool_of_bool _) as [H|H].
  - apply path_eq. exact E.
  - rewrite E, Hx in H. discriminate H.
Qed.

Lemma split_slash_free (x : string) : slash_free x = true -> split x = [x].
Proof.
  induction x as [|c x IH]; [reflexivity|].
  unfold slash_free. simpl. rewrite andb_true_iff, negb_true_iff.
  intros [Hc Hx]. rewrite Hc, (IH Hx). reflexivity.
Qed.

Lemma split_app (x s : string) :
  slash_free x = true -> split (x ++ String "/" s)%string = x :: split s.
Proof.
  induction x as [|c x IH]; [reflexivity|].
  unfold slash_free. simpl. rewrite andb_true_iff, negb_true_iff.
  intros [Hc Hx]. rewrite Hc, (IH Hx). reflexivity.
Qed.

Lemma split_join (p : string) (ps : list string) :
  Forall (fun x => slash_free x = true) (p :: ps) ->
  split (join (p :: ps)) = p :: ps.
Proof.
  revert p. induction ps as [|q ps IH]; intros p H.
  - simpl. apply split_slash_free. now inversion H.
  - inversion H as [|? ? Hp Hps]; subst.
    change (join (p :: q :: ps)) with (p ++ String "/" (join (q :: ps)))%string.
    rewrite split_app by exact Hp. now rewrite IH.
Qed.

Lemma split_pieces (s : string) :
  Forall (fun x => slash_free x = true) (split s).
Proof.
  induction s as [|c s IH]; simpl.
  - repeat constructor.
  - destruct (Ascii.eqb c "/") eqn:E.
    + constructor; [reflexivity | exact IH].
    + destruct (split s) as [|x xs]; [repeat constructor; unfold slash_free; simpl; now rewrite E|].
      inversion IH; subst. constructor; [|assumption].
      unfold slash_free in *. simpl. now rewrite E.
Qed.

Lemma parts_pieces (s : string) :
  Forall (fun x => slash_free x = true /\ is_part x = true) (parts s).
Proof.
  unfold parts. pose proof (split_pieces s) as H.
  induction H as [|x l Hx Hl IH]; simpl; [constructor|].
  destruct (is_part x) eqn:E; [constructor; auto | exact IH].
Qed.

Lemma filter_all {A} (f : A -> bool) (l : list A) :
  Forall (fun x => f x = true) l -> filter f l = l.
Proof.
  induction 1 as [|x l Hx Hl IH]; simpl; [reflexivity|].
  now rewrite Hx, IH.
Qed.

Lemma root_cases (s : string) : root s = "" \/ root s = "/" \/ root s = "//".
Proof.
  unfold root. destruct s as [|c1 [|c2 [|c3 s]]]; auto;
    repeat match goal with |- context [if ?b then _ else _] => destruct b end;
    auto.
Qed.

(** The parts of a normal form are the parts it was built from. *)
Lemma parts_join (r : string) (ps : list string) :
  r = "" \/ r = "/" \/ r = "//" ->
  Forall (fun x => slash_free x = true /\ is_part x = true) ps ->
  parts (r ++ join ps)%string = ps.
Proof.
  intros Hr Hps.
  assert (Hj : filter is_part (split (join ps)) = ps).
  { destruct ps as [|p ps]; [reflexivity|].
    rewrite split_join.
    - apply filter_all. eapply Forall_impl; [|exact Hps]. now intros x [_ H].
    - eapply Forall_impl; [|exact Hps]. now intros x [H _]. }
  unfold parts. destruct Hr as [-> | [-> | ->]]; simpl; exact Hj.
Qed.

Lemma part_head (p : string) :
  slash_free p = true -> is_part p = true ->
  exists c p', p = String c p' /\ Ascii.eqb c "/" = false.
Proof.
  destruct p as [|c p']; [discriminate 2|].
  unfold slash_free. simpl. rewrite andb_true_iff, negb_true_iff.
  intros [Hc _] _. eauto.
Qed.

Lemma root_join (r : string) (ps : list string) :
  r = "" \/ r = "/" \/ r = "//" ->
  Forall (fun x => slash_free x = true /\ is_part x = true) ps ->
  root (r ++ join ps)%string = r.
Proof.
  intros Hr Hps.
  assert (Hh : join ps = "" \/
               exists c s, join ps = String c s /\ Ascii.eqb c "/" = false).
  { destruct ps as [|p ps]; [now left|]. right.
    inversion Hps as [|? ? [H1 H2] _]; subst.
    destruct (part_head p H1 H2) as (c & p' & -> & Hc).
    destruct ps; simpl; eauto. }
  destruct Hr as [-> | [-> | ->]];
    destruct Hh as [-> | (c & s & -> & Hc)]; simpl; try rewrite Hc;
    reflexivity.
Qed.

Lemma normalize_idempotent (s : string) :
  normalize (normalize s) = normalize s.
Proof.
  assert (E : normalize s = "."
              \/ (normalize s = (root s ++ join (parts s))%string
                  /\ (root s <> "" \/ parts s <> []))).
  { unfold normalize. destruct (root s); destruct (parts s); auto;
      right; split; auto; try (left; discriminate); right; discriminate. }
  destruct E as [-> | [-> Hne]]; [reflexivity|].
  unfold normalize.
  rewrite root_join, parts_join by (auto using root_cases, parts_pieces).
  destruct (root s) eqn:Er; [|reflexivity].
  destruct (parts s) eqn:Ep; [|reflexivity].
  destruct Hne; contradiction.
Qed.

(** The string of [Path(s)] is the normal form of [s]. *)
Lemma str_of_string (s : string) : Path.str (Path.of_string s) = normalize s.
Proof.
  unfold of_string.
  destruct (Sumbool.sumbool_of_bool _) as [H|H]; [reflexivity|].
  rewrite normalize_idempotent, String.eqb_refl in H. discriminate H.
Qed.

(** [Path(s)] holds the normal form of [s]. *)
Example normalize_examples :
  normalize "./c.wav" = "c.wav"
  /\ normalize "a//b/./c.wav" = "a/b/c.wav"
  /\ normalize "/Volumes/TRAKTOR/Music/x.wav" = "/Volumes/TRAKTOR/Music/x.wav"
  /\ normalize "//srv/x" = "//srv/x"
  /\ normalize "///srv/x/" = "/srv/x"
  /\ normalize "" = "."
  /\ normalize "a/../b" = "a/../b".
Proof. repeat split. Qed.
End Paths.

(* ------------------------------------------------------------------ *)
(** ** Arithmetic of [int] and [/] *)

Lemma int_is_floor (q : Q) : (0 <= q)%Q -> int q = Qfloor q.
Proof.
  destruct q as [n d]; unfold Qle, int, Qfloor; simpl; intros H.
  apply Z.quot_div_nonneg; lia.
Qed.

Lemma int_bounds (q : Q) (k : Z) :
  (0 <= q)%Q -> (q <= inject_Z k)%Q -> 0 <= int q <= k.
Proof.
  intros H0 Hk. rewrite (int_is_floor q H0). split.
  - change 0 with (Qfloor (inject_Z 0)). now apply Qfloor_resp_le.
  - rewrite <- (Qfloor_Z k). now apply Qfloor_resp_le.
Qed.

Lemma truediv_ok (a b : Q) :
  ~ (b == 0)%Q -> truediv a b = Ok (a / b)%Q.
Proof.
  intros Hb. unfold truediv.
  destruct (Qeq_bool b 0) eqn:E; [|reflexivity].
  apply Qeq_bool_iff in E. contradiction.
Qed.

Lemma truediv_Z_ok (i d : Z) :
  0 < d -> truediv (inject_Z i) (inject_Z d) = Ok (inject_Z i / inject_Z d)%Q.
Proof.
  intros Hd. apply truediv_ok. unfold Qeq, inject_Z; simpl. lia.
Qed.

Lemma ratio_nonneg (i d : Z) :
  0 <= i -> 0 < d -> (0 <= inject_Z i / inject_Z d)%Q.
Proof.
  intros Hi Hd. apply Qle_shift_div_l.
  - unfold Qlt, inject_Z; simpl; lia.
  - unfold Qle, inject_Z; simpl; lia.
Qed.

Lemma ratio_le_1 (i d : Z) :
  i <= d -> 0 < d -> (inject_Z i / inject_Z d <= 1)%Q.
Proof.
  intros Hi Hd. apply Qle_shift_div_r.
  - unfold Qlt, inject_Z; simpl; lia.
  - rewrite Qmult_1_l. now rewrite <- Zle_Qle.
Qed.

(** A ramp term [int((i / d) * c)] lies in [0, c] while [0 <= i <= d]. *)
Lemma ramp_term_bounds (i d c : Z) :
  0 <= i <= d -> 0 < d -> 0 <= c ->
  0 <= int (inject_Z i / inject_Z d * inject_Z c) <= c.
Proof.
  intros Hi Hd Hc.
  pose proof (ratio_nonneg i d (proj1 Hi) Hd) as H0.
  pose proof (ratio_le_1 i d (proj2 Hi) Hd) as H1.
  assert (Hc' : (0 <= inject_Z c)%Q) by (unfold Qle, inject_Z; simpl; lia).
  apply int_bounds.
  - now apply Qmult_le_0_compat.
  - setoid_replace (inject_Z c) with (1 * inject_Z c)%Q at 2 by ring.
    now apply Qmult_le_compat_r.
Qed.

Lemma ramp_term_nonneg (i d c : Z) :
  0 <= i -> 0 < d -> 0 <= c ->
  0 <= int (inject_Z i / inject_Z d * inject_Z c).
Proof.
  intros Hi Hd Hc.
  pose proof (ratio_nonneg i d Hi Hd) as H0.
  assert (Hc' : (0 <= inject_Z c)%Q) by (unfold Qle, inject_Z; simpl; lia).
  rewrite int_is_floor by now apply Qmult_le_0_compat.
  change 0 with (Qfloor (inject_Z 0)). apply Qfloor_resp_le.
  now apply Qmult_le_0_compat.
Qed.

(* ------------------------------------------------------------------ *)
(** ** Loops that append one value per iteration *)

Section AppendLoop.
Variable body : Z -> list Z -> result (list Z).
Variable P : Z -> Prop.
(** [Inv j i c]: about to run iteration [i] on [c], [j] iterations left. *)
Variable Inv : nat -> Z -> list Z -> Prop.
Hypothesis step :
  forall j i c, Inv (S j) i c ->
    exists e, body i c = Ok (c ++ [e]) /\ P e /\ Inv j (i + 1) (c ++ [e]).

Lemma for_each_appends :
  forall k a c, Inv k a c ->
    exists tail,
      for_each (range_from a k) body c = Ok (c ++ tail)
      /\ List.length tail = k /\ Forall P tail.
Proof.
  induction k as [|k IH]; intros a c HI; simpl.
  - exists []. rewrite app_nil_r. auto.
  - destruct (step _ _ _ HI) as (e & He & HP & HI').
    rewrite He; simpl.
    destruct (IH _ _ HI') as (tail & Ht & Hl & HF).
    exists (e :: tail). rewrite Ht, <- app_assoc. simpl.
    repeat split; auto.
Qed.
End AppendLoop.

Lemma range_from_length (a : Z) (k : nat) : List.length (range_from a k) = k.
Proof. revert a; induction k; simpl; intros; auto. Qed.


Lemma len_app {A} (l1 l2 : list A) : len (l1 ++ l2) = len l1 + len l2.
Proof. unfold len. rewrite length_app. lia. Qed.

Lemma slice_to_all {A} (l : list A) (n : Z) :
  len l = n -> slice_to l n = l.
Proof.
  unfold len, slice_to. intros H.
  destruct (0 <=? n) eqn:E; [|lia].
  apply firstn_all2. lia.
Qed.

(* ------------------------------------------------------------------ *)
(** ** Energy curves: shape of each progression *)

Section CurveShape.
Import EnergyCurve.

Lemma build_loop (third : Z) (curve : list Z) :
  0 <= third ->
  exists tail,
    for_each (range third) (build_step third) curve = Ok (curve ++ tail)
    /\ List.length tail = Z.to_nat third
    /\ Forall (fun e => 4 <= e <= 7) tail.
Proof.
  intros Hpos. unfold range, range2. rewrite Z.sub_0_r.
  apply for_each_appends
    with (Inv := fun j i (_ : list Z) => 0 <= i /\ i + Z.of_nat j <= third);
    [|lia].
  intros j i c [H0 H1]. unfold build_step.
  rewrite truediv_Z_ok by lia. cbn [rbind].
  eexists; split; [reflexivity|]. split; [|cbv beta; lia].
  pose proof (ramp_term_bounds i third 3 ltac:(lia) ltac:(lia) ltac:(lia)) as B.
  change (inject_Z 3) with 3%Q in B. lia.
Qed.

Lemma descent_loop (num_tracks : Z) (curve : list Z) :
  len curve <= num_tracks ->
  exists tail,
    for_each (range (num_tracks - len curve)) (descent_step num_tracks) curve
    = Ok (curve ++ tail)
    /\ List.length tail = Z.to_nat (num_tracks - len curve)
    /\ Forall (fun e => 5 <= e <= 7) tail.
Proof.
  intros Hle. unfold range, range2. rewrite Z.sub_0_r.
  apply for_each_appends
    with (Inv := fun j i c => 0 <= i /\ num_tracks - len c = Z.of_nat j);
    [|lia].
  intros j i c [H0 H1]. unfold descent_step.
  rewrite truediv_Z_ok by lia. cbn [rbind].
  eexists; split; [reflexivity|]. split.
  - pose proof (ramp_term_nonneg i (num_tracks - len c) 2
                  ltac:(lia) ltac:(lia) ltac:(lia)) as B.
    change (inject_Z 2) with 2%Q in B. lia.
  - cbv beta. rewrite len_app. unfold len at 2. simpl List.length. lia.
Qed.

Lemma ramp_loop (peak_at : Z) (curve : list Z) :
  0 <= peak_at ->
  exists tail,
    for_each (range peak_at) (ramp_step peak_at) curve = Ok (curve ++ tail)
    /\ List.length tail = Z.to_nat peak_at
    /\ Forall (fun e => 2 <= e <= 8) tail.
Proof.
  intros Hpos. unfold range, range2. rewrite Z.sub_0_r.
  apply for_each_appends
    with (Inv := fun j i (_ : list Z) => 0 <= i /\ i + Z.of_nat j <= peak_at);
    [|lia].
  intros j i c [H0 H1]. unfold ramp_step.
  rewrite truediv_Z_ok by lia. cbn [rbind].
  eexists; split; [reflexivity|]. split; [|cbv beta; lia].
  pose proof (ramp_term_bounds i peak_at 6 ltac:(lia) ltac:(lia) ltac:(lia)) as B.
  change (inject_Z 6) with 6%Q in B. lia.
Qed.

Lemma fall_loop (num_tracks peak_at : Z) (curve : list Z) :
  peak_at <= num_tracks ->
  exists tail,
    for_each (range (num_tracks - peak_at)) (fall_step num_tracks peak_at) curve
    = Ok (curve ++ tail)
    /\ List.length tail = Z.to_nat (num_tracks - peak_at)
    /\ Forall (fun e => 3 <= e <= 8) tail.
Proof.
  intros Hpos. unfold range, range2. rewrite Z.sub_0_r.
  apply for_each_appends
    with (Inv := fun j i (_ : list Z) =>
                   0 <= i /\ i + Z.of_nat j <= num_tracks - peak_at);
    [|lia].
  intros j i c [H0 H1]. unfold fall_step.
  rewrite truediv_Z_ok by lia. cbn [rbind].
  eexists; split; [reflexivity|]. split; [|cbv beta; lia].
  pose proof (ramp_term_bounds i (num_tracks - peak_at) 5
                ltac:(lia) ltac:(lia) ltac:(lia)) as B.
  change (inject_Z 5) with 5%Q in B. lia.
Qed.

Lemma opening_values (third : Z) :
  Forall (fun e => 2 <= e <= 4) (map (fun i => 2 + i mod 3) (range third)).
Proof.
  apply Forall_forall. intros e He. apply in_map_iff in He.
  destruct He as (i & <- & _).
  pose proof (Z.mod_pos_bound i 3 ltac:(lia)). lia.
Qed.

Lemma steady_values (n : Z) :
  Forall (fun e => 5 <= e <= 6) (steady n).
Proof.
  apply Forall_forall. intros e He. apply in_map_iff in He.
  destruct He as (i & <- & _).
  pose proof (Z.mod_pos_bound i 2 ltac:(lia)). lia.
Qed.

Lemma range_length (n : Z) : List.length (range n) = Z.to_nat n.
Proof. unfold range, range2. now rewrite range_from_length, Z.sub_0_r. Qed.

(** [gradual_build] is an opening of [n // 3] values, a build of [n // 3]
    values and a clamped descent covering the rest. *)
Lemma gradual_build_shape (n : Z) :
  0 <= n ->
  exists opening build descent,
    gradual_build n = Ok (opening ++ build ++ descent)
    /\ List.length opening = Z.to_nat (n / 3)
    /\ List.length build = Z.to_nat (n / 3)
    /\ List.length descent = Z.to_nat (n - 2 * (n / 3))
    /\ Forall (fun e => 2 <= e <= 4) opening
    /\ Forall (fun e => 4 <= e <= 7) build
    /\ Forall (fun e => 5 <= e <= 7) descent.
Proof.
  intros Hn. unfold gradual_build.
  set (third := n / 3).
  assert (H3 : 0 <= third /\ 3 * third <= n).
  { subst third. split; [apply Z.div_pos; lia|].
    apply Z.mul_div_le; lia. }
  set (opening := map (fun i => 2 + i mod 3) (range third)).
  assert (Hlo : List.length opening = Z.to_nat third).
  { subst opening. now rewrite length_map, range_length. }
  destruct (build_loop third opening) as (build & -> & Hlb & Hvb); [lia|].
  simpl.
  assert (Hlen : len (opening ++ build) = 2 * third).
  { unfold len. rewrite length_app, Hlo, Hlb. lia. }
  destruct (descent_loop n (opening ++ build)) as (descent & -> & Hld & Hvd);
    [lia|].
  simpl. rewrite Hlen in Hld.
  exists opening, build, descent.
  rewrite <- app_assoc. rewrite slice_to_all.
  - repeat split; auto. apply opening_values.
  - unfold len. rewrite !length_app, Hlo, Hlb, Hld. lia.
Qed.

Lemma peak_at_bounds (n : Z) : 0 <= n -> 0 <= peak_at_of n <= n.
Proof.
  intros Hn. unfold peak_at_of.
  assert (H : (0 <= inject_Z n)%Q) by (unfold Qle, inject_Z; simpl; lia).
  apply int_bounds.
  - apply Qmult_le_0_compat; [exact H|]. unfold Qle; simpl; lia.
  - assert (H65 : (65 # 100 <= 1)%Q) by (unfold Qle; simpl; lia).
    nra.
Qed.

(** [peak_and_descent] is a ramp of [peak_at] values followed by a clamped
    descent covering the rest. *)
Lemma peak_and_descent_shape (n : Z) :
  0 <= n ->
  exists ramp fall,
    peak_and_descent n = Ok (ramp ++ fall)
    /\ List.length ramp = Z.to_nat (peak_at_of n)
    /\ List.length fall = Z.to_nat (n - peak_at_of n)
    /\ Forall (fun e => 2 <= e <= 8) ramp
    /\ Forall (fun e => 3 <= e <= 8) fall.
Proof.
  intros Hn. unfold peak_and_descent.
  pose proof (peak_at_bounds n Hn) as Hp.
  destruct (ramp_loop (peak_at_of n) []) as (ramp & -> & Hlr & Hvr); [lia|].
  simpl.
  destruct (fall_loop n (peak_at_of n) ramp) as (fall & -> & Hlf & Hvf);
    [lia|].
  simpl. exists ramp, fall. rewrite slice_to_all.
  - repeat split; auto.
  - unfold len. rewrite length_app, Hlr, Hlf. lia.
Qed.
End CurveShape.

(* ------------------------------------------------------------------ *)
(** ** Energy curves: length and range *)

(** C4.  For every [num_tracks >= 1] and every progression name (the
    three named ones and any other string), the generator returns, without
    raising, a curve of exactly [num_tracks] values.  In [gradual_build] the
    last loop runs [num_tracks - 2 * (num_tracks // 3)] times, so no
    position is lost to the integer division. *)
Theorem energy_curve_length (num_tracks : Z) (progression : string) :
  1 <= num_tracks ->
  exists curve,
    EnergyCurve._generate_energy_curve num_tracks progression = Ok curve
    /\ len curve = num_tracks.
Proof.
  intros Hn. unfold EnergyCurve._generate_energy_curve.
  destruct (String.eqb progression "gradual_build").
  { destruct (gradual_build_shape num_tracks ltac:(lia))
      as (o & b & d & -> & Ho & Hb & Hd & _).
    eexists; split; [reflexivity|].
    pose proof (Z.mul_div_le num_tracks 3 ltac:(lia)).
    pose proof (Z.div_pos num_tracks 3 ltac:(lia) ltac:(lia)).
    unfold len. rewrite !length_app, Ho, Hb, Hd. lia. }
  destruct (String.eqb progression "peak_and_descent").
  { destruct (peak_and_descent_shape num_tracks ltac:(lia))
      as (r & f & -> & Hr & Hf & _).
    eexists; split; [reflexivity|].
    pose proof (peak_at_bounds num_tracks ltac:(lia)).
    unfold len. rewrite length_app, Hr, Hf. lia. }
  destruct (String.eqb progression "steady").
  { eexists; split; [reflexivity|].
    unfold len, EnergyCurve.steady. rewrite length_map, range_length. lia. }
  eexists; split; [reflexivity|].
  unfold len, replicate. rewrite repeat_length. lia.
Qed.

Lemma energy_curve_length_witness :
  1 <= 7 /\
  exists curve,
    EnergyCurve._generate_energy_curve 7 "gradual_build" = Ok curve
    /\ len curve = 7.
Proof.
  split; [lia | apply (energy_curve_length 7 "gradual_build"); lia].
Defined.

Lemma Forall_weaken {A} (P Q : A -> Prop) (l : list A) :
  (forall x, P x -> Q x) -> Forall P l -> Forall Q l.
Proof. intros H HF. eapply Forall_impl; eauto. Qed.

Lemma skipn_app_exact {A} (l1 l2 : list A) (n : nat) :
  List.length l1 = n -> skipn n (l1 ++ l2) = l2.
Proof.
  intros <-. rewrite skipn_app, skipn_all, Nat.sub_diag. reflexivity.
Qed.

(** C6.  For the three named progressions and [num_tracks >= 1], every
    value of the returned curve lies in [1, 10]; the descent segment of
    [gradual_build] (from position [2 * (num_tracks // 3)] on) never goes
    below 5 and the descent segment of [peak_and_descent] (from position
    [peak_at] on) never goes below 3: the floors are enforced by [max]. *)
Theorem energy_curve_range (num_tracks : Z) (progression : string) :
  1 <= num_tracks ->
  progression = "gradual_build" \/ progression = "peak_and_descent"
  \/ progression = "steady" ->
  exists curve,
    EnergyCurve._generate_energy_curve num_tracks progression = Ok curve
    /\ Forall (fun e => 1 <= e <= 10) curve
    /\ (progression = "gradual_build" ->
        Forall (fun e => 5 <= e)
               (skipn (Z.to_nat (2 * (num_tracks / 3))) curve))
    /\ (progression = "peak_and_descent" ->
        Forall (fun e => 3 <= e)
               (skipn (Z.to_nat (EnergyCurve.peak_at_of num_tracks)) curve)).
Proof.
  intros Hn [-> | [-> | ->]]; unfold EnergyCurve._generate_energy_curve;
    cbn [String.eqb Ascii.eqb Bool.eqb andb].
  - destruct (gradual_build_shape num_tracks ltac:(lia))
      as (o & b & d & -> & Ho & Hb & Hd & Vo & Vb & Vd).
    eexists; split; [reflexivity|]. split; [|split].
    + repeat (apply Forall_app; split);
        eapply Forall_weaken; try eassumption; cbv beta; intros; lia.
    + intros _. rewrite app_assoc, skipn_app_exact.
      * eapply Forall_weaken; try eassumption; cbv beta; intros; lia.
      * pose proof (Z.div_pos num_tracks 3 ltac:(lia) ltac:(lia)).
        rewrite length_app, Ho, Hb. lia.
    + intros H; discriminate H.
  - destruct (peak_and_descent_shape num_tracks ltac:(lia))
      as (r & f & -> & Hr & Hf & Vr & Vf).
    eexists; split; [reflexivity|]. split; [|split].
    + apply Forall_app; split;
        eapply Forall_weaken; try eassumption; cbv beta; intros; lia.
    + intros H; discriminate H.
    + intros _. rewrite skipn_app_exact by exact Hr.
      eapply Forall_weaken; try eassumption; cbv beta; intros; lia.
  - eexists; split; [reflexivity|]. split; [|split].
    + eapply Forall_weaken; [|apply steady_values]; cbv beta; intros; lia.
    + intros H; discriminate H.
    + intros H; discriminate H.
Qed.

Lemma energy_curve_range_witness :
  1 <= 5 /\
  exists curve,
    EnergyCurve._generate_energy_curve 5 "gradual_build" = Ok curve
    /\ Forall (fun e => 1 <= e <= 10) curve
    /\ ("gradual_build" = "gradual_build" ->
        Forall (fun e => 5 <= e) (skipn (Z.to_nat (2 * (5 / 3))) curve))
    /\ ("gradual_build" = "peak_and_descent" ->
        Forall (fun e => 3 <= e)
               (skipn (Z.to_nat (EnergyCurve.peak_at_of 5)) curve)).
Proof.
  split; [lia|].
  apply (energy_curve_range 5 "gradual_build"); [lia | left; reflexivity].
Defined.

(* ------------------------------------------------------------------ *)
(** ** Track store: tempo compatibility *)

Section TempoCompatibility.
Import TrackMetadata TrackLibrary.

Lemma in_band_spec (center ratio tol : Q) :
  in_band center ratio tol = true
  <-> (Qabs (ratio - center) <= tol / 100)%Q.
Proof. unfold in_band. apply Qle_bool_iff. Qed.

Lemma bpm_ok_spec (ratio tol : Q) :
  bpm_ok ratio tol = true
  <-> (Qabs (ratio - 1) <= tol / 100)%Q
      \/ (Qabs (ratio - 2) <= tol / 100)%Q
      \/ (Qabs (ratio - (1 # 2)) <= tol / 100)%Q.
Proof.
  unfold bpm_ok, band_1_1, band_2_1, band_1_2.
  rewrite !orb_true_iff, !in_band_spec. tauto.
Qed.

Lemma compatible_loop (reference_track : Track) (tol : Q) (key_only : bool) :
  ~ (bpm reference_track == 0)%Q ->
  forall l acc,
    for_each l (compatible_step reference_track tol key_only) acc
    = Ok (acc ++ filter (compatible_with reference_track tol key_only) l).
Proof.
  intros Hb. induction l as [|t l IH]; intros acc; cbn [for_each filter].
  - now rewrite app_nil_r.
  - unfold compatible_step at 1, compatible_with at 1.
    destruct (eqb t reference_track); cbn [rbind negb andb]; [apply IH|].
    rewrite truediv_ok by exact Hb. cbn [rbind].
    destruct (bpm_ok (bpm t / bpm reference_track) tol); cbn [negb andb];
      [|apply IH].
    destruct key_only, (key reference_track), (key t); cbn [rbind negb];
      try (rewrite IH, <- app_assoc; reflexivity).
    destruct (are_keys_compatible m m0); cbn [rbind negb];
      [rewrite IH, <- app_assoc; reflexivity | apply IH].
Qed.

Lemma get_compatible_tracks_filter (self : TrackLibrary.t)
  (reference_track : Track) (tol : Q) (key_only : bool) :
  ~ (bpm reference_track == 0)%Q ->
  get_compatible_tracks self reference_track tol key_only
  = Ok (filter (compatible_with reference_track tol key_only) (tracks self)).
Proof.
  intros Hb. unfold get_compatible_tracks.
  now rewrite compatible_loop.
Qed.

Lemma get_compatible_tracks_spec (self : TrackLibrary.t)
  (reference_track : Track) (tol : Q) (key_only : bool) :
  ~ (bpm reference_track == 0)%Q ->
  exists compatible,
    get_compatible_tracks self reference_track tol key_only = Ok compatible
    /\ forall t,
         In t compatible <->
         In t (tracks self)
         /\ eqb t reference_track = false
         /\ bpm_ok (bpm t / bpm reference_track) tol = true
         /\ (key_only = true ->
             forall kr kt, key reference_track = Some kr ->
                           key t = Some kt ->
                           are_keys_compatible kr kt = true).
Proof.
  intros Hb. eexists. split; [now apply get_compatible_tracks_filter|].
  intros t. rewrite filter_In. unfold compatible_with.
  rewrite !andb_true_iff, negb_true_iff.
  split.
  - intros (Hin & (He & Hok) & Hk). repeat split; auto.
    intros -> kr kt Hr Ht. now rewrite Hr, Ht in Hk.
  - intros (Hin & He & Hok & Hk). repeat split; auto.
    destruct key_only; auto.
    destruct (key reference_track) as [kr|]; auto.
    destruct (key t) as [kt|]; auto.
Qed.
End TempoCompatibility.

Section Binary64Bands.
Import TrackMetadata Binary64.

End Binary64Bands.







(* ------------------------------------------------------------------ *)
(** ** Candidate scorer: the texture term *)

Section TextureTerm.
Import TrackMetadata JourneyPlanner.

Lemma nonempty_true {A} (l : list A) : nonempty l = true <-> l <> [].
Proof. destruct l; simpl; split; congruence. Qed.

Lemma nonempty_false {A} (l : list A) : nonempty l = false <-> l = [].
Proof. destruct l; simpl; split; congruence. Qed.

Lemma texture_eqb_eq (a b : TextureType) : texture_eqb a b = true <-> a = b.
Proof.
  unfold texture_eqb. destruct (TextureType_eq_dec a b); split; congruence.
Qed.

Lemma shared_spec (x : TextureType) (l : list TextureType) :
  existsb (texture_eqb x) l = true <-> In x l.
Proof.
  rewrite existsb_exists. split.
  - intros (y & Hy & E). apply texture_eqb_eq in E. now subst.
  - intros H. exists x. split; [exact H|]. now apply texture_eqb_eq.
Qed.

Lemma filter_length_lt {A} (f : A -> bool) (l : list A) :
  (List.length (filter f l) < List.length l)%nat
  <-> exists x, In x l /\ f x = false.
Proof.
  induction l as [|a l IH]; simpl.
  - split; [lia | intros (x & [] & _)].
  - pose proof (filter_length_le f l) as Hle.
    destruct (f a) eqn:E; simpl.
    + rewrite <- Nat.succ_lt_mono, IH. split.
      * intros (x & Hx & Hf). exists x; auto.
      * intros (x & [<- | Hx] & Hf); [congruence | exists x; auto].
    + split; [|lia]. intros _. exists a; auto.
Qed.

(** The term in general: the count of distinct shared tags against the
    length of the current track's list. *)
Lemma texture_variety_spec (current candidate : Track) :
  texture_variety current candidate
  = if nonempty (textures current) && nonempty (textures candidate)
       && (len (overlap (textures current) (textures candidate))
           <? len (textures current))
    then 10 else 0.
Proof.
  unfold texture_variety.
  destruct (nonempty (textures current) && nonempty (textures candidate));
    simpl; [|reflexivity].
  now destruct (_ <? _).
Qed.
End TextureTerm.

(** C3, as stated, fails: [Samples.second] shares none of the textures of
    [Samples.first], yet the texture term is 10 and the score is
    50 + 20 (energy) + 15 (tempo) + 10 (texture) = 95. *)
Lemma texture_bonus_counterexample :
  (forall x, In x (TrackMetadata.textures Samples.first) ->
             ~ In x (TrackMetadata.textures Samples.second))
  /\ JourneyPlanner.texture_variety Samples.first Samples.second = 10
  /\ JourneyPlanner._score_track_compatibility Samples.first Samples.second 3
     = 95.
Proof.
  split; [|split; vm_compute; reflexivity].
  intros x [<- | []] [H | []]. discriminate H.
Qed.

(** C3, amended.  For a current track whose texture list has no repeated
    tag, the texture term is +10 exactly when both tracks carry at least one
    texture and the candidate lacks at least one of the current track's
    textures, and it is 0 otherwise.  So the bonus is given when no texture
    is shared, and withheld when all of them are shared. *)
Theorem texture_bonus_when_some_texture_missing (current candidate : Track) :
  NoDup (TrackMetadata.textures current) ->
  (JourneyPlanner.texture_variety current candidate = 10 <->
   TrackMetadata.textures current <> []
   /\ TrackMetadata.textures candidate <> []
   /\ exists x, In x (TrackMetadata.textures current)
                /\ ~ In x (TrackMetadata.textures candidate))
  /\ (JourneyPlanner.texture_variety current candidate = 10
      \/ JourneyPlanner.texture_variety current candidate = 0).
Proof.
  intros Hnd. rewrite texture_variety_spec.
  set (cur := TrackMetadata.textures current) in *.
  set (cand := TrackMetadata.textures candidate) in *.
  assert (Hov : JourneyPlanner.overlap cur cand
                = filter (fun x => existsb (texture_eqb x) cand) cur).
  { unfold JourneyPlanner.overlap. apply nodup_fixed_point.
    now apply NoDup_filter. }
  assert (Hlt : (len (JourneyPlanner.overlap cur cand) <? len cur) = true
                <-> exists x, In x cur /\ ~ In x cand).
  { rewrite Hov, Z.ltb_lt. unfold len. rewrite <- Nat2Z.inj_lt.
    rewrite filter_length_lt. split.
    - intros (x & Hx & Hf). exists x. split; [exact Hx|].
      intros Hin. apply shared_spec in Hin. congruence.
    - intros (x & Hx & Hn). exists x. split; [exact Hx|].
      destruct (existsb (texture_eqb x) cand) eqn:E; [|reflexivity].
      apply shared_spec in E. contradiction. }
  split.
  - destruct (nonempty cur) eqn:E1; simpl.
    + destruct (nonempty cand) eqn:E2; simpl.
      * destruct (_ <? _) eqn:E3.
        -- split; [intros _|reflexivity].
           apply nonempty_true in E1, E2.
           repeat split; auto. now apply Hlt.
        -- split; [discriminate|]. intros (_ & _ & H).
           apply Hlt in H. discriminate H.
      * split; [discriminate|]. intros (_ & H & _).
        apply nonempty_false in E2. contradiction.
    + split; [discriminate|]. intros (H & _).
      apply nonempty_false in E1. contradiction.
  - destruct (_ && _ && _); auto.
Qed.

Lemma texture_bonus_when_some_texture_missing_witness :
  NoDup (TrackMetadata.textures Samples.first) /\
  (JourneyPlanner.texture_variety Samples.first Samples.second = 10 <->
   TrackMetadata.textures Samples.first <> []
   /\ TrackMetadata.textures Samples.second <> []
   /\ exists x, In x (TrackMetadata.textures Samples.first)
                /\ ~ In x (TrackMetadata.textures Samples.second))
  /\ (JourneyPlanner.texture_variety Samples.first Samples.second = 10
      \/ JourneyPlanner.texture_variety Samples.first Samples.second = 0).
Proof.
  assert (H : NoDup (TrackMetadata.textures Samples.first)).
  { simpl. constructor; [intros [] | constructor]. }
  exact (conj H (texture_bonus_when_some_texture_missing
                   Samples.first Samples.second H)).
Defined.

(* ------------------------------------------------------------------ *)
(** ** Transition timing *)

Section TransitionTiming.
Import TrackMetadata JourneyPlanner.

(** What [_create_transition] computes for the two start times: the outro
    marker is used only when it is truthy, that is present and non-zero;
    the fade-in start equals the intro marker when there is one. *)
Lemma create_transition_timing (track_a track_b : Track) (blend : Z) :
  ~ (bpm track_b == 0)%Q ->
  exists tr,
    _create_transition track_a track_b blend = Ok tr
    /\ Transition.start_time_a tr
       = match outro_start track_a with
         | Some v =>
             if Qeq_bool v 0 then max0 (duration track_a - inject_Z blend)
             else v
         | None => max0 (duration track_a - inject_Z blend)
         end
    /\ match intro_start track_b with
       | Some v => (Transition.start_time_b tr == v)%Q
       | None => Transition.start_time_b tr = 0%Q
       end.
Proof.
  intros Hb. unfold _create_transition.
  rewrite truediv_ok by exact Hb. cbn [rbind].
  eexists; split; [reflexivity|]. cbn [Transition.start_time_a
                                        Transition.start_time_b].
  split.
  - destruct (outro_start track_a) as [v|]; [|reflexivity].
    unfold truthy_num. now destruct (Qeq_bool v 0).
  - destruct (intro_start track_b) as [v|]; [|reflexivity].
    unfold truthy_num. destruct (Qeq_bool v 0) eqn:E; simpl; [|reflexivity].
    apply Qeq_bool_iff in E. now symmetry.
Qed.
End TransitionTiming.

(** C8 at the failing input: the outgoing track has its outro-start marker
    present, at 0.0 seconds, a duration of 360 s and the blend lasts 60 s.
    The fade-out start is 300 = duration - blend, not the marker. *)
Theorem outro_marker_at_zero_is_ignored :
  TrackMetadata.outro_start Samples.outro_at_zero = Some 0%Q
  /\ exists tr,
       JourneyPlanner._create_transition Samples.outro_at_zero Samples.t120 60
       = Ok tr
       /\ Transition.start_time_a tr = 300%Q
       /\ ~ (Transition.start_time_a tr == 0)%Q.
Proof.
  split; [reflexivity|]. eexists. split; [vm_compute; reflexivity|].
  split; [reflexivity|]. simpl. discriminate.
Qed.

(* ------------------------------------------------------------------ *)
(** ** The planner monad *)

Section MonadLemmas.
Import PlanM.

Lemma mbind_ok_inv {A B} (c : M A) (k : A -> M B) s b s' :
  mbind c k s = (Ok b, s') ->
  exists a s1, c s = (Ok a, s1) /\ k a s1 = (Ok b, s').
Proof.
  unfold mbind. destruct (c s) as [[a|e] s1]; intros H.
  - eauto.
  - discriminate H.
Qed.

Lemma mbind_ok {A B} (c : M A) (k : A -> M B) s a s1 :
  c s = (Ok a, s1) -> mbind c k s = k a s1.
Proof. unfold mbind. now intros ->. Qed.

Lemma frames_mret {A} (a : A) : frames_library (mret a).
Proof. intros s; reflexivity. Qed.

Lemma frames_mraise {A} (e : exn) : frames_library (@mraise A e).
Proof. intros s; reflexivity. Qed.

Lemma frames_lift {A} (r : result A) : frames_library (lift r).
Proof. intros s; reflexivity. Qed.

Lemma frames_get_library : frames_library get_library.
Proof. intros s; reflexivity. Qed.

Lemma frames_now : frames_library now_isoformat.
Proof. intros s; reflexivity. Qed.

Lemma frames_choice {A} (l : list A) : frames_library (choice l).
Proof. intros s; unfold choice; destruct l; reflexivity. Qed.

(** Adding a track is seen by the frame property. *)
Lemma add_track_writes_library (track : Track) :
  ~ frames_library (add_track track).
Proof.
  intros H. specialize (H (mkState TrackLibrary.empty [] "")).
  apply (f_equal TrackLibrary.tracks) in H. simpl in H.
  discriminate H.
Qed.

Lemma frames_mbind {A B} (c : M A) (k : A -> M B) :
  frames_library c -> (forall a, frames_library (k a)) ->
  frames_library (mbind c k).
Proof.
  intros Hc Hk s. unfold mbind.
  specialize (Hc s). destruct (c s) as [[a|e] s1]; simpl in *.
  - now rewrite Hk.
  - exact Hc.
Qed.

Lemma raises_mret {A} P (a : A) : raises_only P (mret a).
Proof. intros s e s' H; discriminate H. Qed.

Lemma raises_mraise {A} (P : exn -> Prop) (e : exn) :
  P e -> raises_only P (@mraise A e).
Proof. intros HP s e' s' H. injection H as <- _. exact HP. Qed.

Lemma raises_get_library P : raises_only P get_library.
Proof. intros s e s' H; discriminate H. Qed.

Lemma raises_now P : raises_only P now_isoformat.
Proof. intros s e s' H; discriminate H. Qed.

Lemma raises_choice {A} (P : exn -> Prop) (l : list A) :
  P IndexError -> raises_only P (choice l).
Proof.
  intros HP s e s'. unfold choice. destruct l; intros H.
  - injection H as <- _. exact HP.
  - discriminate H.
Qed.

Lemma raises_lift {A} (P : exn -> Prop) (r : result A) :
  (forall e, r = Raise e -> P e) -> raises_only P (lift r).
Proof.
  intros Hr s e s'. unfold lift. intros H. injection H as H _. auto.
Qed.

Lemma raises_mbind {A B} (P : exn -> Prop) (c : M A) (k : A -> M B) :
  raises_only P c -> (forall a, raises_only P (k a)) ->
  raises_only P (mbind c k).
Proof.
  intros Hc Hk s e s'. unfold mbind.
  destruct (c s) as [[a|e0] s1] eqn:E; intros H.
  - eapply Hk; eauto.
  - injection H as <- _. eapply Hc; eauto.
Qed.

Lemma choice_ok_inv {A} (l : list A) s x s' :
  choice l s = (Ok x, s') -> In x l.
Proof.
  unfold choice. destruct l as [|a l]; intros H; [discriminate H|].
  set (seq := a :: l) in *.
  assert (Hn : (Nat.modulo (hd O (rng s)) (List.length seq)
                < List.length seq)%nat)
    by (apply Nat.mod_upper_bound; discriminate).
  set (n := Nat.modulo (hd O (rng s)) (List.length seq)) in *.
  assert (Hx : x = nth n seq a) by congruence.
  rewrite Hx. now apply nth_In.
Qed.

Lemma choice_nonempty {A} (l : list A) s :
  l <> [] -> exists x s', choice l s = (Ok x, s') /\ In x l.
Proof.
  intros Hl. destruct (choice l s) as [[x|e] s'] eqn:E.
  - exists x, s'. split; [reflexivity|]. eapply choice_ok_inv; eauto.
  - unfold choice in E. destruct l; [contradiction | discriminate E].
Qed.
End MonadLemmas.

(* ------------------------------------------------------------------ *)
(** ** Preferences, sorting and the successor search *)

Section Preferences.
Import TrackMetadata JourneyPlanner.

Lemma prefer_revert (p : Track -> bool) (l : list Track) :
  filter p l = [] -> prefer p l = l.
Proof. unfold prefer. now intros ->. Qed.


Lemma prefer_incl (p : Track -> bool) (l : list Track) :
  incl (prefer p l) l.
Proof.
  unfold prefer. destruct (nonempty (filter p l)).
  - apply incl_filter.
  - apply incl_refl.
Qed.

Lemma prefer_nil (p : Track -> bool) (l : list Track) :
  prefer p l = [] <-> l = [].
Proof.
  unfold prefer. destruct (nonempty (filter p l)) eqn:E.
  - apply nonempty_true in E. split; [contradiction|].
    intros ->. reflexivity.
  - reflexivity.
Qed.

Lemma firstn_incl {A} (n : nat) (l : list A) : incl (firstn n l) l.
Proof.
  revert l; induction n as [|n IH]; intros l x; simpl.
  - intros [].
  - destruct l as [|a l]; simpl; [intros []|].
    intros [H | H]; [left | right]; auto. now apply IH.
Qed.

Lemma insert_desc_in (x y : Track * Z) (l : list (Track * Z)) :
  In y (insert_desc x l) <-> y = x \/ In y l.
Proof.
  induction l as [|z l IH]; simpl.
  - intuition congruence.
  - destruct (snd x <? snd z); simpl; rewrite ?IH; intuition congruence.
Qed.

Lemma sort_desc_in (y : Track * Z) (l : list (Track * Z)) :
  In y (sort_desc l) <-> In y l.
Proof.
  induction l as [|x l IH]; simpl; [reflexivity|].
  rewrite insert_desc_in, IH. intuition congruence.
Qed.



Lemma filter_filter {A} (f g : A -> bool) (l : list A) :
  filter g (filter f l) = filter (fun x => f x && g x) l.
Proof.
  induction l as [|a l IH]; simpl; [reflexivity|].
  destruct (f a); simpl; [destruct (g a)|]; now rewrite IH.
Qed.

Lemma for_each_incl (reference_track : Track) (tol : Q) (key_only : bool) :
  forall l acc res,
    for_each l (TrackLibrary.compatible_step reference_track tol key_only) acc
    = Ok res ->
    incl res (acc ++ l).
Proof.
  induction l as [|t l IH]; intros acc res; simpl.
  - intros H. injection H as <-. rewrite app_nil_r. apply incl_refl.
  - unfold TrackLibrary.compatible_step at 1.
    assert (Hskip :
              for_each l (TrackLibrary.compatible_step
                            reference_track tol key_only) acc = Ok res ->
              incl res (acc ++ t :: l)).
    { intros H x Hx. apply IH in H. apply H in Hx.
      rewrite in_app_iff in *. simpl. tauto. }
    assert (Hkeep :
              for_each l (TrackLibrary.compatible_step
                            reference_track tol key_only) (acc ++ [t])
              = Ok res ->
              incl res (acc ++ t :: l)).
    { intros H x Hx. apply IH in H. apply H in Hx.
      rewrite <- app_assoc in Hx. exact Hx. }
    destruct (eqb t reference_track); [exact Hskip|].
    destruct (truediv (bpm t) (bpm reference_track)) as [r|e]; simpl;
      [|discriminate].
    destruct (negb (TrackLibrary.bpm_ok r tol)); [exact Hskip|].
    destruct key_only, (key reference_track), (key t); try exact Hkeep.
    destruct (negb (TrackLibrary.are_keys_compatible m m0));
      [exact Hskip | exact Hkeep].
Qed.

Lemma get_compatible_tracks_incl (lib : TrackLibrary.t)
  (reference_track : Track) (tol : Q) (key_only : bool) (res : list Track) :
  TrackLibrary.get_compatible_tracks lib reference_track tol key_only = Ok res ->
  incl res (TrackLibrary.tracks lib).
Proof.
  unfold TrackLibrary.get_compatible_tracks. intros H.
  apply for_each_incl in H. exact H.
Qed.

Lemma for_each_compatible_raises (reference_track : Track) (tol : Q)
  (key_only : bool) :
  forall l acc e,
    for_each l (TrackLibrary.compatible_step reference_track tol key_only) acc
    = Raise e ->
    e = ZeroDivisionError.
Proof.
  induction l as [|t l IH]; intros acc e; simpl; [discriminate|].
  unfold TrackLibrary.compatible_step at 1.
  destruct (eqb t reference_track); [apply IH|].
  unfold truediv. destruct (Qeq_bool (bpm reference_track) 0); simpl.
  - intros H. now injection H as <-.
  - destruct (negb (TrackLibrary.bpm_ok _ tol)); [apply IH|].
    destruct key_only, (key reference_track), (key t); try apply IH.
    destruct (negb (TrackLibrary.are_keys_compatible m m0)); apply IH.
Qed.
End Preferences.

(* ------------------------------------------------------------------ *)
(** ** Frame and failure modes of the planner's methods *)

Ltac frames :=
  cbv zeta;
  repeat first
    [ apply frames_mret | apply frames_mraise | apply frames_lift
    | apply frames_get_library | apply frames_now | apply frames_choice
    | apply frames_mbind; [|intros ?]
    | match goal with
      | |- PlanM.frames_library (if ?b then _ else _) => destruct b
      | |- PlanM.frames_library (match ?x with _ => _ end) => destruct x
      end ].

Ltac raises :=
  cbv zeta;
  repeat first
    [ apply raises_mret | apply raises_get_library | apply raises_now
    | apply raises_choice; right; reflexivity
    | apply raises_mraise; right; reflexivity
    | apply raises_mbind; [|intros ?]
    | match goal with
      | |- PlanM.raises_only _ (if ?b then _ else _) => destruct b
      | |- PlanM.raises_only _ (match ?x with _ => _ end) => destruct x
      end ].

Section PlannerFrame.
Import TrackMetadata PlanM JourneyPlanner.
Variable journey_arc : JourneyArc.t.
Variables strict_key prefer_labels : bool.

Lemma frames_select_opener :
  frames_library (_select_opener journey_arc strict_key prefer_labels).
Proof. unfold _select_opener. frames. Qed.

Lemma frames_select_next_track current target used :
  frames_library (_select_next_track current target journey_arc
                    strict_key prefer_labels used).
Proof. unfold _select_next_track. frames. Qed.

Lemma frames_loop_body i st :
  frames_library (loop_body journey_arc strict_key prefer_labels i st).
Proof.
  unfold loop_body. cbv zeta.
  apply frames_mbind; [apply frames_select_next_track|].
  intros [t|]; frames.
Qed.

Lemma frames_select_loop indices :
  forall st,
    frames_library (select_loop journey_arc strict_key prefer_labels
                      indices st).
Proof.
  induction indices as [|i indices IH]; intros st; simpl.
  - apply frames_mret.
  - apply frames_mbind; [apply frames_loop_body|].
    intros [st'|]; [apply IH | apply frames_mret].
Qed.

Lemma frames_generate_playlist :
  frames_library (generate_playlist journey_arc strict_key prefer_labels).
Proof.
  unfold generate_playlist.
  apply frames_mbind; [apply frames_select_opener|].
  intros [first_track|]; [|apply frames_mraise].
  apply frames_mbind; [apply frames_select_loop|].
  intros st. frames.
Qed.

Lemma raises_select_next_track current target used :
  raises_only arithmetic_or_index
    (_select_next_track current target journey_arc strict_key prefer_labels
       used).
Proof.
  unfold _select_next_track.
  apply raises_mbind; [apply raises_get_library|]. intros lib.
  apply raises_mbind.
  - apply raises_lift. intros e He. left.
    eapply for_each_compatible_raises. exact He.
  - intros c0. raises.
Qed.

Lemma create_transition_raises track_a track_b blend e :
  _create_transition track_a track_b blend = Raise e ->
  e = ZeroDivisionError.
Proof.
  unfold _create_transition, truediv.
  destruct (Qeq_bool (bpm track_b) 0); simpl; intros H.
  - now injection H as <-.
  - discriminate H.
Qed.

Lemma raises_loop_body i st :
  raises_only arithmetic_or_index
    (loop_body journey_arc strict_key prefer_labels i st).
Proof.
  unfold loop_body. cbv zeta.
  apply raises_mbind; [apply raises_select_next_track|].
  intros [t|]; [|apply raises_mret].
  apply raises_mbind; [|intros; apply raises_mret].
  apply raises_lift. intros e He. left.
  eapply create_transition_raises. exact He.
Qed.

Lemma raises_select_loop indices :
  forall st,
    raises_only arithmetic_or_index
      (select_loop journey_arc strict_key prefer_labels indices st).
Proof.
  induction indices as [|i indices IH]; intros st; simpl.
  - apply raises_mret.
  - apply raises_mbind; [apply raises_loop_body|].
    intros [st'|]; [apply IH | apply raises_mret].
Qed.
End PlannerFrame.

(* ------------------------------------------------------------------ *)
(** ** Objects held by reference: what a planning call writes *)

Section HeapRules.
Import Heap OnHeap.
Variable n : nat.

Lemma keeps_ret {A} (a : A) (Q : A -> Prop) : Q a -> keeps n (ret a) Q.
Proof.
  intros H s Hs. simpl. repeat split; auto.
  intros b E. now injection E as <-.
Qed.

Lemma keeps_raise {A} (e : exn) (Q : A -> Prop) : keeps n (raise e) Q.
Proof. intros s Hs. simpl. repeat split; auto. discriminate. Qed.

Lemma keeps_wrong {A} (Q : A -> Prop) : keeps n wrong Q.
Proof. intros s Hs. simpl. repeat split; auto. discriminate. Qed.

Lemma keeps_bind {A B} (c : M A) (k : A -> M B) (P : A -> Prop)
  (Q : B -> Prop) :
  keeps n c P -> (forall a, P a -> keeps n (k a) Q) -> keeps n (bind c k) Q.
Proof.
  intros Hc Hk s Hs. unfold bind.
  destruct (Hc s Hs) as (H1 & H2 & H3).
  destruct (c s) as [[a| e |] s1]; simpl in *.
  - destruct (Hk a (H3 a eq_refl) s1 H1) as (K1 & K2 & K3).
    repeat split; auto. congruence.
  - repeat split; auto. discriminate.
  - repeat split; auto. discriminate.
Qed.

Lemma keeps_weaken {A} (c : M A) (P Q : A -> Prop) :
  keeps n c P -> (forall a, P a -> Q a) -> keeps n c Q.
Proof.
  intros Hc HPQ s Hs. destruct (Hc s Hs) as (H1 & H2 & H3).
  repeat split; auto.
Qed.

Lemma keeps_lift {A} (r : result A) : keeps n (lift r) (fun _ => True).
Proof. destruct r; [now apply keeps_ret | apply keeps_raise]. Qed.

Lemma keeps_now : keeps n now_isoformat (fun _ => True).
Proof. intros s Hs. simpl. auto. Qed.

(** A new object lies beyond the first [n]. *)
Lemma keeps_alloc (c : cell) : keeps n (alloc c) (fun r => (n <= r)%nat).
Proof.
  intros s Hs. unfold alloc. simpl. rewrite length_app. simpl.
  split; [lia|]. split.
  - rewrite firstn_app. replace (n - List.length (heap s))%nat with O by lia.
    simpl. now rewrite app_nil_r.
  - intros a E. injection E as <-. exact Hs.
Qed.

Lemma keeps_read (r : ref) : keeps n (read r) (fun _ => True).
Proof.
  intros s Hs. unfold read. destruct (nth_error (heap s) r); simpl; auto.
Qed.

Lemma update_length (r : ref) (c : cell) (h : list cell) :
  (r < List.length h)%nat -> List.length (update r c h) = List.length h.
Proof.
  intros H. unfold update. rewrite length_app, length_firstn.
  cbn [List.length]. rewrite length_skipn. lia.
Qed.

Lemma update_firstn (r : ref) (c : cell) (h : list cell) :
  (n <= r)%nat -> (r < List.length h)%nat ->
  firstn n (update r c h) = firstn n h.
Proof.
  intros H Hl. unfold update.
  rewrite firstn_app, firstn_firstn, length_firstn.
  replace (Nat.min n r) with n by lia.
  replace (n - Nat.min r (List.length h))%nat with O by lia.
  cbn [firstn]. now rewrite app_nil_r.
Qed.

(** Writing an object beyond the first [n] leaves the first [n] alone. *)
Lemma keeps_write (r : ref) (c : cell) :
  (n <= r)%nat -> keeps n (write r c) (fun _ => True).
Proof.
  intros Hr s Hs. unfold write.
  destruct (r <? List.length (heap s))%nat eqn:E; simpl; auto.
  apply Nat.ltb_lt in E. rewrite update_length by exact E.
  rewrite update_firstn by assumption. auto.
Qed.

Lemma keeps_for_each {X} (body : X -> M unit) (xs : list X) :
  (forall x, keeps n (body x) (fun _ => True)) ->
  keeps n (for_each xs body) (fun _ => True).
Proof.
  intros Hb. induction xs as [|x xs IH]; simpl.
  - now apply keeps_ret.
  - eapply keeps_bind; [apply Hb | intros; apply IH].
Qed.
End HeapRules.

Ltac keeps_step :=
  first
    [ apply keeps_raise | apply keeps_wrong | apply keeps_lift
    | apply keeps_now | apply keeps_read
    | apply keeps_alloc
    | apply keeps_write; assumption
    | apply keeps_ret; first [exact I | assumption]
    | eapply keeps_bind; [|intros ? ?]
    | match goal with
      | |- OnHeap.keeps _ (if ?b then _ else _) _ => destruct b
      | |- OnHeap.keeps _ (match ?x with _ => _ end) _ => destruct x
      end ].

Section HeapFrame.
Import Heap OnHeap.
Variable n : nat.

Lemma keeps_get_track (r : ref) : keeps n (get_track r) (fun _ => True).
Proof. unfold get_track. repeat keeps_step. Qed.

Lemma keeps_get_list (r : ref) : keeps n (get_list r) (fun _ => True).
Proof. unfold get_list. repeat keeps_step. Qed.

Lemma keeps_as_ref (x : item) : keeps n (as_ref x) (fun _ => True).
Proof. unfold as_ref. repeat keeps_step. Qed.

Lemma keeps_scored_track (x : item) :
  keeps n (scored_track x) (fun _ => True).
Proof. unfold scored_track. repeat keeps_step. Qed.

Lemma keeps_append (lst : ref) (x : item) :
  (n <= lst)%nat -> keeps n (append lst x) (fun _ => True).
Proof.
  intros H. unfold append.
  eapply keeps_bind; [apply keeps_get_list | intros ? _].
  now apply keeps_write.
Qed.

Lemma keeps_sort (lst : ref) :
  (n <= lst)%nat -> keeps n (sort lst) (fun _ => True).
Proof.
  intros H. unfold sort.
  eapply keeps_bind; [apply keeps_get_list | intros ? _].
  now apply keeps_write.
Qed.

(** A comprehension writes the list it builds, whatever list it reads. *)
Lemma keeps_comprehension (src : ref) (keep : item -> M bool)
  (emit : item -> M item) :
  (forall x, keeps n (keep x) (fun _ => True)) ->
  (forall x, keeps n (emit x) (fun _ => True)) ->
  keeps n (comprehension src keep emit) (fun r => (n <= r)%nat).
Proof.
  intros Hk He. unfold comprehension.
  eapply keeps_bind; [apply keeps_alloc | intros result Hr].
  eapply keeps_bind; [apply keeps_get_list | intros items _].
  eapply keeps_bind; [|intros ? _; now apply keeps_ret].
  apply keeps_for_each. intros x.
  eapply keeps_bind; [apply Hk | intros [|] _]; [|now apply keeps_ret].
  eapply keeps_bind; [apply He | intros y _]. now apply keeps_append.
Qed.

Lemma keeps_filtered (src : ref) (p : Track -> bool) :
  keeps n (filtered src p) (fun r => (n <= r)%nat).
Proof.
  unfold filtered. apply keeps_comprehension; intros x.
  - eapply keeps_bind; [apply keeps_as_ref | intros r _].
    eapply keeps_bind; [apply keeps_get_track | intros t _].
    now apply keeps_ret.
  - now apply keeps_ret.
Qed.

Lemma keeps_prefer (p : Track -> bool) (candidates : ref) :
  (n <= candidates)%nat ->
  keeps n (prefer p candidates) (fun r => (n <= r)%nat).
Proof.
  intros H. unfold prefer.
  eapply keeps_bind; [apply keeps_filtered | intros matches Hm].
  eapply keeps_bind; [apply keeps_get_list | intros items _].
  apply keeps_ret. now destruct (nonempty items).
Qed.

Lemma keeps_choice (seq : ref) : keeps n (choice seq) (fun _ => True).
Proof.
  unfold choice.
  eapply keeps_bind; [apply keeps_get_list | intros items _].
  intros s Hs. destruct items; simpl; auto.
Qed.

Lemma keeps_self_tracks (self : ref) :
  keeps n (self_tracks self) (fun _ => True).
Proof. unfold self_tracks. repeat keeps_step. Qed.

Lemma keeps_find_tracks_by_bpm_range (self : ref) (lo hi : Q) :
  keeps n (find_tracks_by_bpm_range self lo hi) (fun r => (n <= r)%nat).
Proof.
  unfold find_tracks_by_bpm_range.
  eapply keeps_bind; [apply keeps_self_tracks | intros tracks _].
  apply keeps_filtered.
Qed.

Lemma keeps_compatible_step (reference : ref) (tol : Q) (key_only : bool)
  (compatible : ref) (x : item) :
  (n <= compatible)%nat ->
  keeps n (compatible_step reference tol key_only compatible x)
        (fun _ => True).
Proof.
  intros H. unfold compatible_step.
  eapply keeps_bind; [apply keeps_as_ref | intros r _].
  eapply keeps_bind; [apply keeps_get_track | intros track _].
  eapply keeps_bind; [apply keeps_get_track | intros ref_track _].
  destruct (TrackMetadata.eqb track ref_track); [now apply keeps_ret|].
  eapply keeps_bind; [apply keeps_lift | intros ratio _].
  destruct (negb _); [now apply keeps_ret|].
  destruct key_only, (TrackMetadata.key ref_track), (TrackMetadata.key track);
    try (now apply keeps_append).
  destruct (negb _); [now apply keeps_ret | now apply keeps_append].
Qed.

(** The store returns a list of its own, not one of the library's. *)
Lemma keeps_get_compatible_tracks (self reference : ref) (tol : Q)
  (key_only : bool) :
  keeps n (get_compatible_tracks self reference tol key_only)
        (fun r => (n <= r)%nat).
Proof.
  unfold get_compatible_tracks.
  eapply keeps_bind; [apply keeps_alloc | intros compatible Hc].
  eapply keeps_bind; [apply keeps_self_tracks | intros tracks _].
  eapply keeps_bind; [apply keeps_get_list | intros items _].
  eapply keeps_bind; [|intros ? _; now apply keeps_ret].
  apply keeps_for_each. intros x. now apply keeps_compatible_step.
Qed.

Variable journey_arc : JourneyArc.t.
Variables strict_key prefer_labels : bool.

Lemma keeps_select_opener (library : ref) :
  keeps n (_select_opener library journey_arc strict_key prefer_labels)
        (fun _ => True).
Proof.
  unfold _select_opener. cbv zeta.
  eapply keeps_bind; [apply keeps_find_tracks_by_bpm_range | intros c1 H1].
  eapply keeps_bind; [apply keeps_filtered | intros c2 H2].
  eapply keeps_bind with (P := fun r => (n <= r)%nat).
  { destruct strict_key, (JourneyArc.key_center journey_arc);
      first [apply keeps_filtered | now apply keeps_ret]. }
  intros c3 H3.
  eapply keeps_bind; [now apply keeps_prefer | intros c4 H4].
  eapply keeps_bind; [now apply keeps_prefer | intros c5 H5].
  eapply keeps_bind with (P := fun r => (n <= r)%nat).
  { destruct (prefer_labels && _);
      [now apply keeps_prefer | now apply keeps_ret]. }
  intros c6 H6.
  eapply keeps_bind; [apply keeps_get_list | intros items _].
  destruct (nonempty items); [|now apply keeps_ret].
  eapply keeps_bind; [apply keeps_choice | intros x _].
  eapply keeps_bind; [apply keeps_as_ref | intros r _].
  now apply keeps_ret.
Qed.

Lemma keeps_unused (already_used : ref) (x : item) :
  keeps n (unused already_used x) (fun _ => True).
Proof.
  unfold unused.
  eapply keeps_bind; [apply keeps_as_ref | intros r _].
  eapply keeps_bind; [apply keeps_get_track | intros t _].
  eapply keeps_bind; [apply keeps_get_list | intros used _].
  now apply keeps_ret.
Qed.

Lemma keeps_select_next_track (library current : ref) (target : Z)
  (already_used : ref) :
  keeps n (_select_next_track library current target journey_arc strict_key
             prefer_labels already_used)
        (fun _ => True).
Proof.
  unfold _select_next_track.
  eapply keeps_bind; [apply keeps_get_compatible_tracks | intros c1 H1].
  eapply keeps_bind.
  { apply keeps_comprehension; intros x;
      [apply keeps_unused | now apply keeps_ret]. }
  intros c2 H2.
  eapply keeps_bind; [apply keeps_filtered | intros c3 H3].
  eapply keeps_bind; [apply keeps_filtered | intros c4 H4].
  eapply keeps_bind; [apply keeps_get_list | intros items _].
  destruct (negb (nonempty items)); [now apply keeps_ret|].
  eapply keeps_bind; [apply keeps_get_track | intros cur _].
  eapply keeps_bind with (P := fun r => (n <= r)%nat).
  { destruct (TrackMetadata.key cur);
      [now apply keeps_prefer | now apply keeps_ret]. }
  intros c5 H5.
  eapply keeps_bind with (P := fun r => (n <= r)%nat).
  { destruct (prefer_labels && _);
      [now apply keeps_prefer | now apply keeps_ret]. }
  intros c6 H6.
  eapply keeps_bind; [apply keeps_alloc | intros scored Hs].
  eapply keeps_bind; [apply keeps_get_list | intros items' _].
  eapply keeps_bind.
  { apply keeps_for_each. intros x.
    eapply keeps_bind; [apply keeps_as_ref | intros r _].
    eapply keeps_bind; [apply keeps_get_track | intros cur' _].
    eapply keeps_bind; [apply keeps_get_track | intros track _].
    cbv zeta. now apply keeps_append. }
  intros ? _.
  eapply keeps_bind; [now apply keeps_sort | intros ? _].
  eapply keeps_bind; [apply keeps_get_list | intros sorted _].
  destruct (len sorted <=? 3).
  - destruct sorted as [|x rest]; [apply keeps_raise|].
    eapply keeps_bind; [apply keeps_scored_track | intros t _].
    now apply keeps_ret.
  - eapply keeps_bind; [apply keeps_alloc | intros top Ht].
    eapply keeps_bind.
    { apply keeps_comprehension; intros x; [now apply keeps_ret|].
      eapply keeps_bind; [apply keeps_scored_track | intros t _].
      now apply keeps_ret. }
    intros picks Hp.
    eapply keeps_bind; [apply keeps_choice | intros x _].
    eapply keeps_bind; [apply keeps_as_ref | intros t _].
    now apply keeps_ret.
Qed.

Lemma keeps_create_transition (track_a track_b : ref) (blend : Z) :
  keeps n (OnHeap._create_transition track_a track_b blend)
        (fun r => (n <= r)%nat).
Proof.
  unfold OnHeap._create_transition.
  eapply keeps_bind; [apply keeps_get_track | intros a _].
  eapply keeps_bind; [apply keeps_get_track | intros b _].
  eapply keeps_bind; [apply keeps_lift | intros tr _].
  apply keeps_alloc.
Qed.

Lemma keeps_fold_total (transitions : list item) :
  forall acc : M Q,
    keeps n acc (fun _ => True) ->
    keeps n
      (fold_left
         (fun acc x =>
            total <~~ acc ;;
            r <~~ as_ref x ;;
            c <~~ read r ;;
            match c with
            | TransitionCell tr =>
                b <~~ get_track (Heap.track_b tr) ;;
                ret (total
                     + (TrackMetadata.duration b
                        - inject_Z (Heap.blend_duration tr)))%Q
            | _ => wrong
            end)
         transitions acc)
      (fun _ => True).
Proof.
  induction transitions as [|x l IH]; intros acc Hacc; simpl; [exact Hacc|].
  apply IH.
  eapply keeps_bind; [exact Hacc | intros total _].
  eapply keeps_bind; [apply keeps_as_ref | intros r _].
  eapply keeps_bind; [apply keeps_read | intros c _].
  destruct c; try apply keeps_wrong.
  eapply keeps_bind; [apply keeps_get_track | intros b _].
  now apply keeps_ret.
Qed.

(** [calculate_duration] writes the playlist it is called on. *)
Lemma keeps_calculate_duration (self : ref) :
  (n <= self)%nat -> keeps n (calculate_duration self) (fun _ => True).
Proof.
  intros H. unfold calculate_duration.
  eapply keeps_bind; [apply keeps_read | intros c _].
  destruct c; try apply keeps_wrong.
  eapply keeps_bind; [apply keeps_get_list | intros tracks _].
  destruct tracks as [|first rest]; [now apply keeps_ret|].
  eapply keeps_bind; [apply keeps_as_ref | intros r _].
  eapply keeps_bind; [apply keeps_get_track | intros t _].
  eapply keeps_bind; [apply keeps_get_list | intros transitions _].
  eapply keeps_bind; [|intros total _; now apply keeps_write].
  apply keeps_fold_total. now apply keeps_ret.
Qed.

Lemma keeps_loop_body (library selected transitions : ref) (i : Z)
  (current : ref) :
  (n <= selected)%nat -> (n <= transitions)%nat ->
  keeps n (loop_body library journey_arc strict_key prefer_labels selected
             transitions i current)
        (fun _ => True).
Proof.
  intros Hs Ht. unfold loop_body. cbv zeta.
  eapply keeps_bind.
  { apply keeps_comprehension; intros x; [now apply keeps_ret|].
    eapply keeps_bind; [apply keeps_as_ref | intros r _].
    eapply keeps_bind; [apply keeps_get_track | intros t _].
    now apply keeps_ret. }
  intros used _.
  eapply keeps_bind; [apply keeps_select_next_track | intros [next|] _];
    [|now apply keeps_ret].
  eapply keeps_bind; [apply keeps_create_transition | intros tr _].
  eapply keeps_bind; [now apply keeps_append | intros ? _].
  eapply keeps_bind; [now apply keeps_append | intros ? _].
  now apply keeps_ret.
Qed.

Lemma keeps_select_loop (library selected transitions : ref)
  (indices : list Z) :
  (n <= selected)%nat -> (n <= transitions)%nat ->
  forall current,
    keeps n (select_loop library journey_arc strict_key prefer_labels selected
               transitions indices current)
          (fun _ => True).
Proof.
  intros Hs Ht. induction indices as [|i indices IH]; intros current; simpl.
  - now apply keeps_ret.
  - eapply keeps_bind; [now apply keeps_loop_body | intros [next|] _];
      [apply IH | now apply keeps_ret].
Qed.

Lemma keeps_generate_playlist (library : ref) :
  keeps n (generate_playlist library journey_arc strict_key prefer_labels)
        (fun r => (n <= r)%nat).
Proof.
  unfold generate_playlist.
  eapply keeps_bind; [apply keeps_alloc | intros selected Hs].
  eapply keeps_bind; [apply keeps_alloc | intros transitions Ht].
  eapply keeps_bind; [apply keeps_select_opener | intros [first|] _];
    [|apply keeps_raise].
  eapply keeps_bind; [now apply keeps_append | intros ? _].
  eapply keeps_bind; [now apply keeps_select_loop | intros ? _].
  eapply keeps_bind; [apply keeps_now | intros created_at _].
  eapply keeps_bind; [apply keeps_alloc | intros playlist Hp].
  eapply keeps_bind; [now apply keeps_calculate_duration | intros ? _].
  now apply keeps_ret.
Qed.
End HeapFrame.

Section HeapView.
Import Heap OnHeap.

Lemma preserved_prefix (h h' : list cell) :
  firstn (List.length h) h' = h -> preserved h h'.
Proof.
  intros E r c H.
  assert (Hr : (r < List.length h)%nat)
    by (apply nth_error_Some; congruence).
  rewrite <- E in H. rewrite nth_error_firstn in H.
  destruct (r <? List.length h)%nat eqn:El; [exact H|].
  apply Nat.ltb_ge in El. lia.
Qed.

Lemma all_some_ext {A B} (f g : A -> option B) (l : list A) (out : list B) :
  (forall x b, f x = Some b -> g x = Some b) ->
  all_some (map f l) = Some out -> all_some (map g l) = Some out.
Proof.
  intros H. revert out. induction l as [|x l IH]; intros out; simpl; auto.
  destruct (f x) as [b|] eqn:E; [|discriminate].
  rewrite (H x b E).
  destruct (all_some (map f l)) as [bs|]; [|discriminate].
  now rewrite (IH bs eq_refl).
Qed.

Lemma view_tracks_preserved (h h' : list cell) (lst : ref) (ts : list Track) :
  preserved h h' -> view_tracks h lst = Some ts -> view_tracks h' lst = Some ts.
Proof.
  intros Hp. unfold view_tracks.
  destruct (nth_error h lst) as [[ | items | | | | | ]|] eqn:E; try discriminate.
  rewrite (Hp _ _ E). apply all_some_ext.
  intros [r | |] t; try discriminate.
  destruct (nth_error h r) as [[t0 | | | | | | ]|] eqn:Er; try discriminate.
  now rewrite (Hp _ _ Er).
Qed.

Lemma view_index_preserved {K} (h h' : list cell) (d : list (K * ref))
  (out : list (K * list Track)) :
  preserved h h' -> view_index h d = Some out -> view_index h' d = Some out.
Proof.
  intros Hp. unfold view_index. apply all_some_ext.
  intros [k lst] b. simpl.
  destruct (view_tracks h lst) as [ts|] eqn:E; [|discriminate].
  now rewrite (view_tracks_preserved _ _ _ _ Hp E).
Qed.

(** A library that can be read from [h] reads the same from any heap that
    preserves [h]. *)
Lemma view_preserved (h h' : list cell) (self : ref) (lib : TrackLibrary.t) :
  preserved h h' -> view h self = Some lib -> view h' self = Some lib.
Proof.
  intros Hp. unfold view.
  destruct (nth_error h self) as [[ | | | | p t bk bb | | ]|] eqn:E;
    try discriminate.
  rewrite (Hp _ _ E).
  destruct (view_tracks h t) as [ts|] eqn:Et; [|discriminate].
  rewrite (view_tracks_preserved _ _ _ _ Hp Et).
  destruct (nth_error h bk) as [[ | | dk | | | | ]|] eqn:Ek; try discriminate.
  destruct (nth_error h bb) as [[ | | | db | | | ]|] eqn:Eb; try discriminate.
  rewrite (Hp _ _ Ek), (Hp _ _ Eb).
  destruct (view_index h dk) as [ik|] eqn:Eik; [|discriminate].
  destruct (view_index h db) as [ib|] eqn:Eib; [|discriminate].
  now rewrite (view_index_preserved _ _ _ _ Hp Eik),
    (view_index_preserved _ _ _ _ Hp Eib).
Qed.
End HeapView.

(** The heap of the samples holds the library of [Samples.small_library].
    Planning on it returns a playlist object whose track list holds the very
    track objects of the library's primary list, the tracks of the playlist
    of [Samples.small_playlist].  [add_track], in contrast, changes the
    lists of the library object in place. *)
Example heap_samples :
  OnHeap.view (Heap.heap HeapSamples.small) HeapSamples.small_library
  = Some Samples.small_library
  /\ nth_error (Heap.heap HeapSamples.small) 0
     = Some (Heap.ListCell [Heap.Obj 4%nat; Heap.Obj 6%nat])
  /\ fst HeapSamples.planned = Heap.Return 28%nat
  /\ nth_error (Heap.heap (snd HeapSamples.planned)) 8
     = Some (Heap.ListCell [Heap.Obj 4%nat; Heap.Obj 6%nat])
  /\ OnHeap.view_tracks (Heap.heap (snd HeapSamples.planned)) 8%nat
     = Some (Playlist.tracks Samples.small_playlist)
  /\ OnHeap.view (Heap.heap HeapSamples.grown) HeapSamples.small_library
     = Some (TrackLibrary.add_track Samples.small_library Samples.t128)
  /\ nth_error (Heap.heap HeapSamples.grown) 0
     = Some (Heap.ListCell [Heap.Obj 4%nat; Heap.Obj 6%nat; Heap.Obj 8%nat]).
Proof. repeat split; vm_compute; reflexivity. Qed.

(** C9.  Objects are held by reference and lists are changed in place.
    Whatever the heap, the library object, the arc and the flags, and
    whether [generate_playlist] returns or raises, every object that
    existed before the call is afterwards at the same address and in the
    same state: the call writes only the lists, transitions and playlist it
    creates.  So the library read back after the call is the library read
    before it: the same primary list, the same by-key and by-BPM indexes,
    the same track objects with every field as it was. *)
Theorem generate_playlist_leaves_library_unchanged
  (library : Heap.ref) (journey_arc : JourneyArc.t)
  (strict_key prefer_labels : bool) (s : Heap.State) :
  let s' :=
    snd (OnHeap.generate_playlist library journey_arc strict_key
           prefer_labels s) in
  firstn (List.length (Heap.heap s)) (Heap.heap s') = Heap.heap s
  /\ OnHeap.preserved (Heap.heap s) (Heap.heap s')
  /\ forall lib,
       OnHeap.view (Heap.heap s) library = Some lib ->
       OnHeap.view (Heap.heap s') library = Some lib.
Proof.
  intros s'.
  destruct (keeps_generate_playlist (List.length (Heap.heap s)) journey_arc
              strict_key prefer_labels library s (Nat.le_refl _))
    as (_ & H & _).
  fold s' in H. rewrite firstn_all in H.
  assert (Hp : OnHeap.preserved (Heap.heap s) (Heap.heap s'))
    by now apply preserved_prefix.
  split; [exact H|]. split; [exact Hp|].
  intros lib. now apply view_preserved.
Qed.

Lemma generate_playlist_leaves_library_unchanged_witness :
  OnHeap.view (Heap.heap HeapSamples.small) HeapSamples.small_library
  = Some Samples.small_library
  /\ OnHeap.view (Heap.heap (snd HeapSamples.planned))
       HeapSamples.small_library
     = Some Samples.small_library.
Proof.
  assert (H : OnHeap.view (Heap.heap HeapSamples.small)
                HeapSamples.small_library
              = Some Samples.small_library)
    by (vm_compute; reflexivity).
  split; [exact H|].
  exact (proj2 (proj2 (generate_playlist_leaves_library_unchanged
                         HeapSamples.small_library (Samples.arc None)
                         false true HeapSamples.small))
           Samples.small_library H).
Defined.

(* ------------------------------------------------------------------ *)
(** ** Opener selection *)

Section Opener.
Import TrackMetadata PlanM JourneyPlanner.
Variable journey_arc : JourneyArc.t.
Variables strict_key prefer_labels : bool.

(** The final opener candidates are the mandatory ones narrowed by the
    three preferences, in this order. *)
Lemma opener_candidates_unfold (lib : TrackLibrary.t) :
  opener_candidates lib journey_arc strict_key prefer_labels
  = let c := Run.mandatory_opener_candidates lib journey_arc strict_key in
    let c :=
      prefer (fun t => option_eqb position_eqb (journey_position t)
                                  (Some OPENER)) c in
    let c :=
      prefer (fun t => has_texture ATMOSPHERIC t || has_texture MINIMAL t) c in
    if prefer_labels && nonempty (JourneyArc.preferred_labels journey_arc)
    then prefer (label_matches (JourneyArc.preferred_labels journey_arc)) c
    else c.
Proof.
  unfold opener_candidates, Run.mandatory_opener_candidates.
  destruct strict_key, (JourneyArc.key_center journey_arc); reflexivity.
Qed.

Lemma opener_candidates_nil (lib : TrackLibrary.t) :
  opener_candidates lib journey_arc strict_key prefer_labels = []
  <-> Run.mandatory_opener_candidates lib journey_arc strict_key = [].
Proof.
  rewrite opener_candidates_unfold. cbv zeta.
  destruct (prefer_labels && _); rewrite !prefer_nil; reflexivity.
Qed.

Lemma select_opener_none (s : PlannerState) :
  Run.mandatory_opener_candidates (library s) journey_arc strict_key = [] ->
  _select_opener journey_arc strict_key prefer_labels s = (Ok None, s).
Proof.
  intros H. apply opener_candidates_nil in H.
  unfold _select_opener, mbind, get_library. rewrite H. reflexivity.
Qed.

Lemma select_opener_some (s : PlannerState) :
  Run.mandatory_opener_candidates (library s) journey_arc strict_key <> [] ->
  exists t s',
    _select_opener journey_arc strict_key prefer_labels s = (Ok (Some t), s')
    /\ In t (opener_candidates (library s) journey_arc strict_key
               prefer_labels).
Proof.
  intros H. rewrite <- opener_candidates_nil in H.
  destruct (choice_nonempty _ s H) as (t & s' & Hc & Hin).
  exists t, s'. split; [|exact Hin].
  unfold _select_opener, mbind, get_library.
  apply nonempty_true in H. rewrite H, Hc. reflexivity.
Qed.

Lemma generate_playlist_after_opener (s : PlannerState) t s' :
  _select_opener journey_arc strict_key prefer_labels s = (Ok (Some t), s') ->
  fst (generate_playlist journey_arc strict_key prefer_labels s)
  <> Raise no_opener.
Proof.
  intros Ho. unfold generate_playlist.
  rewrite (mbind_ok _ _ _ _ _ Ho).
  match goal with
  | |- fst (?c s') <> _ =>
      assert (R : raises_only arithmetic_or_index c)
  end.
  { apply raises_mbind; [apply raises_select_loop|]. intros st. raises. }
  match goal with
  | |- fst (?c s') <> _ => destruct (c s') as [[p|e] s2] eqn:E
  end; simpl; [discriminate|].
  intros He. injection He as ->.
  apply R in E. destruct E as [E | E]; discriminate E.
Qed.
End Opener.

(** C2, as stated, fails: the only track of the library is inside the
    arc's tempo range with energy equal to the curve's first value, but its
    key 3A is not compatible with the key centre 8A; under [strict_key] the
    key filter is not reverted and the opener error is raised. *)
Lemma strict_key_opener_counterexample :
  Run.tempo_energy_candidates Samples.library_3A
    (Samples.arc (Some B_FLAT_MINOR)) = [Samples.in_3A]
  /\ fst (JourneyPlanner.generate_playlist (Samples.arc (Some B_FLAT_MINOR))
            true true (Samples.state Samples.library_3A))
     = Raise JourneyPlanner.no_opener.
Proof. split; vm_compute; reflexivity. Qed.

(** C2, amended.  [generate_playlist] raises the opener error exactly when
    no track passes the filters that are never reverted: tempo range,
    energy within one level of the curve's first value (2 for an empty
    curve) and, under [strict_key] with a key centre, key compatibility with
    the centre.  In that case the call produces the exception and nothing
    else, in the state it started from.  The three preferences (opener
    position, atmospheric or minimal texture, preferred label) are applied
    on top of those filters, each one reverting to its input when nothing
    matches, so they never empty the candidates.  Without [strict_key], or
    without a key centre, the mandatory filters are tempo and energy
    alone. *)
Theorem no_opener_iff_mandatory_filters_empty
  (journey_arc : JourneyArc.t) (strict_key prefer_labels : bool)
  (s : PlanM.PlannerState) :
  let lib := PlanM.library s in
  let mandatory :=
    Run.mandatory_opener_candidates lib journey_arc strict_key in
  (fst (JourneyPlanner.generate_playlist journey_arc strict_key prefer_labels s)
   = Raise JourneyPlanner.no_opener
   <-> mandatory = [])
  /\ (mandatory = [] ->
      JourneyPlanner.generate_playlist journey_arc strict_key prefer_labels s
      = (Raise JourneyPlanner.no_opener, s))
  /\ JourneyPlanner.opener_candidates lib journey_arc strict_key prefer_labels
     = (let c := mandatory in
        let c :=
          JourneyPlanner.prefer
            (fun t => option_eqb position_eqb
                        (TrackMetadata.journey_position t) (Some OPENER)) c in
        let c :=
          JourneyPlanner.prefer
            (fun t => JourneyPlanner.has_texture ATMOSPHERIC t
                      || JourneyPlanner.has_texture MINIMAL t) c in
        if prefer_labels && nonempty (JourneyArc.preferred_labels journey_arc)
        then JourneyPlanner.prefer
               (JourneyPlanner.label_matches
                  (JourneyArc.preferred_labels journey_arc)) c
        else c)
  /\ (forall p l, filter p l = [] -> JourneyPlanner.prefer p l = l)
  /\ (forall p l, JourneyPlanner.prefer p l = [] <-> l = [])
  /\ (strict_key = false \/ JourneyArc.key_center journey_arc = None ->
      mandatory = Run.tempo_energy_candidates lib journey_arc).
Proof.
  intros lib mandatory.
  assert (Hraise :
            mandatory = [] ->
            JourneyPlanner.generate_playlist journey_arc strict_key
              prefer_labels s
            = (Raise JourneyPlanner.no_opener, s)).
  { intros H. unfold JourneyPlanner.generate_playlist.
    rewrite (mbind_ok _ _ _ _ _
               (select_opener_none journey_arc strict_key prefer_labels s H)).
    reflexivity. }
  split; [|split; [exact Hraise|split; [|split; [|split]]]].
  - split.
    + intros Hr.
      destruct mandatory as [|t0 rest] eqn:E; [reflexivity|]. exfalso.
      destruct (select_opener_some journey_arc strict_key prefer_labels s)
        as (t & s' & Ho & _).
      { fold lib. fold mandatory. rewrite E. discriminate. }
      exact (generate_playlist_after_opener _ _ _ _ _ _ Ho Hr).
    + intros H. now rewrite Hraise.
  - apply opener_candidates_unfold.
  - apply prefer_revert.
  - apply prefer_nil.
  - unfold mandatory, Run.tempo_energy_candidates,
      Run.mandatory_opener_candidates.
    intros [-> | ->]; [reflexivity|]. now destruct strict_key.
Qed.

(* ------------------------------------------------------------------ *)
(** ** Successor selection *)

Section Successor.
Import TrackMetadata PlanM JourneyPlanner.
Variable journey_arc : JourneyArc.t.
Variables strict_key prefer_labels : bool.

Lemma used_spec (used : list Path.t) (t : Track) :
  negb (existsb (Path.eqb (file_path t)) used) = true
  <-> ~ In (file_path t) used.
Proof.
  rewrite negb_true_iff. split.
  - intros H Hin.
    assert (E : existsb (Path.eqb (file_path t)) used = true).
    { apply existsb_exists. exists (file_path t). split; [exact Hin|].
      apply path_eqb_refl. }
    congruence.
  - intros H. destruct (existsb _ used) eqn:E; [|reflexivity].
    apply existsb_exists in E. destruct E as (x & Hx & Ex).
    apply path_eqb_eq in Ex. subst x. contradiction.
Qed.

(** The three hard filters of a successor search, as one test. *)
Lemma hard_filters (target : Z) (used : list Path.t) (l : list Track) :
  filter (fun t => Qle_bool (fst (JourneyArc.bpm_range journey_arc)) (bpm t)
                   && Qle_bool (bpm t)
                        (snd (JourneyArc.bpm_range journey_arc)))
    (filter (energy_near target)
       (filter (fun t => negb (existsb (Path.eqb (file_path t)) used)) l))
  = filter (successor_filter journey_arc target used) l.
Proof.
  rewrite !filter_filter. apply filter_ext. intros t.
  unfold successor_filter. now rewrite andb_assoc.
Qed.

(** The soft narrowing and ranking keep the pick inside the hard-filtered
    candidates. *)
Lemma ranked_incl (current : Track) (target : Z) (c3 : list Track) t sc :
  In (t, sc)
     (sort_desc
        (map (fun track =>
                (track, _score_track_compatibility current track target))
             (if prefer_labels
                 && nonempty (JourneyArc.preferred_labels journey_arc)
              then prefer (label_matches
                             (JourneyArc.preferred_labels journey_arc))
                     match key current with
                     | Some kc =>
                         prefer (fun t => match key t with
                                          | Some kt =>
                                              TrackLibrary.are_keys_compatible
                                                kc kt
                                          | None => false
                                          end) c3
                     | None => c3
                     end
              else match key current with
                   | Some kc =>
                       prefer (fun t => match key t with
                                        | Some kt =>
                                            TrackLibrary.are_keys_compatible
                                              kc kt
                                        | None => false
                                        end) c3
                   | None => c3
                   end))) ->
  In t c3.
Proof.
  rewrite sort_desc_in, in_map_iff. intros (x & Hx & Hin).
  injection Hx as -> _.
  assert (Hkey : forall y,
             In y match key current with
                  | Some kc =>
                      prefer (fun t => match key t with
                                       | Some kt =>
                                           TrackLibrary.are_keys_compatible
                                             kc kt
                                       | None => false
                                       end) c3
                  | None => c3
                  end -> In y c3).
  { intros y. destruct (key current); [apply prefer_incl | auto]. }
  destruct (prefer_labels && _); [apply prefer_incl in Hin|]; auto.
Qed.

Lemma select_next_track_some current target used s t s' :
  _select_next_track current target journey_arc strict_key prefer_labels
    used s = (Ok (Some t), s') ->
  In t (TrackLibrary.tracks (library s)) /\ ~ In (file_path t) used.
Proof.
  unfold _select_next_track. intros H.
  apply mbind_ok_inv in H. destruct H as (lib & s1 & Hlib & H).
  unfold get_library in Hlib. injection Hlib as <- <-.
  apply mbind_ok_inv in H. destruct H as (c0 & s2 & Hc0 & H).
  unfold lift in Hc0. injection Hc0 as Hc0 <-.
  apply get_compatible_tracks_incl in Hc0.
  cbv zeta in H. rewrite !hard_filters in H.
  set (c3 := filter (successor_filter journey_arc target used) c0) in H.
  assert (Hc3 : forall x, In x c3 ->
              In x (TrackLibrary.tracks (library s))
              /\ ~ In (file_path x) used).
  { intros x Hx. apply filter_In in Hx. destruct Hx as [Hx Hf].
    split; [now apply Hc0|].
    unfold successor_filter in Hf. rewrite !andb_true_iff in Hf.
    now apply used_spec. }
  destruct (negb (nonempty c3)); [discriminate H|].
  match type of H with
  | context [sort_desc ?l] => set (sorted := sort_desc l) in H
  end.
  assert (Hs : forall x sc, In (x, sc) sorted -> In x c3).
  { intros x sc. apply ranked_incl. }
  clearbody sorted.
  destruct (len sorted <=? 3).
  - destruct sorted as [|[t0 sc] rest]; [discriminate H|].
    injection H as -> _. apply Hc3, (Hs t sc). now left.
  - apply mbind_ok_inv in H. destruct H as (x & s3 & Hch & H).
    injection H as -> _.
    apply choice_ok_inv in Hch. apply in_map_iff in Hch.
    destruct Hch as ([t0 sc] & E & Hin). simpl in E. subst t0.
    apply firstn_incl in Hin. now apply Hc3, (Hs t sc).
Qed.
End Successor.

Section Loop.
Import TrackMetadata PlanM JourneyPlanner.
Variable journey_arc : JourneyArc.t.
Variables strict_key prefer_labels : bool.


Lemma loop_body_some i st s st' s' :
  loop_body journey_arc strict_key prefer_labels i st s = (Ok (Some st'), s') ->
  exists next transition,
    In next (TrackLibrary.tracks (library s))
    /\ ~ In (file_path next) (map file_path (selected_tracks st))
    /\ st' = mkLoop (selected_tracks st ++ [next])
                    (transitions st ++ [transition]) next.
Proof.
  unfold loop_body. cbv zeta. intros H.
  apply mbind_ok_inv in H. destruct H as ([next|] & s1 & Hn & H).
  - apply select_next_track_some in Hn. destruct Hn as [Hin Hused].
    apply mbind_ok_inv in H. destruct H as (tr & s2 & _ & H).
    injection H as <- _. exists next, tr. auto.
  - discriminate H.
Qed.




(** The selected file paths stay pairwise distinct along the loop. *)
Lemma select_loop_nodup indices :
  forall st s st' s',
    select_loop journey_arc strict_key prefer_labels indices st s
    = (Ok st', s') ->
    NoDup (map file_path (selected_tracks st)) ->
    NoDup (map file_path (selected_tracks st')).
Proof.
  induction indices as [|i indices IH]; intros st s st' s'; simpl.
  - intros H. now injection H as <- _.
  - intros H Hnd. apply mbind_ok_inv in H.
    destruct H as ([st1|] & s1 & Hb & H).
    + apply (IH _ _ _ _ H).
      apply loop_body_some in Hb. destruct Hb as (next & tr & _ & Hu & ->).
      simpl. rewrite map_app. simpl.
      apply NoDup_app; [exact Hnd | repeat constructor; intros [] | ].
      intros x Hx [<- | []]. contradiction.
    + now injection H as <- _.
Qed.

Lemma calculate_duration_keeps (p : Playlist.t) :
  Playlist.tracks (Playlist.calculate_duration p) = Playlist.tracks p
  /\ Playlist.transitions (Playlist.calculate_duration p)
     = Playlist.transitions p.
Proof.
  unfold Playlist.calculate_duration.
  destruct (Playlist.tracks p) eqn:E; simpl; auto.
Qed.

(** A returned playlist holds the locals of the loop when it ended. *)
Lemma generate_playlist_ok_inv s p s' :
  generate_playlist journey_arc strict_key prefer_labels s = (Ok p, s') ->
  exists first s1 st,
    _select_opener journey_arc strict_key prefer_labels s
    = (Ok (Some first), s1)
    /\ select_loop journey_arc strict_key prefer_labels
         (range2 1 (JourneyArc.num_tracks journey_arc))
         (mkLoop [first] [] first) s1 = (Ok st, s')
    /\ Playlist.tracks p = selected_tracks st
    /\ Playlist.transitions p = transitions st.
Proof.
  unfold generate_playlist. intros H.
  apply mbind_ok_inv in H. destruct H as ([first|] & s1 & Ho & H);
    [|discriminate H].
  apply mbind_ok_inv in H. destruct H as (st & s2 & Hl & H).
  apply mbind_ok_inv in H. destruct H as (now & s3 & Hn & H).
  unfold now_isoformat in Hn. injection Hn as _ <-.
  cbv zeta in H. injection H as <- <-.
  exists first, s1, st. repeat split; auto;
    apply calculate_duration_keeps.
Qed.
End Loop.

(** C10.  In every playlist returned by [generate_playlist] the file paths
    of the selected tracks are pairwise distinct. *)
Theorem playlist_tracks_distinct_by_file_path
  (journey_arc : JourneyArc.t) (strict_key prefer_labels : bool)
  (s s' : PlanM.PlannerState) (p : Playlist.t) :
  JourneyPlanner.generate_playlist journey_arc strict_key prefer_labels s
  = (Ok p, s') ->
  NoDup (map TrackMetadata.file_path (Playlist.tracks p)).
Proof.
  intros H. apply generate_playlist_ok_inv in H.
  destruct H as (first & s1 & st & _ & Hl & -> & _).
  apply select_loop_nodup in Hl; [exact Hl|].
  simpl. repeat constructor. intros [].
Qed.

Lemma playlist_tracks_distinct_by_file_path_witness :
  JourneyPlanner.generate_playlist (Samples.arc None) false true
    (Samples.state Samples.small_library)
  = (Ok Samples.small_playlist, snd Samples.small_run)
  /\ NoDup (map TrackMetadata.file_path
              (Playlist.tracks Samples.small_playlist)).
Proof.
  assert (H : JourneyPlanner.generate_playlist (Samples.arc None) false true
                (Samples.state Samples.small_library)
              = (Ok Samples.small_playlist, snd Samples.small_run))
    by (vm_compute; reflexivity).
  exact (conj H (playlist_tracks_distinct_by_file_path _ _ _ _ _ _ H)).
Defined.




(* ================================================================== *)
(** * Further properties of the library and the planner *)

(* ------------------------------------------------------------------ *)
(** ** Camelot wheel *)

Lemma are_keys_compatible_wheel_bool (k1 k2 : MusicalKey) :
  TrackLibrary.are_keys_compatible k1 k2
  = (TrackLibrary.camelot_number k1 =? TrackLibrary.camelot_number k2)
    || (option_eqb Ascii.eqb (TrackLibrary.camelot_letter k1)
                   (TrackLibrary.camelot_letter k2)
        && (Queries.wheel_distance (TrackLibrary.camelot_number k1)
                                   (TrackLibrary.camelot_number k2) =? 1)).
Proof. destruct k1, k2; vm_compute; reflexivity. Qed.

(** X1.  Key compatibility is reflexive and symmetric over all 24 keys. *)
Theorem are_keys_compatible_refl_sym (k1 k2 : MusicalKey) :
  TrackLibrary.are_keys_compatible k1 k1 = true
  /\ TrackLibrary.are_keys_compatible k1 k2
     = TrackLibrary.are_keys_compatible k2 k1.
Proof.
  split.
  - unfold TrackLibrary.are_keys_compatible, key_eqb.
    destruct (MusicalKey_eq_dec k1 k1); [reflexivity | contradiction].
  - destruct k1, k2; vm_compute; reflexivity.
Qed.

(** X2.  Two keys are compatible exactly when they have the same Camelot
    number, or the same letter and numbers one step apart around the wheel
    of twelve (12 and 1 are neighbours); every key is compatible with
    exactly four keys: itself, its relative major or minor and its two
    neighbours. *)
Theorem are_keys_compatible_wheel (k1 k2 : MusicalKey) :
  (TrackLibrary.are_keys_compatible k1 k2 = true <->
   TrackLibrary.camelot_number k1 = TrackLibrary.camelot_number k2
   \/ (TrackLibrary.camelot_letter k1 = TrackLibrary.camelot_letter k2
       /\ Queries.wheel_distance (TrackLibrary.camelot_number k1)
                                 (TrackLibrary.camelot_number k2) = 1))
  /\ List.length (filter (TrackLibrary.are_keys_compatible k1)
                         Queries.all_keys) = 4%nat
  /\ In k2 Queries.all_keys.
Proof.
  split; [|split].
  - rewrite are_keys_compatible_wheel_bool, orb_true_iff, andb_true_iff,
      !Z.eqb_eq.
    assert (L : option_eqb Ascii.eqb (TrackLibrary.camelot_letter k1)
                           (TrackLibrary.camelot_letter k2) = true
                <-> TrackLibrary.camelot_letter k1
                    = TrackLibrary.camelot_letter k2).
    { destruct (TrackLibrary.camelot_letter k1) as [a|],
               (TrackLibrary.camelot_letter k2) as [b|]; simpl;
        try (split; congruence).
      rewrite Ascii.eqb_eq. split; congruence. }
    rewrite L. reflexivity.
  - destruct k1; vm_compute; reflexivity.
  - destruct k2; simpl; tauto.
Qed.

(* ------------------------------------------------------------------ *)
(** ** Secondary indexes *)

Section Indexes.
Import TrackMetadata.

Lemma dict_get_append {K V} (eqb : K -> K -> bool)
  (eqb_spec : forall a b, eqb a b = true <-> a = b)
  (k k' : K) (v : V) (d : list (K * list V)) :
  Queries.dict_get eqb k (TrackLibrary.dict_append eqb k' v d) []
  = if eqb k' k then Queries.dict_get eqb k d [] ++ [v]
    else Queries.dict_get eqb k d [].
Proof.
  induction d as [|[k0 vs] d IH]; simpl.
  - destruct (eqb k' k); reflexivity.
  - destruct (eqb k0 k') eqn:E0; simpl.
    + apply eqb_spec in E0. subst k0. destruct (eqb k' k); reflexivity.
    + destruct (eqb k0 k) eqn:E1; [|exact IH].
      destruct (eqb k' k) eqn:E2; [|reflexivity].
      apply eqb_spec in E1, E2. subst. 
      assert (eqb k k = true) by now apply eqb_spec. congruence.
Qed.

Lemma key_eqb_spec (a b : MusicalKey) : key_eqb a b = true <-> a = b.
Proof. unfold key_eqb. destruct (MusicalKey_eq_dec a b); split; congruence. Qed.

Lemma filter_snoc {A} (f : A -> bool) (l : list A) (x : A) :
  filter f (l ++ [x]) = filter f l ++ (if f x then [x] else []).
Proof. rewrite filter_app. reflexivity. Qed.

Lemma add_track_agrees (lib : TrackLibrary.t) (t : Track) :
  Queries.agrees lib -> Queries.agrees (TrackLibrary.add_track lib t).
Proof.
  intros [Hk Hb]. unfold Queries.agrees, Queries.find_tracks_by_key in *.
  unfold TrackLibrary.add_track. simpl. split.
  - intros k. rewrite filter_snoc. destruct (key t) as [kt|] eqn:E; simpl.
    + rewrite (dict_get_append key_eqb key_eqb_spec), Hk.
      destruct (key_eqb kt k); [reflexivity | now rewrite app_nil_r].
    + now rewrite Hk, app_nil_r.
  - intros b. rewrite filter_snoc.
    rewrite (dict_get_append Z.eqb Z.eqb_eq), Hb.
    destruct (int (bpm t) =? b); [reflexivity | now rewrite app_nil_r].
Qed.

Lemma fold_add_track (l : list Track) :
  forall lib,
    Queries.agrees lib ->
    Queries.agrees (fold_left TrackLibrary.add_track l lib)
    /\ TrackLibrary.tracks (fold_left TrackLibrary.add_track l lib)
       = TrackLibrary.tracks lib ++ l
    /\ TrackLibrary.library_path (fold_left TrackLibrary.add_track l lib)
       = TrackLibrary.library_path lib.
Proof.
  induction l as [|t l IH]; intros lib H; simpl.
  - rewrite app_nil_r. auto.
  - destruct (IH _ (add_track_agrees lib t H)) as (H1 & H2 & H3).
    split; [exact H1|]. split; [|exact H3].
    rewrite H2. simpl. now rewrite <- app_assoc.
Qed.
End Indexes.

(** X3.  In a library filled by [add_track], the primary list holds the
    tracks in insertion order, the by-key index returns for every key the
    tracks carrying that key, and the by-BPM index holds under every
    integer the tracks whose tempo truncates to it, each in insertion
    order. *)
Theorem indexes_agree_with_track_list (l : list Track) (k : MusicalKey)
  (b : Z) :
  let lib := TrackLibrary.of_tracks l in
  TrackLibrary.tracks lib = l
  /\ Queries.find_tracks_by_key lib k
     = filter (fun t => option_eqb key_eqb (TrackMetadata.key t) (Some k)) l
  /\ Queries.dict_get Z.eqb b (TrackLibrary.tracks_by_bpm lib) []
     = filter (fun t => int (TrackMetadata.bpm t) =? b) l.
Proof.
  intros lib. unfold lib, TrackLibrary.of_tracks.
  destruct (fold_add_track l TrackLibrary.empty) as ([Hk Hb] & Ht & _).
  { split; intros; reflexivity. }
  simpl in Ht. rewrite Ht in Hk, Hb. auto.
Qed.

(* ------------------------------------------------------------------ *)
(** ** Serialization round trips *)

Section RoundTrip.
Import TrackMetadata Queries Persist.

Lemma MusicalKey_of_value (k : MusicalKey) :
  MusicalKey_of (JStr (value k)) = Done k
  /\ truthy (JStr (value k)) = true.
Proof. destruct k; split; reflexivity. Qed.

Lemma TextureType_of_value (x : TextureType) :
  TextureType_of (JStr (texture_value x)) = Done x.
Proof. destruct x; reflexivity. Qed.

Lemma JourneyPosition_of_value (x : JourneyPosition) :
  JourneyPosition_of (JStr (position_value x)) = Done x
  /\ truthy (JStr (position_value x)) = true.
Proof. destruct x; split; reflexivity. Qed.

Lemma omap_map {A B} (f : B -> outcome A) (g : A -> B) (l : list A) :
  (forall x, f (g x) = Done x) -> omap f (map g l) = Done l.
Proof.
  intros H. induction l as [|x l IH]; simpl; [reflexivity|].
  now rewrite H, IH.
Qed.

Lemma cue_round_trip (cp : CuePoint.t) : cue_of_dict (cue_to_dict cp) = Done cp.
Proof. destruct cp as [t l [c|] conf]; reflexivity. Qed.

Lemma as_opt_json_opt {A} (view : string -> json -> outcome A)
  (inj : A -> json) (field : string) (x : option A) :
  (forall v, view field (inj v) = Done v) ->
  (forall v, inj v <> JNull) ->
  as_opt view field (json_opt inj x) = Done x.
Proof.
  intros Hv Hn. destruct x as [v|]; simpl; [|reflexivity].
  unfold as_opt. specialize (Hn v). destruct (inj v) eqn:E;
    try contradiction; rewrite <- E, Hv; reflexivity.
Qed.

Lemma from_to_dict (t : Track) : from_dict (to_dict t) = Done t.
Proof.
  destruct t as [fp ti ar b k du en tx jp la ge i1 i2 o1 o2 cps nb db yr tg nt].
  unfold from_dict, to_dict, enum_if_truthy, get, get_default, item.
  cbn -[omap MusicalKey_of JourneyPosition_of TextureType_of cue_of_dict
        truthy json_opt as_opt as_list Path.of_string Path.str].
  assert (Hk : forall B (f : option MusicalKey -> outcome B),
             obind (if truthy (json_opt (fun k => JStr (value k)) k)
                    then obind (MusicalKey_of
                                  (json_opt (fun k => JStr (value k)) k))
                               (fun m => Done (Some m))
                    else Done None) f = f k).
  { intros B f. destruct k as [k|]; [|reflexivity]. cbn [json_opt].
    destruct (MusicalKey_of_value k) as [-> ->]. reflexivity. }
  rewrite Hk.
  rewrite (omap_map _ _ tx TextureType_of_value). cbn [obind].
  assert (Hp : forall B (f : option JourneyPosition -> outcome B),
             obind (if truthy (json_opt (fun p => JStr (position_value p)) jp)
                    then obind (JourneyPosition_of
                                  (json_opt (fun p => JStr (position_value p))
                                            jp))
                               (fun m => Done (Some m))
                    else Done None) f = f jp).
  { intros B f. destruct jp as [p|]; [|reflexivity]. cbn [json_opt].
    destruct (JourneyPosition_of_value p) as [-> ->]. reflexivity. }
  rewrite Hp.
  rewrite !(as_opt_json_opt as_str JStr) by (intros; (reflexivity || discriminate)).
  rewrite !(as_opt_json_opt as_num JFloat) by (intros; (reflexivity || discriminate)).
  rewrite !(as_opt_json_opt as_int JInt) by (intros; (reflexivity || discriminate)).
  unfold as_list.
  rewrite !(omap_map (as_str _) JStr) by reflexivity.
  rewrite (omap_map (as_num _) JFloat) by reflexivity.
  rewrite (omap_map _ _ cps cue_round_trip).
  rewrite of_string_str. reflexivity.
Qed.
End RoundTrip.

Section SaveLoad.
Import TrackMetadata Queries Persist.

Lemma index_track_add_track (l : list Track) :
  forall lib,
    fold_left index_track l
      (TrackLibrary.tracks_by_key lib, TrackLibrary.tracks_by_bpm lib)
    = (TrackLibrary.tracks_by_key (fold_left TrackLibrary.add_track l lib),
       TrackLibrary.tracks_by_bpm (fold_left TrackLibrary.add_track l lib)).
Proof.
  induction l as [|t l IH]; intros lib; simpl; [reflexivity|].
  rewrite <- IH. reflexivity.
Qed.

Lemma lookup_write (path : string) (data : json) (fs : files) :
  read path (write path data fs) = Some data.
Proof. unfold read, write. simpl. now rewrite String.eqb_refl. Qed.

Lemma load_written (self : TrackLibrary.t) (path : string)
  (tracks : list Track) (fs : files) :
  TrackLibrary.library_path self = Some path ->
  load self None
       (write path (JDict [("tracks", JList (map to_dict tracks));
                           ("version", JStr "0.1.0")]) fs)
  = Done (TrackLibrary.mk (Some path) tracks
            (TrackLibrary.tracks_by_key (TrackLibrary.of_tracks tracks))
            (TrackLibrary.tracks_by_bpm (TrackLibrary.of_tracks tracks))).
Proof.
  intros Hp. unfold load, path_or. rewrite Hp, lookup_write.
  cbn [item lookup String.eqb Ascii.eqb Bool.eqb obind iter].
  rewrite (omap_map from_dict to_dict tracks from_to_dict). cbn [obind].
  change ([], []) with (TrackLibrary.tracks_by_key TrackLibrary.empty,
                        TrackLibrary.tracks_by_bpm TrackLibrary.empty).
  rewrite index_track_add_track. reflexivity.
Qed.
End SaveLoad.

(** X4.  Deserializing the dict written for a track gives the track back,
    field for field, absent optional fields staying absent; hence two
    tracks with the same dict are the same track. *)
Theorem from_dict_to_dict (t : Track) :
  Persist.from_dict (Persist.to_dict t) = Persist.Done t
  /\ forall t', Persist.to_dict t = Persist.to_dict t' -> t = t'.
Proof.
  split; [apply from_to_dict|].
  intros t' E.
  pose proof (from_to_dict t) as H. rewrite E, from_to_dict in H.
  now injection H.
Qed.

(** X5.  A library opened on a path, filled with [add_track] and saved is
    read back unchanged, by [load] as by opening the path again: same tracks
    in the same order, same by-key and by-BPM indexes. *)
Theorem saved_library_reloads (path : string) (l : list Track)
  (fs : Persist.files) :
  let lib :=
    fold_left TrackLibrary.add_track l (TrackLibrary.mk (Some path) [] [] [])
  in
  exists fs',
    Persist.save lib None fs = Persist.Done fs'
    /\ Persist.load lib None fs' = Persist.Done lib
    /\ Persist.init (Some path) fs' = Persist.Done lib.
Proof.
  intros lib.
  assert (Hshape :
            lib = TrackLibrary.mk (Some path) l
                    (TrackLibrary.tracks_by_key (TrackLibrary.of_tracks l))
                    (TrackLibrary.tracks_by_bpm (TrackLibrary.of_tracks l))).
  { unfold lib, TrackLibrary.of_tracks.
    pose proof (index_track_add_track l (TrackLibrary.mk (Some path) [] [] []))
      as H1.
    pose proof (index_track_add_track l TrackLibrary.empty) as H2.
    simpl in H1, H2. rewrite H1 in H2. injection H2 as Hk Hb.
    destruct (fold_add_track l (TrackLibrary.mk (Some path) [] [] []))
      as (_ & Ht & Hpth).
    { split; intros; reflexivity. }
    simpl in Ht, Hpth.
    destruct (fold_left TrackLibrary.add_track l
                (TrackLibrary.mk (Some path) [] [] [])) as [p tr bk bb].
    simpl in *. congruence. }
  assert (Hpath : TrackLibrary.library_path lib = Some path)
    by (rewrite Hshape; reflexivity).
  assert (Htracks : TrackLibrary.tracks lib = l)
    by (rewrite Hshape; reflexivity).
  eexists. split; [|split].
  - unfold Persist.save, Persist.path_or. rewrite Hpath. reflexivity.
  - cbv zeta. rewrite Htracks, (load_written lib path l fs Hpath).
    now rewrite Hshape.
  - cbv zeta. unfold Persist.init. rewrite lookup_write.
    rewrite Htracks,
      (load_written (TrackLibrary.mk (Some path) [] [] []) path l fs eq_refl).
    now rewrite Hshape.
Qed.

(** X6.  Edge cases of [from_dict]: a dict holding only the four required
    keys gives a track with every other field at its dataclass default and
    with the path [Path(data["file_path"])], whose string is the normal form
    of the stored one (["./c.wav"] is read as [c.wav], ["a//b/./c.wav"] as
    [a/b/c.wav]); a dict without ["file_path"] raises [KeyError]; a stored
    key that is not the value of any [MusicalKey] raises [ValueError],
    except the empty string, which is falsy and read as no key. *)
Theorem from_dict_edge_cases (fp ti ar : string) (b : Q) :
  let required :=
    [("file_path", Persist.JStr fp); ("title", Persist.JStr ti);
     ("artist", Persist.JStr ar); ("bpm", Persist.JFloat b)] in
  let defaults :=
    TrackMetadata.mk (Path.of_string fp) ti ar b None 0 5 [] None None []
      None None None None [] None [] None [] "" in
  Persist.from_dict (Persist.JDict required) = Persist.Done defaults
  /\ Path.str (TrackMetadata.file_path defaults) = Path.normalize fp
  /\ Path.normalize "./c.wav" = "c.wav"
  /\ Path.normalize "a//b/./c.wav" = "a/b/c.wav"
  /\ (forall d, Persist.lookup "file_path" d = None ->
                Persist.from_dict (Persist.JDict d)
                = Persist.Fail (Persist.KeyError "file_path"))
  /\ (forall s, s <> "" -> (forall k, value k <> s) ->
                Persist.from_dict
                  (Persist.JDict (required ++ [("key", Persist.JStr s)]))
                = Persist.Fail (Persist.ValueError "MusicalKey"))
  /\ Persist.from_dict (Persist.JDict (required ++ [("key", Persist.JStr "")]))
     = Persist.Done defaults.
Proof.
  intros required defaults. split; [reflexivity|].
  split; [apply str_of_string|].
  split; [reflexivity|]. split; [reflexivity|]. split; [|split].
  - intros d Hd. unfold Persist.from_dict, Persist.item. now rewrite Hd.
  - intros s Hs Hv.
    unfold Persist.from_dict, Persist.item, required, Persist.enum_if_truthy,
      Persist.get.
    cbn [app Persist.lookup String.eqb Ascii.eqb Bool.eqb Persist.obind
         Persist.as_str Persist.as_num Persist.truthy].
    assert (E : String.eqb s "" = false) by now apply String.eqb_neq.
    rewrite E. cbn [negb].
    assert (F : Persist.MusicalKey_of (Persist.JStr s)
                = Persist.Fail (Persist.ValueError "MusicalKey")).
    { unfold Persist.MusicalKey_of, Persist.enum_of_value.
      destruct (find _ Queries.all_keys) as [m|] eqn:Ef; [|reflexivity].
      apply find_some in Ef. destruct Ef as [_ Ef].
      apply String.eqb_eq in Ef. now apply Hv in Ef. }
    rewrite F. reflexivity.
  - reflexivity.
Qed.

(* ------------------------------------------------------------------ *)
(** ** Failure of the compatibility search *)

Section ZeroTempo.
Import TrackMetadata TrackLibrary.

Lemma compatible_loop_zero (reference_track : Track) (tol : Q)
  (key_only : bool) :
  (bpm reference_track == 0)%Q ->
  forall l acc,
    for_each l (compatible_step reference_track tol key_only) acc
    = if existsb (fun t => negb (eqb t reference_track)) l
      then Raise ZeroDivisionError else Ok acc.
Proof.
  intros Hb. induction l as [|t l IH]; intros acc;
    cbn [for_each existsb]; [reflexivity|].
  unfold compatible_step at 1.
  destruct (eqb t reference_track); cbn [rbind negb orb]; [apply IH|].
  unfold truediv. apply Qeq_bool_iff in Hb. rewrite Hb. reflexivity.
Qed.
End ZeroTempo.

(** X7.  [get_compatible_tracks] raises [ZeroDivisionError] exactly when
    the reference tempo is zero and the library holds a track different
    from the reference; it raises nothing else, and with a zero-tempo
    reference and no other track it returns the empty list. *)
Theorem get_compatible_tracks_failure (self : TrackLibrary.t)
  (reference_track : Track) (tol : Q) (key_only : bool) :
  (TrackLibrary.get_compatible_tracks self reference_track tol key_only
   = Raise ZeroDivisionError
   <-> (TrackMetadata.bpm reference_track == 0)%Q
       /\ exists t, In t (TrackLibrary.tracks self)
                    /\ TrackMetadata.eqb t reference_track = false)
  /\ (forall e,
        TrackLibrary.get_compatible_tracks self reference_track tol key_only
        = Raise e -> e = ZeroDivisionError)
  /\ ((TrackMetadata.bpm reference_track == 0)%Q ->
      (forall t, In t (TrackLibrary.tracks self) ->
                 TrackMetadata.eqb t reference_track = true) ->
      TrackLibrary.get_compatible_tracks self reference_track tol key_only
      = Ok []).
Proof.
  assert (Hex : existsb (fun t => negb (TrackMetadata.eqb t reference_track))
                        (TrackLibrary.tracks self) = true
                <-> exists t, In t (TrackLibrary.tracks self)
                              /\ TrackMetadata.eqb t reference_track = false).
  { rewrite existsb_exists. split; intros (t & Hin & Ht); exists t;
      (split; [exact Hin|]); [now apply negb_true_iff in Ht
                             | now apply negb_true_iff]. }
  split; [|split].
  - unfold TrackLibrary.get_compatible_tracks.
    destruct (Qeq_bool (TrackMetadata.bpm reference_track) 0) eqn:E.
    + apply Qeq_bool_iff in E. rewrite (compatible_loop_zero _ _ _ E).
      rewrite <- Hex.
      destruct (existsb _ (TrackLibrary.tracks self)); split;
        try tauto; try discriminate. intros [_ H]; discriminate H.
    + assert (Hn : ~ (TrackMetadata.bpm reference_track == 0)%Q).
      { intros H. apply Qeq_bool_iff in H. congruence. }
      rewrite (compatible_loop _ _ _ Hn). split; [discriminate | tauto].
  - intros e He. eapply for_each_compatible_raises. exact He.
  - intros Hb Hall. unfold TrackLibrary.get_compatible_tracks.
    rewrite (compatible_loop_zero _ _ _ Hb).
    destruct (existsb _ (TrackLibrary.tracks self)); [|reflexivity].
    destruct (proj1 Hex eq_refl) as (t & Hin & Ht).
    rewrite (Hall t Hin) in Ht. discriminate Ht.
Qed.

(* ------------------------------------------------------------------ *)
(** ** Energy curves: edges *)

Section CurveEdges.
Import EnergyCurve.

Lemma range_nonpos (n : Z) : n <= 0 -> range n = [].
Proof.
  intros H. unfold range, range2.
  replace (Z.to_nat (n - 0)) with O by lia. reflexivity.
Qed.

Lemma peak_at_nonpos (n : Z) : n <= 0 -> n <= peak_at_of n <= 0.
Proof.
  intros H. unfold peak_at_of, int. simpl.
  replace (n * 65) with (- (- n * 65)) by lia.
  rewrite Z.quot_opp_l by lia.
  rewrite Z.quot_div_nonneg by lia.
  pose proof (Z.div_pos (- n * 65) 100 ltac:(lia) ltac:(lia)).
  assert ((- n * 65) / 100 <= - n).
  { apply Z.div_le_upper_bound; lia. }
  lia.
Qed.

Lemma slice_to_nil {A} (n : Z) : slice_to (@nil A) n = [].
Proof. unfold slice_to. destruct (0 <=? n); apply firstn_nil. Qed.

Lemma generated_curve_length (n : Z) (progression : string) :
  1 <= n ->
  exists curve,
    _generate_energy_curve n progression = Ok curve /\ len curve = n.
Proof.
  intros Hn. unfold _generate_energy_curve.
  destruct (String.eqb progression "gradual_build").
  { destruct (gradual_build_shape n ltac:(lia))
      as (o & b & d & -> & Ho & Hb & Hd & _).
    eexists; split; [reflexivity|].
    pose proof (Z.mul_div_le n 3 ltac:(lia)).
    pose proof (Z.div_pos n 3 ltac:(lia) ltac:(lia)).
    unfold len. rewrite !length_app, Ho, Hb, Hd. lia. }
  destruct (String.eqb progression "peak_and_descent").
  { destruct (peak_and_descent_shape n ltac:(lia))
      as (r & f & -> & Hr & Hf & _).
    eexists; split; [reflexivity|].
    pose proof (peak_at_bounds n ltac:(lia)).
    unfold len. rewrite length_app, Hr, Hf. lia. }
  destruct (String.eqb progression "steady").
  { eexists; split; [reflexivity|].
    unfold len, steady. rewrite length_map, range_length. lia. }
  eexists; split; [reflexivity|].
  unfold len, replicate. rewrite repeat_length. lia.
Qed.
End CurveEdges.

(** X8.  For [num_tracks <= 0] every progression returns the empty curve
    and raises nothing. *)
Theorem energy_curve_empty (num_tracks : Z) (progression : string) :
  num_tracks <= 0 ->
  EnergyCurve._generate_energy_curve num_tracks progression = Ok [].
Proof.
  intros H. rename num_tracks into n. unfold EnergyCurve._generate_energy_curve.
  destruct (String.eqb progression "gradual_build").
  { unfold EnergyCurve.gradual_build.
    assert (H3 : n / 3 <= 0).
    { apply Z.div_le_upper_bound; lia. }
    rewrite (range_nonpos _ H3). simpl.
    rewrite (range_nonpos (n - len [])) by (unfold len; simpl; lia).
    simpl. now rewrite slice_to_nil. }
  destruct (String.eqb progression "peak_and_descent").
  { unfold EnergyCurve.peak_and_descent. cbv zeta.
    pose proof (peak_at_nonpos n H) as Hp.
    rewrite (range_nonpos _ (proj2 Hp)). simpl.
    rewrite (range_nonpos (n - EnergyCurve.peak_at_of n)) by lia.
    simpl. now rewrite slice_to_nil. }
  destruct (String.eqb progression "steady").
  { unfold EnergyCurve.steady. now rewrite (range_nonpos _ H). }
  unfold replicate. replace (Z.to_nat n) with O by lia. reflexivity.
Qed.

Lemma energy_curve_empty_witness :
  -2 <= 0 /\ EnergyCurve._generate_energy_curve (-2) "peak_and_descent" = Ok [].
Proof.
  split; [lia | apply (energy_curve_empty (-2) "peak_and_descent"); lia].
Defined.

Section CurveStart.
Import EnergyCurve.

Lemma gradual_build_opening (n : Z) :
  0 <= n ->
  exists rest,
    gradual_build n
    = Ok (map (fun i => 2 + i mod 3) (range (n / 3)) ++ rest).
Proof.
  intros Hn. unfold gradual_build.
  set (third := n / 3).
  assert (H3 : 0 <= third /\ 3 * third <= n).
  { subst third. split; [apply Z.div_pos; lia|]. apply Z.mul_div_le; lia. }
  set (opening := map (fun i => 2 + i mod 3) (range third)).
  assert (Hlo : List.length opening = Z.to_nat third).
  { subst opening. now rewrite length_map, range_length. }
  destruct (build_loop third opening) as (build & -> & Hlb & _); [lia|].
  cbn [rbind].
  assert (Hlen : len (opening ++ build) = 2 * third).
  { unfold len. rewrite length_app, Hlo, Hlb. lia. }
  destruct (descent_loop n (opening ++ build)) as (descent & -> & Hld & _);
    [lia|].
  cbn [rbind]. rewrite Hlen in Hld.
  exists (build ++ descent). rewrite <- app_assoc. rewrite slice_to_all.
  - reflexivity.
  - unfold len. rewrite !length_app, Hlo, Hlb, Hld. lia.
Qed.

Lemma range_cons (n : Z) :
  1 <= n -> range n = 0 :: range_from 1 (Z.to_nat (n - 1)).
Proof.
  intros H. unfold range, range2.
  replace (Z.to_nat (n - 0)) with (S (Z.to_nat (n - 1))) by lia.
  reflexivity.
Qed.

Lemma peak_at_pos (n : Z) : 2 <= n -> 1 <= peak_at_of n.
Proof.
  intros H. unfold peak_at_of, int. simpl.
  rewrite Z.quot_div_nonneg by lia.
  apply Z.div_le_lower_bound; lia.
Qed.

Lemma peak_and_descent_opening (n : Z) :
  2 <= n ->
  exists rest, peak_and_descent n = Ok (2 :: rest).
Proof.
  intros Hn. unfold peak_and_descent. cbv zeta.
  pose proof (peak_at_pos n Hn) as Hp1.
  pose proof (peak_at_bounds n ltac:(lia)) as Hp.
  set (p := peak_at_of n) in *.
  rewrite (range_cons p Hp1). cbn [for_each].
  assert (H0 : ramp_step p 0 [] = Ok [2]).
  { unfold ramp_step. rewrite truediv_Z_ok by lia. reflexivity. }
  rewrite H0. cbn [rbind].
  destruct (for_each_appends (ramp_step p) (fun e => 2 <= e <= 8)
              (fun j i (_ : list Z) => 0 <= i /\ i + Z.of_nat j <= p))
    with (k := Z.to_nat (p - 1)) (a := 1) (c := [2])
    as (tail & -> & Hlt & _).
  - intros j i c [Hi Hj]. unfold ramp_step.
    rewrite truediv_Z_ok by lia. cbn [rbind].
    eexists; split; [reflexivity|]. split; [|cbv beta; lia].
    pose proof (ramp_term_bounds i p 6 ltac:(lia) ltac:(lia) ltac:(lia)) as B.
    change (inject_Z 6) with 6%Q in B. lia.
  - lia.
  - cbn [rbind].
    destruct (fall_loop n p ([2] ++ tail)) as (fall & -> & Hlf & _); [lia|].
    cbn [rbind]. exists (tail ++ fall).
    rewrite slice_to_all.
    + now rewrite <- app_assoc.
    + unfold len. rewrite !length_app, Hlt, Hlf. simpl. lia.
Qed.
End CurveStart.

(** X9.  Where a curve starts: [gradual_build] opens at energy 2 for three
    tracks or more, but a set of one or two tracks consists of the descent
    alone and opens at 7; [peak_and_descent] opens at 2 for two tracks or
    more, and a single track gets the peak value 8. *)
Theorem energy_curve_first_value :
  (forall n, 3 <= n ->
     exists rest,
       EnergyCurve._generate_energy_curve n "gradual_build" = Ok (2 :: rest))
  /\ EnergyCurve._generate_energy_curve 1 "gradual_build" = Ok [7]
  /\ EnergyCurve._generate_energy_curve 2 "gradual_build" = Ok [7; 5]
  /\ (forall n, 2 <= n ->
        exists rest,
          EnergyCurve._generate_energy_curve n "peak_and_descent"
          = Ok (2 :: rest))
  /\ EnergyCurve._generate_energy_curve 1 "peak_and_descent" = Ok [8].
Proof.
  split; [|split; [|split; [|split]]]; try (vm_compute; reflexivity).
  - intros n Hn.
    change (EnergyCurve._generate_energy_curve n "gradual_build")
      with (EnergyCurve.gradual_build n).
    destruct (gradual_build_opening n ltac:(lia)) as (rest & ->).
    assert (H3 : 1 <= n / 3) by (apply Z.div_le_lower_bound; lia).
    rewrite (range_cons _ H3). simpl. eauto.
  - intros n Hn.
    change (EnergyCurve._generate_energy_curve n "peak_and_descent")
      with (EnergyCurve.peak_and_descent n).
    apply peak_and_descent_opening. exact Hn.
Qed.

Lemma energy_curve_first_value_witness :
  exists rest,
    EnergyCurve._generate_energy_curve 7 "gradual_build" = Ok (2 :: rest).
Proof.
  apply (proj1 energy_curve_first_value 7). lia.
Defined.

(* ------------------------------------------------------------------ *)
(** ** Arc creation *)

Lemma Qfloor_div_pos (d : Z) (q : Q) (m : positive) :
  (q == inject_Z d / inject_Z (Zpos m))%Q -> Qfloor q = d / Zpos m.
Proof.
  intros H. rewrite H. rewrite <- Qmake_Qdiv. reflexivity.
Qed.

(** X10.  For a non-negative duration and a blend shorter than 360 s,
    [create_journey_arc] returns an arc with at least one track and an
    energy curve of exactly [num_tracks] values, whatever the progression
    name; with the default blend of 60 s the track count is
    [duration_minutes // 5 + 1].  A blend of exactly 360 s raises
    [ZeroDivisionError]. *)
Theorem create_journey_arc_shape (duration_minutes : Z)
  (key_center : option MusicalKey) (bpm_range : Q * Q)
  (energy_progression : string) (blend_duration : Z) :
  0 <= duration_minutes ->
  (blend_duration < 360 ->
   exists arc,
     JourneyPlanner.create_journey_arc duration_minutes key_center bpm_range
       energy_progression blend_duration = Ok arc
     /\ 1 <= JourneyArc.num_tracks arc
     /\ len (JourneyArc.energy_curve arc) = JourneyArc.num_tracks arc
     /\ JourneyArc.blend_duration arc = blend_duration
     /\ JourneyArc.key_center arc = key_center
     /\ JourneyArc.bpm_range arc = bpm_range
     /\ (blend_duration = 60 ->
         JourneyArc.num_tracks arc = duration_minutes / 5 + 1))
  /\ JourneyPlanner.create_journey_arc duration_minutes key_center bpm_range
       energy_progression 360 = Raise ZeroDivisionError.
Proof.
  intros Hd. split; [|reflexivity].
  intros Hb. unfold JourneyPlanner.create_journey_arc. cbv zeta.
  rewrite (truediv_ok (inject_Z blend_duration) 60) by discriminate.
  cbn [rbind].
  assert (Hb' : (inject_Z blend_duration < 360)%Q).
  { unfold Qlt, inject_Z; simpl; lia. }
  assert (Hden : (0 < 6 - inject_Z blend_duration / 60)%Q).
  { assert (E : (inject_Z blend_duration / 60 * 60 == inject_Z blend_duration)%Q)
      by (field; discriminate).
    lra. }
  rewrite truediv_ok by lra. cbn [rbind].
  assert (Hd' : (0 <= inject_Z duration_minutes)%Q).
  { unfold Qle, inject_Z; simpl; lia. }
  assert (Hq : (0 <= inject_Z duration_minutes
                     / (6 - inject_Z blend_duration / 60))%Q).
  { apply Qle_shift_div_l; lra. }
  assert (Hint : 0 <= int (inject_Z duration_minutes
                           / (6 - inject_Z blend_duration / 60))).
  { rewrite int_is_floor by exact Hq.
    change 0 with (Qfloor (inject_Z 0)). now apply Qfloor_resp_le. }
  destruct (generated_curve_length
              (int (inject_Z duration_minutes
                    / (6 - inject_Z blend_duration / 60)) + 1)
              energy_progression ltac:(lia)) as (curve & -> & Hlen).
  cbn [rbind]. eexists. split; [reflexivity|].
  cbn [JourneyArc.num_tracks JourneyArc.energy_curve JourneyArc.blend_duration
       JourneyArc.key_center JourneyArc.bpm_range].
  repeat split; auto; [lia|].
  intros ->. f_equal. rewrite int_is_floor by exact Hq.
  apply (Qfloor_div_pos duration_minutes _ 5). field.
Qed.

Lemma create_journey_arc_shape_witness :
  exists arc,
    JourneyPlanner.create_journey_arc 30 None (118%Q, 124%Q) "gradual_build" 60
    = Ok arc
    /\ 1 <= JourneyArc.num_tracks arc
    /\ len (JourneyArc.energy_curve arc) = JourneyArc.num_tracks arc
    /\ JourneyArc.blend_duration arc = 60
    /\ JourneyArc.key_center arc = None
    /\ JourneyArc.bpm_range arc = (118%Q, 124%Q)
    /\ (60 = 60 -> JourneyArc.num_tracks arc = 30 / 5 + 1).
Proof.
  apply (create_journey_arc_shape 30 None (118%Q, 124%Q) "gradual_build" 60);
    lia.
Defined.

(* ------------------------------------------------------------------ *)
(** ** Candidate scorer: range of the score *)

Section ScoreRange.
Import TrackMetadata JourneyPlanner.

Lemma texture_variety_le (current candidate : Track) :
  0 <= texture_variety current candidate <= 10.
Proof.
  unfold texture_variety.
  destruct (_ && _); [destruct (_ <? _)|]; lia.
Qed.
End ScoreRange.

(** X11.  The score always lies between 0 and 120: the floor is enforced
    by [max], and the five bonuses add up to at most 70 above the base of
    50.  The upper end is reached (two tracks in the same key and at the
    same tempo, candidate at the target energy, textures only partly shared,
    different artists), so scores above 100 occur. *)
Theorem score_range (current candidate : Track) (target_energy : Z) :
  0 <= JourneyPlanner._score_track_compatibility current candidate
         target_energy <= 120
  /\ JourneyPlanner._score_track_compatibility
       MoreSamples.deep_a MoreSamples.deep_b 5 = 120.
Proof.
  split; [|vm_compute; reflexivity].
  unfold JourneyPlanner._score_track_compatibility. cbv zeta.
  pose proof (texture_variety_le current candidate) as Ht.
  pose proof (Z.abs_nonneg
                (TrackMetadata.energy_level candidate - target_energy)) as Ha.
  set (tv := JourneyPlanner.texture_variety current candidate) in *.
  set (ed := Z.abs (TrackMetadata.energy_level candidate - target_energy)) in *.
  repeat match goal with
         | |- context [if ?b then _ else _] => destruct b
         | |- context [match ?x with Some _ => _ | None => _ end] =>
             destruct x
         end; lia.
Qed.

(* ------------------------------------------------------------------ *)
(** ** Transition flags against the store's tempo test *)

Section DoubleTempo.
Import TrackMetadata JourneyPlanner.

Lemma double_tempo_flag (a b : Q) :
  (0 < a)%Q -> (0 < b)%Q ->
  TrackLibrary.band_2_1 (b / a) 6 = true ->
  (Qle_bool (94 # 100) (a / b) && Qle_bool (a / b) (106 # 100))
  || (Qle_bool (188 # 100) (a / b) && Qle_bool (a / b) (212 # 100)) = false.
Proof.
  intros Ha Hb H.
  unfold TrackLibrary.band_2_1 in H.
  apply in_band_spec, Qabs_Qle_condition in H. destruct H as [H1 H2].
  assert (E1 : (b / a * a == b)%Q) by (field; lra).
  assert (E2 : (a / b * b == a)%Q) by (field; lra).
  assert (E3 : (6 / 100 == 3 # 50)%Q) by reflexivity.
  rewrite E3 in H1, H2.
  set (r := (b / a)%Q) in *. set (s := (a / b)%Q) in *.
  assert (Hs : (s * r == 1)%Q) by (unfold r, s; field; lra).
  assert (Hr : (97 # 50 <= r)%Q) by lra.
  assert (Hs1 : (s < 94 # 100)%Q).
  { destruct (Qlt_le_dec s (94 # 100)) as [L|L]; [exact L|]. nra. }
  apply orb_false_iff. split; apply andb_false_iff; left;
    (destruct (Qle_bool _ s) eqn:E; [|reflexivity]);
    apply Qle_bool_iff in E; lra.
Qed.
End DoubleTempo.

(** X12.  A successor at double tempo, which the store accepts through its
    2:1 band at 6%, always gets a transition flagged tempo-incompatible:
    the transition divides the other way round and has no 1:2 band. *)
Theorem double_tempo_successor_is_flagged (current next : Track)
  (blend_duration : Z) :
  (0 < TrackMetadata.bpm current)%Q -> (0 < TrackMetadata.bpm next)%Q ->
  TrackLibrary.band_2_1 (TrackMetadata.bpm next / TrackMetadata.bpm current) 6
  = true ->
  TrackLibrary.bpm_ok (TrackMetadata.bpm next / TrackMetadata.bpm current) 6
  = true
  /\ exists tr,
       JourneyPlanner._create_transition current next blend_duration = Ok tr
       /\ Transition.bpm_compatible tr = false.
Proof.
  intros Ha Hb H. split.
  - unfold TrackLibrary.bpm_ok. rewrite H. now rewrite orb_true_r.
  - unfold JourneyPlanner._create_transition.
    rewrite truediv_ok by lra. cbn [rbind].
    eexists. split; [reflexivity|].
    cbn [Transition.bpm_compatible].
    now apply double_tempo_flag.
Qed.

Lemma double_tempo_successor_is_flagged_witness :
  TrackLibrary.bpm_ok
    (TrackMetadata.bpm Samples.t240 / TrackMetadata.bpm Samples.t120) 6 = true
  /\ exists tr,
       JourneyPlanner._create_transition Samples.t120 Samples.t240 60 = Ok tr
       /\ Transition.bpm_compatible tr = false.
Proof.
  apply (double_tempo_successor_is_flagged Samples.t120 Samples.t240 60);
    reflexivity.
Defined.

(* ------------------------------------------------------------------ *)
(** ** The successor search in normal form *)

Section SuccessorSearch.
Import TrackMetadata PlanM JourneyPlanner.
Variable journey_arc : JourneyArc.t.
Variables strict_key prefer_labels : bool.

Lemma select_next_track_unfold current target used s :
  ~ (bpm current == 0)%Q ->
  _select_next_track current target journey_arc strict_key prefer_labels
    used s
  = let c0 := filter (TrackLibrary.compatible_with current 6 strict_key)
                     (TrackLibrary.tracks (library s)) in
    if negb (nonempty (filter (successor_filter journey_arc target used) c0))
    then (Ok None, s)
    else
      let sorted :=
        sort_desc
          (map (fun track =>
                  (track, _score_track_compatibility current track target))
               (Journey.narrowed journey_arc prefer_labels current target
                  used c0)) in
      if len sorted <=? 3 then
        match sorted with
        | [] => (Raise IndexError, s)
        | (t, _) :: _ => (Ok (Some t), s)
        end
      else mbind (choice (map fst (firstn 3 sorted)))
                 (fun t => mret (Some t)) s.
Proof.
  intros Hb. unfold _select_next_track, mbind at 1 2, get_library, lift.
  rewrite get_compatible_tracks_filter by exact Hb.
  cbv zeta. rewrite !hard_filters. unfold Journey.narrowed. cbv zeta.
  destruct (negb (nonempty _)); [reflexivity|].
  destruct (len _ <=? 3); [|reflexivity].
  destruct (sort_desc _) as [|[t sc] l]; reflexivity.
Qed.

Lemma select_next_track_zero current target used s t s' :
  (bpm current == 0)%Q ->
  _select_next_track current target journey_arc strict_key prefer_labels
    used s <> (Ok (Some t), s').
Proof.
  intros Hb. unfold _select_next_track, mbind, get_library, lift.
  unfold TrackLibrary.get_compatible_tracks.
  rewrite (compatible_loop_zero _ _ _ Hb).
  destruct (existsb _ _); discriminate.
Qed.

Lemma narrowed_incl current target used c0 :
  incl (Journey.narrowed journey_arc prefer_labels current target used c0)
       (filter (successor_filter journey_arc target used) c0).
Proof.
  unfold Journey.narrowed. cbv zeta. intros x Hx.
  assert (Hkey : forall y,
             In y match key current with
                  | Some kc =>
                      prefer (fun t => match key t with
                                       | Some kt =>
                                           TrackLibrary.are_keys_compatible
                                             kc kt
                                       | None => false
                                       end)
                        (filter (successor_filter journey_arc target used) c0)
                  | None =>
                      filter (successor_filter journey_arc target used) c0
                  end ->
             In y (filter (successor_filter journey_arc target used) c0)).
  { intros y. destruct (key current); [apply prefer_incl | auto]. }
  destruct (prefer_labels && _); [apply prefer_incl in Hx|]; auto.
Qed.

Lemma narrowed_nil current target used c0 :
  Journey.narrowed journey_arc prefer_labels current target used c0 = []
  <-> filter (successor_filter journey_arc target used) c0 = [].
Proof.
  unfold Journey.narrowed. cbv zeta.
  destruct (prefer_labels && _), (key current);
    rewrite ?prefer_nil; reflexivity.
Qed.

Lemma sort_desc_length' (l : list (Track * Z)) :
  List.length (sort_desc l) = List.length l.
Proof.
  induction l as [|x l IH]; simpl; [reflexivity|].
  rewrite <- IH. generalize (sort_desc l). intros m.
  induction m as [|y m IHm]; simpl; [reflexivity|].
  destruct (snd x <? snd y); simpl; now rewrite ?IHm.
Qed.

(** A successor that is returned passed the store's test from the current
    track and the three hard filters, and the state keeps its library. *)
Lemma select_next_track_inv current target used s t s' :
  _select_next_track current target journey_arc strict_key prefer_labels
    used s = (Ok (Some t), s') ->
  ~ (bpm current == 0)%Q
  /\ In t (TrackLibrary.tracks (library s))
  /\ TrackLibrary.compatible_with current 6 strict_key t = true
  /\ successor_filter journey_arc target used t = true
  /\ In t (Journey.narrowed journey_arc prefer_labels current target used
             (filter (TrackLibrary.compatible_with current 6 strict_key)
                     (TrackLibrary.tracks (library s)))).
Proof.
  intros H.
  assert (Hb : ~ (bpm current == 0)%Q).
  { intros Hz. exact (select_next_track_zero _ _ _ _ _ _ Hz H). }
  split; [exact Hb|].
  rewrite (select_next_track_unfold _ _ _ _ Hb) in H. cbv zeta in H.
  set (c0 := filter _ (TrackLibrary.tracks (library s))) in *.
  destruct (negb (nonempty _)); [discriminate H|].
  set (nw := Journey.narrowed _ _ _ _ _ c0) in *.
  assert (Hin : In t nw).
  { set (sorted := sort_desc _) in H.
    assert (Hs : forall x sc, In (x, sc) sorted -> In x nw).
    { intros x sc Hx. apply sort_desc_in, in_map_iff in Hx.
      destruct Hx as (y & E & Hy). now injection E as -> _. }
    clearbody sorted.
    destruct (len sorted <=? 3).
    - destruct sorted as [|[t0 sc] rest]; [discriminate H|].
      injection H as -> _. apply (Hs t sc). now left.
    - apply mbind_ok_inv in H. destruct H as (x & s3 & Hch & H).
      injection H as -> _.
      apply choice_ok_inv, in_map_iff in Hch.
      destruct Hch as ([t0 sc] & E & Hx). simpl in E. subst t0.
      apply firstn_incl in Hx. now apply (Hs t sc). }
  pose proof (narrowed_incl _ _ _ _ _ Hin) as Hf.
  apply filter_In in Hf. destruct Hf as [Hc0 Hsf].
  unfold c0 in Hc0. apply filter_In in Hc0. destruct Hc0 as [Hlib Hcw].
  auto.
Qed.

(** With a non-zero current tempo the search raises nothing. *)
Lemma select_next_track_returns current target used s :
  ~ (bpm current == 0)%Q ->
  exists r s',
    _select_next_track current target journey_arc strict_key prefer_labels
      used s = (Ok r, s').
Proof.
  intros Hb. rewrite (select_next_track_unfold _ _ _ _ Hb). cbv zeta.
  set (c0 := filter _ (TrackLibrary.tracks (library s))).
  destruct (negb (nonempty _)) eqn:E; [eauto|].
  apply negb_false_iff, nonempty_true in E.
  assert (E' : Journey.narrowed journey_arc prefer_labels current target
                 used c0 <> []).
  { intros H. apply E. now apply (narrowed_nil current) in H. }
  clear E. rename E' into E.
  set (nw := Journey.narrowed _ _ _ _ _ c0) in *.
  set (sorted := sort_desc _).
  assert (Hlen : List.length sorted = List.length nw).
  { unfold sorted. now rewrite sort_desc_length', length_map. }
  destruct (len sorted <=? 3) eqn:E3.
  - destruct sorted as [|[t sc] rest]; [|eauto].
    destruct nw; [contradiction | discriminate Hlen].
  - apply Z.leb_gt in E3. unfold len in E3.
    destruct (choice_nonempty (map fst (firstn 3 sorted)) s)
      as (x & s1 & Hc & _).
    { destruct sorted as [|a sorted]; [simpl in E3; lia|]. discriminate. }
    unfold mbind. rewrite Hc. unfold mret. eauto.
Qed.
End SuccessorSearch.

(* ------------------------------------------------------------------ *)
(** ** The loop invariant of [generate_playlist] *)

Section LoopInvariant.
Import TrackMetadata PlanM JourneyPlanner.
Variable journey_arc : JourneyArc.t.
Variables strict_key prefer_labels : bool.

Lemma adjacent_snoc {A} (l : list A) (x d : A) :
  l <> [] -> Journey.adjacent (l ++ [x])
             = Journey.adjacent l ++ [(last l d, x)].
Proof.
  induction l as [|a l IH]; intros Hl; [contradiction|].
  destruct l as [|b l]; [reflexivity|].
  change (Journey.adjacent ((a :: b :: l) ++ [x]))
    with ((a, b) :: Journey.adjacent ((b :: l) ++ [x])).
  rewrite IH by discriminate. reflexivity.
Qed.

Lemma adjacent_length {A} (l : list A) :
  List.length (Journey.adjacent l) = (List.length l - 1)%nat.
Proof.
  induction l as [|a l IH]; [reflexivity|].
  destruct l as [|b l]; [reflexivity|].
  change (Journey.adjacent (a :: b :: l))
    with ((a, b) :: Journey.adjacent (b :: l)).
  simpl List.length in *. rewrite IH. lia.
Qed.

Lemma successor_filter_on_curve target used t :
  successor_filter journey_arc target used t = true ->
  ~ In (file_path t) used
  /\ energy_near target t = true
  /\ Journey.in_tempo_range journey_arc t = true.
Proof.
  unfold successor_filter, Journey.in_tempo_range.
  rewrite !andb_true_iff. intros [[H1 H2] H3].
  apply used_spec in H1. tauto.
Qed.

Lemma loop_body_step i st s st' s' :
  loop_body journey_arc strict_key prefer_labels i st s = (Ok (Some st'), s') ->
  exists next tr,
    st' = mkLoop (selected_tracks st ++ [next]) (transitions st ++ [tr]) next
    /\ In next (TrackLibrary.tracks (library s))
    /\ ~ In (file_path next) (map file_path (selected_tracks st))
    /\ Journey.linked strict_key (current_track st, next)
    /\ Journey.on_curve journey_arc i next = true
    /\ _create_transition (current_track st) next
         (JourneyArc.blend_duration journey_arc) = Ok tr.
Proof.
  unfold loop_body. cbv zeta. intros H.
  apply mbind_ok_inv in H. destruct H as ([next|] & s1 & Hn & H);
    [|discriminate H].
  apply select_next_track_inv in Hn.
  destruct Hn as (Hb & Hin & Hcw & Hsf & _).
  apply successor_filter_on_curve in Hsf. destruct Hsf as (Hu & He & Hr).
  apply mbind_ok_inv in H. destruct H as (tr & s2 & Htr & H).
  unfold lift in Htr. injection Htr as Htr _.
  injection H as <- _. exists next, tr.
  repeat split; auto.
  unfold Journey.on_curve. now rewrite He, Hr.
Qed.

Lemma invariant_step lib first i indices st s st' s' :
  library s = lib ->
  Journey.invariant lib journey_arc strict_key first (i :: indices) st ->
  loop_body journey_arc strict_key prefer_labels i st s = (Ok (Some st'), s') ->
  Journey.invariant lib journey_arc strict_key first indices st'.
Proof.
  intros Hlib (Hidx & Hlen & (rest & Hsel) & Hcur & Hin & Hnd & Hoc & Hlk & Htr)
         Hbody.
  apply loop_body_step in Hbody.
  destruct Hbody as (next & tr & -> & Hn & Hu & Hl & Hc & Hct).
  rewrite Hlib in Hn. simpl List.length in Hidx. simpl range_from in Hidx.
  injection Hidx as Hi Hidx.
  assert (Hne : selected_tracks st <> []) by (rewrite Hsel; discriminate).
  unfold Journey.invariant. cbn [selected_tracks transitions current_track].
  repeat split.
  - rewrite len_app. unfold len at 2. simpl List.length.
    rewrite Hidx at 1. f_equal.
  - rewrite length_app. simpl in *. lia.
  - exists (rest ++ [next]). now rewrite Hsel.
  - now rewrite last_last.
  - apply Forall_app. split; [exact Hin | now repeat constructor].
  - rewrite map_app. simpl.
    apply NoDup_app; [exact Hnd | repeat constructor; intros [] | ].
    intros x Hx [<- | []]. contradiction.
  - intros j t Hj Hnth.
    destruct (Nat.lt_ge_cases j (List.length (selected_tracks st))) as [L|L].
    + rewrite nth_error_app1 in Hnth by exact L. now apply Hoc.
    + rewrite nth_error_app2 in Hnth by exact L.
      destruct (j - List.length (selected_tracks st))%nat as [|m] eqn:E.
      * injection Hnth as <-.
        replace (Z.of_nat j) with i; [exact Hc|].
        rewrite Hi. unfold len. lia.
      * simpl in Hnth. destruct m; discriminate Hnth.
  - rewrite (adjacent_snoc _ next first Hne). apply Forall_app.
    split; [exact Hlk|]. constructor; [|constructor].
    now rewrite <- Hcur.
  - rewrite (adjacent_snoc _ next first Hne), !map_app, Htr. simpl.
    now rewrite <- Hcur, Hct.
Qed.

Lemma select_loop_invariant lib first indices :
  forall st s st' s',
    library s = lib ->
    Journey.invariant lib journey_arc strict_key first indices st ->
    select_loop journey_arc strict_key prefer_labels indices st s
    = (Ok st', s') ->
    exists indices',
      Journey.invariant lib journey_arc strict_key first indices' st'.
Proof.
  induction indices as [|i indices IH]; intros st s st' s' Hlib HI; simpl.
  - intros H. injection H as <- _. eauto.
  - intros H. apply mbind_ok_inv in H.
    destruct H as ([st1|] & s1 & Hb & H).
    + apply (IH st1 s1 st' s'); [|eapply invariant_step; eauto | exact H].
      pose proof (frames_loop_body journey_arc strict_key prefer_labels i st s)
        as Hf. rewrite Hb in Hf. simpl in Hf. congruence.
    + injection H as <- _. eauto.
Qed.

Lemma mandatory_opener_spec lib t :
  In t (Run.mandatory_opener_candidates lib journey_arc strict_key) ->
  In t (TrackLibrary.tracks lib)
  /\ energy_near (Journey.opener_target journey_arc) t = true
  /\ Journey.in_tempo_range journey_arc t = true.
Proof.
  unfold Run.mandatory_opener_candidates. cbv zeta. intros H.
  assert (H' : In t (filter (energy_near (Journey.opener_target journey_arc))
                       (TrackLibrary.find_tracks_by_bpm_range lib
                          (fst (JourneyArc.bpm_range journey_arc))
                          (snd (JourneyArc.bpm_range journey_arc))))).
  { destruct strict_key, (JourneyArc.key_center journey_arc);
      try exact H. apply filter_In in H. tauto. }
  apply filter_In in H'. destruct H' as [H1 H2].
  unfold TrackLibrary.find_tracks_by_bpm_range in H1.
  apply filter_In in H1. tauto.
Qed.

Lemma opener_candidates_incl lib :
  incl (opener_candidates lib journey_arc strict_key prefer_labels)
       (Run.mandatory_opener_candidates lib journey_arc strict_key).
Proof.
  rewrite opener_candidates_unfold. cbv zeta. intros x Hx.
  destruct (prefer_labels && _); [apply prefer_incl in Hx|];
    now apply prefer_incl, prefer_incl in Hx.
Qed.

Lemma select_opener_inv s t s' :
  _select_opener journey_arc strict_key prefer_labels s = (Ok (Some t), s') ->
  In t (opener_candidates (library s) journey_arc strict_key prefer_labels).
Proof.
  unfold _select_opener, mbind, get_library.
  destruct (nonempty _); [|discriminate].
  destruct (choice _ s) as [[x|e] s1] eqn:E; [|discriminate].
  intros H. injection H as <- _. eapply choice_ok_inv; eauto.
Qed.

Lemma initial_invariant lib first :
  In first (TrackLibrary.tracks lib) ->
  Journey.invariant lib journey_arc strict_key first
    (range2 1 (JourneyArc.num_tracks journey_arc))
    (mkLoop [first] [] first).
Proof.
  intros Hin. unfold Journey.invariant, range2.
  cbn [selected_tracks transitions current_track].
  rewrite range_from_length. repeat split.
  - simpl. lia.
  - exists []. reflexivity.
  - now repeat constructor.
  - simpl. repeat constructor. intros [].
  - intros j t Hj Hnth. destruct j as [|j]; [lia|].
    simpl in Hnth. destruct j; discriminate Hnth.
  - constructor.
Qed.

(** Every returned playlist satisfies the invariant for its opener. *)
Lemma returned_playlist_invariant s p s' :
  generate_playlist journey_arc strict_key prefer_labels s = (Ok p, s') ->
  exists first indices st,
    In first (Run.mandatory_opener_candidates (library s) journey_arc
                strict_key)
    /\ Journey.invariant (library s) journey_arc strict_key first indices st
    /\ Playlist.tracks p = selected_tracks st
    /\ Playlist.transitions p = transitions st
    /\ Playlist.calculate_duration
         (Playlist.mk (JourneyArc.name journey_arc) journey_arc
            (selected_tracks st) (transitions st) 0 (Some (clock s'))) = p.
Proof.
  intros H. unfold generate_playlist in H.
  apply mbind_ok_inv in H. destruct H as ([first|] & s1 & Ho & H);
    [|discriminate H].
  apply mbind_ok_inv in H. destruct H as (st & s2 & Hl & H).
  apply mbind_ok_inv in H. destruct H as (now & s3 & Hn & H).
  unfold now_isoformat in Hn. injection Hn as <- <-.
  cbv zeta in H. injection H as <- <-.
  pose proof (frames_select_opener journey_arc strict_key prefer_labels s)
    as Hf. rewrite Ho in Hf. simpl in Hf.
  apply select_opener_inv, opener_candidates_incl in Ho.
  destruct (mandatory_opener_spec _ _ Ho) as (Hin & _).
  destruct (select_loop_invariant (library s) first _ _ _ _ _ Hf
              (initial_invariant _ _ Hin) Hl) as (indices & HI).
  exists first, indices, st.
  split; [exact Ho|]. split; [exact HI|].
  split; [apply calculate_duration_keeps|].
  split; [apply calculate_duration_keeps | reflexivity].
Qed.
End LoopInvariant.

(* ------------------------------------------------------------------ *)
(** ** Returned playlists *)

Section Returned.
Import TrackMetadata PlanM JourneyPlanner.

Lemma create_transition_fields a b blend tr :
  _create_transition a b blend = Ok tr ->
  Transition.track_a tr = a /\ Transition.track_b tr = b
  /\ Transition.blend_duration tr = blend.
Proof.
  unfold _create_transition.
  destruct (truediv (bpm a) (bpm b)) as [r|e]; simpl; [|discriminate].
  intros H. injection H as <-. auto.
Qed.

Lemma created_pairs blend :
  forall pairs trs,
    map (fun ab : Track * Track => _create_transition (fst ab) (snd ab) blend)
        pairs = map Ok trs ->
    map (fun tr => (Transition.track_a tr, Transition.track_b tr)) trs = pairs
    /\ Forall (fun tr => Transition.blend_duration tr = blend) trs.
Proof.
  induction pairs as [|[a b] pairs IH]; intros [|tr trs] H;
    try discriminate H; [split; [reflexivity | constructor]|].
  simpl in H. injection H as H1 H2.
  destruct (IH _ H2) as [E F].
  destruct (create_transition_fields _ _ _ _ H1) as (Ea & Eb & Ec).
  split; [simpl; now rewrite Ea, Eb, E | now constructor].
Qed.

Lemma duration_fold (blend : Z) :
  forall l trs a acc,
    map (fun tr => (Transition.track_a tr, Transition.track_b tr)) trs
    = Journey.adjacent (a :: l) ->
    Forall (fun tr => Transition.blend_duration tr = blend) trs ->
    (fold_left
       (fun total transition =>
          total + (duration (Transition.track_b transition)
                   - inject_Z (Transition.blend_duration transition)))
       trs acc
     == acc + Journey.total_length l
        - inject_Z blend * inject_Z (Z.of_nat (List.length l)))%Q.
Proof.
  induction l as [|b l IH]; intros trs a acc Hp Hb.
  - destruct trs; [|discriminate Hp]. simpl. unfold Journey.total_length.
    simpl. ring.
  - destruct trs as [|tr trs]; [discriminate Hp|].
    change (Journey.adjacent (a :: b :: l))
      with ((a, b) :: Journey.adjacent (b :: l)) in Hp.
    simpl in Hp. injection Hp as _ Eb Hp.
    inversion Hb as [|? ? Hb1 Hb2]; subst.
    cbn [fold_left]. rewrite (IH trs (Transition.track_b tr) _ Hp Hb2).
    unfold Journey.total_length. cbn [map fold_right List.length].
    rewrite Nat2Z.inj_succ, <- Z.add_1_r, inject_Z_plus.
    fold (Journey.total_length l). ring.
Qed.
End Returned.

(** X13.  Every returned playlist has at least one track, at most
    [max(1, num_tracks)] tracks, and one transition less than tracks. *)
Theorem playlist_counts
  (journey_arc : JourneyArc.t) (strict_key prefer_labels : bool)
  (s s' : PlanM.PlannerState) (p : Playlist.t) :
  JourneyPlanner.generate_playlist journey_arc strict_key prefer_labels s
  = (Ok p, s') ->
  (1 <= List.length (Playlist.tracks p)
   <= Z.to_nat (Z.max 1 (JourneyArc.num_tracks journey_arc)))%nat
  /\ (List.length (Playlist.transitions p) + 1
      = List.length (Playlist.tracks p))%nat.
Proof.
  intros H. apply returned_playlist_invariant in H.
  destruct H as (first & indices & st & _ & HI & -> & -> & _).
  destruct HI as (_ & Hlen & (rest & Hsel) & _ & _ & _ & _ & _ & Htr).
  apply (f_equal (@List.length _)) in Htr.
  rewrite !length_map, adjacent_length in Htr.
  rewrite Hsel in *. simpl in *. lia.
Qed.

Lemma playlist_counts_witness :
  (1 <= List.length (Playlist.tracks Samples.small_playlist)
   <= Z.to_nat (Z.max 1 (JourneyArc.num_tracks (Samples.arc None))))%nat
  /\ (List.length (Playlist.transitions Samples.small_playlist) + 1
      = List.length (Playlist.tracks Samples.small_playlist))%nat.
Proof.
  apply (playlist_counts (Samples.arc None) false true
           (Samples.state Samples.small_library) (snd Samples.small_run)).
  vm_compute; reflexivity.
Defined.

(** X14.  In every returned playlist the transitions are, in order,
    exactly what [_create_transition] returns for each pair of neighbouring
    tracks with the arc's blend duration: transition [i] joins track [i] to
    track [i + 1] and carries the arc's blend duration. *)
Theorem transitions_join_neighbours
  (journey_arc : JourneyArc.t) (strict_key prefer_labels : bool)
  (s s' : PlanM.PlannerState) (p : Playlist.t) :
  JourneyPlanner.generate_playlist journey_arc strict_key prefer_labels s
  = (Ok p, s') ->
  map (fun ab => JourneyPlanner._create_transition (fst ab) (snd ab)
                   (JourneyArc.blend_duration journey_arc))
      (Journey.adjacent (Playlist.tracks p))
  = map Ok (Playlist.transitions p)
  /\ map (fun tr => (Transition.track_a tr, Transition.track_b tr))
         (Playlist.transitions p)
     = Journey.adjacent (Playlist.tracks p)
  /\ Forall (fun tr => Transition.blend_duration tr
                       = JourneyArc.blend_duration journey_arc)
            (Playlist.transitions p).
Proof.
  intros H. apply returned_playlist_invariant in H.
  destruct H as (first & indices & st & _ & HI & -> & -> & _).
  destruct HI as (_ & _ & _ & _ & _ & _ & _ & _ & Htr).
  split; [exact Htr|]. now apply created_pairs.
Qed.

Lemma transitions_join_neighbours_witness :
  map (fun ab => JourneyPlanner._create_transition (fst ab) (snd ab)
                   (JourneyArc.blend_duration (Samples.arc None)))
      (Journey.adjacent (Playlist.tracks Samples.small_playlist))
  = map Ok (Playlist.transitions Samples.small_playlist)
  /\ map (fun tr => (Transition.track_a tr, Transition.track_b tr))
         (Playlist.transitions Samples.small_playlist)
     = Journey.adjacent (Playlist.tracks Samples.small_playlist)
  /\ Forall (fun tr => Transition.blend_duration tr
                       = JourneyArc.blend_duration (Samples.arc None))
            (Playlist.transitions Samples.small_playlist).
Proof.
  apply (transitions_join_neighbours (Samples.arc None) false true
           (Samples.state Samples.small_library) (snd Samples.small_run)).
  vm_compute; reflexivity.
Defined.

(** X15.  The total duration stored in a returned playlist is the sum of
    the durations of its tracks minus one blend duration per transition. *)
Theorem playlist_total_duration
  (journey_arc : JourneyArc.t) (strict_key prefer_labels : bool)
  (s s' : PlanM.PlannerState) (p : Playlist.t) :
  JourneyPlanner.generate_playlist journey_arc strict_key prefer_labels s
  = (Ok p, s') ->
  (Playlist.total_duration p
   == Journey.total_length (Playlist.tracks p)
      - inject_Z (JourneyArc.blend_duration journey_arc)
        * inject_Z (Z.of_nat (List.length (Playlist.transitions p))))%Q.
Proof.
  intros H. apply returned_playlist_invariant in H.
  destruct H as (first & indices & st & _ & HI & _ & _ & <-).
  destruct HI as (_ & _ & (rest & Hsel) & _ & _ & _ & _ & _ & Htr).
  pose proof (f_equal (@List.length _) Htr) as Hl.
  rewrite !length_map, adjacent_length in Hl.
  apply created_pairs in Htr. destruct Htr as [Hp Hb].
  unfold Playlist.calculate_duration.
  cbn [Playlist.tracks Playlist.transitions Playlist.total_duration].
  rewrite Hsel in *. cbn [Playlist.total_duration Playlist.transitions
                           Playlist.tracks].
  rewrite (duration_fold _ rest (JourneyPlanner.transitions st) first _ Hp Hb).
  unfold Journey.total_length. cbn [map fold_right].
  fold (Journey.total_length rest).
  assert (Hl' : List.length (JourneyPlanner.transitions st)
                = List.length rest) by (simpl in Hl; lia).
  rewrite Hl'. ring.
Qed.

Lemma playlist_total_duration_witness :
  (Playlist.total_duration Samples.small_playlist
   == Journey.total_length (Playlist.tracks Samples.small_playlist)
      - inject_Z (JourneyArc.blend_duration (Samples.arc None))
        * inject_Z (Z.of_nat (List.length
                                (Playlist.transitions Samples.small_playlist))))%Q.
Proof.
  apply (playlist_total_duration (Samples.arc None) false true
           (Samples.state Samples.small_library) (snd Samples.small_run)).
  vm_compute; reflexivity.
Defined.

(** X16.  A returned playlist follows the arc: its opener lies in the
    arc's tempo range with energy within one level of the curve's first
    value (2 for an empty curve), and the track at every later position [j]
    lies in the tempo range with energy within one level of the target of
    position [j] (the curve's value, or 5 past its end). *)
Theorem playlist_follows_arc
  (journey_arc : JourneyArc.t) (strict_key prefer_labels : bool)
  (s s' : PlanM.PlannerState) (p : Playlist.t) :
  JourneyPlanner.generate_playlist journey_arc strict_key prefer_labels s
  = (Ok p, s') ->
  (exists first rest,
      Playlist.tracks p = first :: rest
      /\ JourneyPlanner.energy_near (Journey.opener_target journey_arc) first
         = true
      /\ Journey.in_tempo_range journey_arc first = true)
  /\ forall j t,
       (0 < j)%nat -> nth_error (Playlist.tracks p) j = Some t ->
       Z.abs (TrackMetadata.energy_level t
              - JourneyPlanner.target_energy_at journey_arc (Z.of_nat j)) <= 1
       /\ Journey.in_tempo_range journey_arc t = true.
Proof.
  intros H. apply returned_playlist_invariant in H.
  destruct H as (first & indices & st & Ho & HI & -> & _ & _).
  destruct HI as (_ & _ & (rest & Hsel) & _ & _ & _ & Hoc & _ & _).
  apply mandatory_opener_spec in Ho. destruct Ho as (_ & He & Hr).
  split; [exists first, rest; auto|].
  intros j t Hj Hn. specialize (Hoc j t Hj Hn).
  unfold Journey.on_curve, JourneyPlanner.energy_near in Hoc.
  apply andb_true_iff in Hoc. destruct Hoc as [H1 H2].
  apply Z.leb_le in H1. auto.
Qed.

Lemma playlist_follows_arc_witness :
  (exists first rest,
      Playlist.tracks Samples.small_playlist = first :: rest
      /\ JourneyPlanner.energy_near (Journey.opener_target (Samples.arc None))
           first = true
      /\ Journey.in_tempo_range (Samples.arc None) first = true)
  /\ forall j t,
       (0 < j)%nat ->
       nth_error (Playlist.tracks Samples.small_playlist) j = Some t ->
       Z.abs (TrackMetadata.energy_level t
              - JourneyPlanner.target_energy_at (Samples.arc None)
                  (Z.of_nat j)) <= 1
       /\ Journey.in_tempo_range (Samples.arc None) t = true.
Proof.
  apply (playlist_follows_arc (Samples.arc None) false true
           (Samples.state Samples.small_library) (snd Samples.small_run)).
  vm_compute; reflexivity.
Defined.



(* ------------------------------------------------------------------ *)
(** ** Planning never fails half-way on a well-formed library *)

Section Totality.
Import TrackMetadata PlanM JourneyPlanner.
Variable journey_arc : JourneyArc.t.
Variables strict_key prefer_labels : bool.

Lemma select_loop_returns (lib : TrackLibrary.t) indices :
  (forall t, In t (TrackLibrary.tracks lib) -> ~ (bpm t == 0)%Q) ->
  forall st s,
    library s = lib ->
    In (current_track st) (TrackLibrary.tracks lib) ->
    exists st' s',
      select_loop journey_arc strict_key prefer_labels indices st s
      = (Ok st', s').
Proof.
  intros Hpos. induction indices as [|i indices IH]; intros st s Hlib Hcur;
    simpl; [unfold mret; eauto|].
  destruct (select_next_track_returns journey_arc strict_key prefer_labels
              (current_track st) (target_energy_at journey_arc i)
              (map file_path (selected_tracks st)) s (Hpos _ Hcur))
    as (r & s1 & Hn).
  pose proof (frames_select_next_track journey_arc strict_key prefer_labels
                (current_track st) (target_energy_at journey_arc i)
                (map file_path (selected_tracks st)) s) as Hf.
  rewrite Hn in Hf. simpl in Hf.
  unfold mbind at 1, loop_body. cbv zeta. unfold mbind at 1. rewrite Hn.
  destruct r as [next|]; [|unfold mret; eauto].
  apply select_next_track_inv in Hn. destruct Hn as (_ & Hin & _).
  rewrite Hlib in Hin.
  unfold mbind at 1, lift, _create_transition.
  rewrite truediv_ok by (apply Hpos; exact Hin). cbn [rbind].
  unfold mret at 1. apply IH; [congruence | exact Hin].
Qed.
End Totality.

(** X18.  On a library in which no track has tempo zero, planning has two
    outcomes only: the opener error, when no track passes the mandatory
    opener filters, and a returned playlist otherwise.  No division by zero
    and no indexing error can interrupt the successor loop. *)
Theorem planning_returns_unless_no_opener
  (journey_arc : JourneyArc.t) (strict_key prefer_labels : bool)
  (s : PlanM.PlannerState) :
  (forall t, In t (TrackLibrary.tracks (PlanM.library s)) ->
             ~ (TrackMetadata.bpm t == 0)%Q) ->
  (Run.mandatory_opener_candidates (PlanM.library s) journey_arc strict_key
   = []
   /\ JourneyPlanner.generate_playlist journey_arc strict_key prefer_labels s
      = (Raise JourneyPlanner.no_opener, s))
  \/ (Run.mandatory_opener_candidates (PlanM.library s) journey_arc strict_key
      <> []
      /\ exists p s',
           JourneyPlanner.generate_playlist journey_arc strict_key
             prefer_labels s = (Ok p, s')).
Proof.
  intros Hpos.
  destruct (Run.mandatory_opener_candidates (PlanM.library s) journey_arc
              strict_key) as [|c cs] eqn:E.
  - left. split; [reflexivity|].
    unfold JourneyPlanner.generate_playlist.
    rewrite (mbind_ok _ _ _ _ _
               (select_opener_none journey_arc strict_key prefer_labels s E)).
    reflexivity.
  - right. split; [discriminate|].
    destruct (select_opener_some journey_arc strict_key prefer_labels s)
      as (t & s1 & Ho & Hin); [rewrite E; discriminate|].
    pose proof (frames_select_opener journey_arc strict_key prefer_labels s)
      as Hf. rewrite Ho in Hf. simpl in Hf.
    apply opener_candidates_incl, mandatory_opener_spec in Hin.
    destruct Hin as (Hin & _).
    destruct (select_loop_returns journey_arc strict_key prefer_labels
                (PlanM.library s)
                (range2 1 (JourneyArc.num_tracks journey_arc)) Hpos
                (JourneyPlanner.mkLoop [t] [] t) s1 Hf Hin)
      as (st & s2 & Hl).
    unfold JourneyPlanner.generate_playlist.
    rewrite (mbind_ok _ _ _ _ _ Ho), (mbind_ok _ _ _ _ _ Hl).
    unfold PlanM.mbind, PlanM.now_isoformat, PlanM.mret. eauto.
Qed.

Lemma planning_returns_unless_no_opener_witness :
  (Run.mandatory_opener_candidates
     (PlanM.library (Samples.state Samples.small_library)) (Samples.arc None)
     false = []
   /\ JourneyPlanner.generate_playlist (Samples.arc None) false true
        (Samples.state Samples.small_library)
      = (Raise JourneyPlanner.no_opener, Samples.state Samples.small_library))
  \/ (Run.mandatory_opener_candidates
        (PlanM.library (Samples.state Samples.small_library))
        (Samples.arc None) false <> []
      /\ exists p s',
           JourneyPlanner.generate_playlist (Samples.arc None) false true
             (Samples.state Samples.small_library) = (Ok p, s')).
Proof.
  apply (planning_returns_unless_no_opener (Samples.arc None) false true
           (Samples.state Samples.small_library)).
  intros t [<- | [<- | []]]; vm_compute; discriminate.
Defined.

(* ------------------------------------------------------------------ *)
(** ** The opener preference *)

(** X19.  The opener is always one of the tracks that pass the mandatory
    filters, and whenever one of those is tagged as an opener, the selected
    opener is tagged as an opener too: the later texture and label
    preferences never override the journey-position preference. *)
Theorem opener_position_preference
  (journey_arc : JourneyArc.t) (strict_key prefer_labels : bool)
  (s s' : PlanM.PlannerState) (t : Track) :
  JourneyPlanner._select_opener journey_arc strict_key prefer_labels s
  = (Ok (Some t), s') ->
  In t (Run.mandatory_opener_candidates (PlanM.library s) journey_arc
          strict_key)
  /\ ((exists c,
         In c (Run.mandatory_opener_candidates (PlanM.library s) journey_arc
                 strict_key)
         /\ TrackMetadata.journey_position c = Some OPENER) ->
      TrackMetadata.journey_position t = Some OPENER).
Proof.
  intros H. apply select_opener_inv in H.
  split; [now apply opener_candidates_incl in H|].
  intros (c & Hc & Hpos).
  rewrite opener_candidates_unfold in H. cbv zeta in H.
  set (m := Run.mandatory_opener_candidates _ _ _) in *.
  set (is_opener := fun t : Track =>
         option_eqb position_eqb (TrackMetadata.journey_position t)
                    (Some OPENER)) in *.
  assert (Hin : In t (JourneyPlanner.prefer is_opener m)).
  { destruct (prefer_labels && _); [apply prefer_incl in H|];
      now apply prefer_incl in H. }
  assert (Hne : filter is_opener m <> []).
  { intros E. assert (Hf : In c (filter is_opener m)).
    { apply filter_In. split; [exact Hc|]. unfold is_opener.
      rewrite Hpos. reflexivity. }
    rewrite E in Hf. exact Hf. }
  unfold JourneyPlanner.prefer in Hin.
  apply nonempty_true in Hne. rewrite Hne in Hin.
  apply filter_In in Hin. destruct Hin as [_ Hin]. unfold is_opener in Hin.
  destruct (TrackMetadata.journey_position t) as [jp|]; [|discriminate Hin].
  simpl in Hin. unfold position_eqb in Hin.
  destruct (JourneyPosition_eq_dec jp OPENER); congruence.
Qed.

Lemma opener_position_preference_witness :
  let mandatory :=
    Run.mandatory_opener_candidates
      (PlanM.library (Samples.state MoreSamples.opener_library))
      (Samples.arc None) false in
  mandatory = [Samples.first; MoreSamples.tagged_opener]
  /\ map TrackMetadata.journey_position mandatory = [None; Some OPENER]
  /\ In MoreSamples.tagged_opener mandatory
  /\ TrackMetadata.journey_position MoreSamples.tagged_opener = Some OPENER.
Proof.
  intros mandatory.
  destruct (opener_position_preference (Samples.arc None) false true
              (Samples.state MoreSamples.opener_library)
              (PlanM.mkState MoreSamples.opener_library [0%nat; 1%nat]
                 "2024-01-01T00:00:00")
              MoreSamples.tagged_opener)
    as [Hin Hpos].
  - vm_compute; reflexivity.
  - split; [vm_compute; reflexivity|].
    split; [vm_compute; reflexivity|].
    split; [exact Hin|].
    apply Hpos. exists MoreSamples.tagged_opener.
    split; [exact Hin | reflexivity].
Defined.

(* ------------------------------------------------------------------ *)
(** ** Ranking of the successor candidates *)

Section Ranking.
Import TrackMetadata PlanM JourneyPlanner.






End Ranking.

Section TopThree.
Import TrackMetadata PlanM JourneyPlanner.




End TopThree.



Section FirstBest.
Import TrackMetadata PlanM JourneyPlanner.

End FirstBest.



(* ------------------------------------------------------------------ *)
(** ** Energy curves: direction of each segment *)

Section ValueLoop.
Variable body : Z -> list Z -> result (list Z).
Variable f : Z -> Z.
Variable Inv : nat -> Z -> list Z -> Prop.
Hypothesis step :
  forall j i c, Inv (S j) i c ->
    body i c = Ok (c ++ [f i]) /\ Inv j (i + 1) (c ++ [f i]).

Lemma for_each_values :
  forall k a c, Inv k a c ->
    for_each (range_from a k) body c = Ok (c ++ map f (range_from a k)).
Proof.
  induction k as [|k IH]; intros a c HI; simpl.
  - now rewrite app_nil_r.
  - destruct (step _ _ _ HI) as (Hb & HI'). rewrite Hb. simpl.
    rewrite (IH _ _ HI'), <- app_assoc. reflexivity.
Qed.
End ValueLoop.

Section Direction.
Import EnergyCurve.

Lemma map_range_sorted (R : Z -> Z -> Prop) (f : Z -> Z) :
  forall k a,
    (forall i, a <= i -> i + 1 < a + Z.of_nat k -> R (f i) (f (i + 1))) ->
    Sorted R (map f (range_from a k)).
Proof.
  induction k as [|k IH]; intros a H; simpl; [constructor|].
  constructor.
  - apply IH. intros i Hi Hlt. apply H; lia.
  - destruct k as [|k]; simpl; constructor. apply H; lia.
Qed.

Lemma frac_le (a b c d : Z) :
  0 < b -> 0 < d -> a * d <= c * b ->
  (inject_Z a / inject_Z b <= inject_Z c / inject_Z d)%Q.
Proof.
  intros Hb Hd H.
  assert (Hb' : (0 < inject_Z b)%Q) by (unfold Qlt, inject_Z; simpl; lia).
  assert (Hd' : (0 < inject_Z d)%Q) by (unfold Qlt, inject_Z; simpl; lia).
  apply Qle_shift_div_r; [exact Hb'|].
  setoid_replace (inject_Z c / inject_Z d * inject_Z b)%Q
    with (inject_Z c * inject_Z b / inject_Z d)%Q by (field; lra).
  apply Qle_shift_div_l; [exact Hd'|].
  rewrite <- !inject_Z_mult, <- Zle_Qle. exact H.
Qed.

(** [int((a / b) * m)] grows with the fraction. *)
Lemma ramp_term_mono (a b c d m : Z) :
  0 <= a -> 0 < b -> 0 < d -> 0 <= m -> a * d <= c * b ->
  int (inject_Z a / inject_Z b * inject_Z m)
  <= int (inject_Z c / inject_Z d * inject_Z m).
Proof.
  intros Ha Hb Hd Hm H.
  pose proof (frac_le a b c d Hb Hd H) as Hle.
  pose proof (ratio_nonneg a b Ha Hb) as H0.
  assert (Hm' : (0 <= inject_Z m)%Q) by (unfold Qle, inject_Z; simpl; lia).
  assert (H1 : (0 <= inject_Z a / inject_Z b * inject_Z m)%Q)
    by now apply Qmult_le_0_compat.
  assert (H2 : (inject_Z a / inject_Z b * inject_Z m
                <= inject_Z c / inject_Z d * inject_Z m)%Q)
    by now apply Qmult_le_compat_r.
  rewrite !int_is_floor; [now apply Qfloor_resp_le | lra | exact H1].
Qed.

Lemma build_values (third : Z) (curve : list Z) :
  0 <= third ->
  for_each (range third) (build_step third) curve
  = Ok (curve ++ map (fun i => 4 + int (inject_Z i / inject_Z third * 3))
                     (range third)).
Proof.
  intros Hpos. unfold range, range2. rewrite Z.sub_0_r.
  apply for_each_values
    with (Inv := fun j i (_ : list Z) => 0 <= i /\ i + Z.of_nat j <= third);
    [|lia].
  intros j i c [H0 H1]. unfold build_step.
  rewrite truediv_Z_ok by lia. cbn [rbind]. split; [reflexivity | lia].
Qed.

Lemma ramp_values (peak_at : Z) (curve : list Z) :
  0 <= peak_at ->
  for_each (range peak_at) (ramp_step peak_at) curve
  = Ok (curve ++ map (fun i => 2 + int (inject_Z i / inject_Z peak_at * 6))
                     (range peak_at)).
Proof.
  intros Hpos. unfold range, range2. rewrite Z.sub_0_r.
  apply for_each_values
    with (Inv := fun j i (_ : list Z) => 0 <= i /\ i + Z.of_nat j <= peak_at);
    [|lia].
  intros j i c [H0 H1]. unfold ramp_step.
  rewrite truediv_Z_ok by lia. cbn [rbind]. split; [reflexivity | lia].
Qed.

Lemma fall_values (num_tracks peak_at : Z) (curve : list Z) :
  peak_at <= num_tracks ->
  for_each (range (num_tracks - peak_at)) (fall_step num_tracks peak_at) curve
  = Ok (curve
        ++ map (fun i =>
                  Z.max (8 - int (inject_Z i
                                  / inject_Z (num_tracks - peak_at) * 5)) 3)
               (range (num_tracks - peak_at))).
Proof.
  intros Hpos. unfold range, range2. rewrite Z.sub_0_r.
  apply for_each_values
    with (Inv := fun j i (_ : list Z) =>
                   0 <= i /\ i + Z.of_nat j <= num_tracks - peak_at);
    [|lia].
  intros j i c [H0 H1]. unfold fall_step.
  rewrite truediv_Z_ok by lia. cbn [rbind]. split; [reflexivity | lia].
Qed.

Lemma descent_values (num_tracks : Z) (curve : list Z) :
  len curve <= num_tracks ->
  for_each (range (num_tracks - len curve)) (descent_step num_tracks) curve
  = Ok (curve
        ++ map (fun i =>
                  Z.max (7 - int (inject_Z i
                                  / inject_Z (num_tracks - len curve - i)
                                  * 2)) 5)
               (range (num_tracks - len curve))).
Proof.
  intros Hle. unfold range, range2. rewrite Z.sub_0_r.
  apply for_each_values
    with (Inv := fun j i c =>
                   0 <= i /\ num_tracks - len c = Z.of_nat j
                   /\ len c = len curve + i);
    [|lia].
  intros j i c (H0 & H1 & H2). unfold descent_step.
  rewrite truediv_Z_ok by lia. cbn [rbind].
  replace (num_tracks - len c) with (num_tracks - len curve - i) by lia.
  split; [reflexivity|].
  rewrite len_app. unfold len at 2 5. simpl List.length. lia.
Qed.

Lemma range_as_range_from (n : Z) : range n = range_from 0 (Z.to_nat n).
Proof. unfold range, range2. now rewrite Z.sub_0_r. Qed.

Lemma rising_sorted (d m base : Z) :
  0 <= d -> 0 <= m ->
  Sorted Z.le (map (fun i => base + int (inject_Z i / inject_Z d
                                         * inject_Z m))
                   (range d)).
Proof.
  intros Hd Hm. rewrite range_as_range_from.
  apply map_range_sorted. intros i Hi Hlt.
  pose proof (ramp_term_mono i d (i + 1) d m ltac:(lia) ltac:(lia) ltac:(lia)
                Hm ltac:(nia)).
  lia.
Qed.

Lemma falling_sorted (d m top floor : Z) :
  0 <= d -> 0 <= m ->
  Sorted Z.ge (map (fun i => Z.max (top - int (inject_Z i / inject_Z d
                                               * inject_Z m)) floor)
                   (range d)).
Proof.
  intros Hd Hm. rewrite range_as_range_from.
  apply map_range_sorted. intros i Hi Hlt.
  pose proof (ramp_term_mono i d (i + 1) d m ltac:(lia) ltac:(lia) ltac:(lia)
                Hm ltac:(nia)).
  lia.
Qed.

Lemma gentle_descent_sorted (m : Z) :
  0 <= m ->
  Sorted Z.ge (map (fun i => Z.max (7 - int (inject_Z i / inject_Z (m - i)
                                             * 2)) 5)
                   (range m)).
Proof.
  intros Hm. rewrite range_as_range_from.
  apply map_range_sorted. intros i Hi Hlt.
  pose proof (ramp_term_mono i (m - i) (i + 1) (m - (i + 1)) 2
                ltac:(lia) ltac:(lia) ltac:(lia) ltac:(lia) ltac:(nia)) as H.
  change (inject_Z 2) with 2%Q in H. lia.
Qed.
End Direction.

(** X22.  For [num_tracks >= 1] the segments of the two shaped curves
    each go one way: in [gradual_build] the build (after the opening of
    [num_tracks // 3] values) never drops and the descent never rises; in
    [peak_and_descent] the ramp up to [peak_at] never drops and the descent
    after it never rises. *)
Theorem energy_curve_segments_monotone (num_tracks : Z) :
  1 <= num_tracks ->
  (exists opening build descent,
      EnergyCurve._generate_energy_curve num_tracks "gradual_build"
      = Ok (opening ++ build ++ descent)
      /\ List.length opening = Z.to_nat (num_tracks / 3)
      /\ List.length build = Z.to_nat (num_tracks / 3)
      /\ Sorted Z.le build /\ Sorted Z.ge descent)
  /\ (exists ramp fall,
        EnergyCurve._generate_energy_curve num_tracks "peak_and_descent"
        = Ok (ramp ++ fall)
        /\ List.length ramp = Z.to_nat (EnergyCurve.peak_at_of num_tracks)
        /\ Sorted Z.le ramp /\ Sorted Z.ge fall).
Proof.
  intros Hn. split.
  - change (EnergyCurve._generate_energy_curve num_tracks "gradual_build")
      with (EnergyCurve.gradual_build num_tracks).
    unfold EnergyCurve.gradual_build.
    set (third := num_tracks / 3).
    assert (H3 : 0 <= third /\ 3 * third <= num_tracks).
    { subst third. split; [apply Z.div_pos; lia|]. apply Z.mul_div_le; lia. }
    set (opening := map (fun i => 2 + i mod 3) (range third)).
    assert (Hlo : List.length opening = Z.to_nat third).
    { subst opening. now rewrite length_map, range_length. }
    rewrite (build_values third opening) by lia. cbn [rbind].
    set (build := map _ (range third)).
    assert (Hlb : List.length build = Z.to_nat third).
    { subst build. now rewrite length_map, range_length. }
    assert (Hlen : len (opening ++ build) = 2 * third).
    { unfold len. rewrite length_app, Hlo, Hlb. lia. }
    rewrite (descent_values num_tracks (opening ++ build)) by lia.
    cbn [rbind]. rewrite Hlen.
    set (descent := map _ (range (num_tracks - 2 * third))).
    exists opening, build, descent.
    rewrite <- app_assoc. rewrite slice_to_all.
    + repeat split; auto.
      * apply (rising_sorted third 3 4); lia.
      * apply (gentle_descent_sorted (num_tracks - 2 * third)). lia.
    + unfold len. rewrite !length_app, Hlo, Hlb. unfold descent.
      rewrite length_map, range_length. lia.
  - change (EnergyCurve._generate_energy_curve num_tracks "peak_and_descent")
      with (EnergyCurve.peak_and_descent num_tracks).
    unfold EnergyCurve.peak_and_descent. cbv zeta.
    pose proof (peak_at_bounds num_tracks ltac:(lia)) as Hp.
    set (p := EnergyCurve.peak_at_of num_tracks) in *.
    rewrite (ramp_values p []) by lia. cbn [rbind app].
    rewrite (fall_values num_tracks p) by lia. cbn [rbind].
    eexists _, _. rewrite slice_to_all.
    + split; [reflexivity|]. split; [now rewrite length_map, range_length|].
      split.
      * apply (rising_sorted p 6 2); lia.
      * apply (falling_sorted (num_tracks - p) 5 8 3); lia.
    + unfold len. rewrite length_app, !length_map, !range_length. lia.
Qed.

Lemma energy_curve_segments_monotone_witness :
  exists ramp fall,
    EnergyCurve._generate_energy_curve 10 "peak_and_descent"
    = Ok (ramp ++ fall)
    /\ List.length ramp = Z.to_nat (EnergyCurve.peak_at_of 10)
    /\ Sorted Z.le ramp /\ Sorted Z.ge fall.
Proof.
  apply (energy_curve_segments_monotone 10). lia.
Defined.

(* ------------------------------------------------------------------ *)
(** ** Rounding in the arc's track count *)
Section Rounding.
Import Binary64.

Lemma in_range_from (a : Z) (k : nat) (t : Z) :
  In t (range_from a k) <-> a <= t < a + Z.of_nat k.
Proof.
  revert a. induction k as [|k IH]; intros a; simpl.
  - lia.
  - rewrite IH. lia.
Qed.

Lemma in_range2 (a b t : Z) : In t (range2 a b) <-> a <= t < b.
Proof. unfold range2. rewrite in_range_from. lia. Qed.

Lemma forallb_range2 (f : Z -> bool) (lo hi : Z) :
  forallb f (range2 lo hi) = true -> forall t, lo <= t < hi -> f t = true.
Proof.
  intros H t Ht. rewrite forallb_forall in H.
  apply H, in_range2, Ht.
Qed.

Lemma default_blend_counts :
  forallb default_blend_count (range2 0 1441) = true.
Proof. vm_cast_no_check (eq_refl true). Qed.
End Rounding.

(** X23.  The number of tracks planned by [create_journey_arc], computed
    in binary64: with the default blend of 60 seconds it is
    [duration // 5 + 1] for every duration from 0 to 1440 minutes, as in
    exact arithmetic; at other blends the rounded quotient can fall just
    below a whole number: 70 minutes with a blend of 80 seconds give 15
    tracks, where exact arithmetic gives 16. *)
Theorem rounded_track_count (duration_minutes : Z) :
  0 <= duration_minutes <= 1440 ->
  Binary64.num_tracks duration_minutes 60
  = Ok (Some (duration_minutes / 5 + 1))
  /\ Binary64.num_tracks 70 80 = Ok (Some 15)
  /\ exists arc,
       JourneyPlanner.create_journey_arc 70 None (118%Q, 124%Q)
         "gradual_build" 80 = Ok arc
       /\ JourneyArc.num_tracks arc = 16.
Proof.
  intros H. split; [|split; [vm_compute; reflexivity|]].
  - assert (Hd : Binary64.default_blend_count duration_minutes = true)
      by (apply (forallb_range2 _ 0 1441 default_blend_counts); lia).
    unfold Binary64.default_blend_count in Hd.
    destruct (Binary64.num_tracks duration_minutes 60) as [[k|]|e];
      try discriminate Hd.
    apply Z.eqb_eq in Hd. now subst k.
  - eexists. split; [vm_compute; reflexivity | reflexivity].
Qed.

Lemma rounded_track_count_witness :
  Binary64.num_tracks 30 60 = Ok (Some (30 / 5 + 1))
  /\ Binary64.num_tracks 70 80 = Ok (Some 15)
  /\ exists arc,
       JourneyPlanner.create_journey_arc 70 None (118%Q, 124%Q)
         "gradual_build" 80 = Ok arc
       /\ JourneyArc.num_tracks arc = 16.
Proof. apply (rounded_track_count 30). lia. Defined.
